(** * Monte Carlo Tree Search agent ([ggpa/mcts_bot.py])

    A shallow embedding of [TreeNode] and [MCTSAgent] and the properties
    the specification states about them.

    Modelling choices, all of them visible in the definitions below:
    - Python [float] is IEEE 754 binary64, which is Rocq's primitive
      [float]; [int] is [Z].
    - The search tree is a heap of nodes addressed by index: a child holds
      the index of its parent, a parent the indices of its children, so a
      node updated during backpropagation is the very node its parent's
      [children] dictionary refers to.
    - A [dict] is an association list in insertion order (the order
      Python iterates in, which decides ties of [max]).
    - [random] is a list of draws consumed from the front.
    - Exceptions are the [Raise] results; a [while] loop that uses up its
      fuel is [Diverge].
    - The battle state, the actions and [math.log] are not part of the
      file: they are the fields of [BattleAPI] and a section variable. *)

From Stdlib Require Import ZArith Lia List Floats String.
From stdpp Require Import base list.

Local Open Scope Z_scope.

(** ** Results of fallible computations *)

Inductive exn : Type :=
  | IndexError          (* random.choice of an empty sequence *)
  | ValueError          (* max of an empty sequence, math domain error *)
  | KeyError            (* dict lookup of an absent key *)
  | ZeroDivisionError
  | OverflowError       (* int too large to convert to float *)
  | RecursionError      (* the parent chain or the descent does not end *)
  | DanglingNode.       (* an index outside the heap: no Python counterpart *)

Inductive result (A : Type) : Type :=
  | Ok (a : A)
  | Raise (e : exn)
  | Diverge.

Arguments Ok {A} a.
Arguments Raise {A} e.
Arguments Diverge {A}.

Definition rbind {A B} (r : result A) (k : A -> result B) : result B :=
  match r with
  | Ok a => k a
  | Raise e => Raise e
  | Diverge => Diverge
  end.

Notation "'let?' x ':=' r 'in' k" := (rbind r (fun x => k))
  (at level 10, x pattern, r at level 100, k at level 200).

(** A [for] loop whose body yields lines: the lines of every turn, in
    order; the first error ends the loop. *)
Fixpoint each_line {A B} (f : A -> result (list B)) (l : list A)
  : result (list B) :=
  match l with
  | [] => Ok []
  | x :: l' =>
      let? y := f x in
      let? ys := each_line f l' in
      Ok (y ++ ys)
  end.

(** What the instrumented run records, newest event first.  The events
    are observation points only: no function below reads the trace. *)
Inductive event : Type :=
  | EvNewNode (n : nat)     (* TreeNode(...) built the node with index n *)
  | EvClone                 (* copy_undeterministic was called *)
  | EvLeaf (n : nat)        (* select evaluated node n as a leaf *)
  | EvRollout (n : nat)     (* rollout was called on node n *)
  | EvPrintTree             (* print_tree wrote the tree *)
  | EvWarning (msg : string).

Abbreviation node_id := nat.

Definition is_warning (e : event) : bool :=
  match e with EvWarning _ => true | _ => false end.

(** How often node [t] was evaluated as a leaf. *)
Fixpoint leaf_count (t : node_id) (tr : list event) : Z :=
  match tr with
  | [] => 0
  | EvLeaf n :: tr' => (if Nat.eqb n t then 1 else 0) + leaf_count t tr'
  | _ :: tr' => leaf_count t tr'
  end.

(** Counting the events of a trace. *)
Definition count (p : event -> bool) (tr : list event) : Z :=
  Z.of_nat (length (List.filter p tr)).

Definition is_clone (e : event) : bool :=
  match e with EvClone => true | _ => false end.

Definition is_new_node (e : event) : bool :=
  match e with EvNewNode _ => true | _ => false end.

Definition is_rollout (e : event) : bool :=
  match e with EvRollout _ => true | _ => false end.

Definition is_leaf (e : event) : bool :=
  match e with EvLeaf _ => true | _ => false end.

(** An evaluation whose result is backpropagated from node [t]: [t] was
    evaluated as a leaf, or a rollout was started on [t]. *)
Definition starts_at (t : node_id) (e : event) : bool :=
  match e with
  | EvLeaf n | EvRollout n => Nat.eqb n t
  | _ => false
  end.

(** Every event of the trace that names a node names a node below
    [bound]. *)
Definition names_below (bound : nat) (tr : list event) : Prop :=
  Forall (fun e => match e with
                   | EvLeaf n | EvRollout n | EvNewNode n => (n < bound)%nat
                   | _ => True
                   end) tr.

(** ** Floats and integers as Python has them *)

(** [float(n)] for an [int]: correctly rounded, [OverflowError] beyond the
    range of binary64.  As in CPython, an [int] that fits a machine word is
    converted by the hardware; both paths round to nearest, ties to even. *)
Definition float_of_int (n : Z) : result float :=
  if (0 <=? n) && (n <? 2 ^ 63) then Ok (PrimFloat.of_uint63 (Uint63.of_Z n))
  else
    let f := SF2Prim (binary_normalize prec emax n 0 false) in
    if PrimFloat.is_infinity f then Raise OverflowError else Ok f.

(** [x / n] for a float [x] and an int [n]. *)
Definition truediv (x : float) (n : Z) : result float :=
  if n =? 0 then Raise ZeroDivisionError
  else let? fn := float_of_int n in Ok (x / fn)%float.

(** [math.sqrt]: a domain error below zero. *)
Definition math_sqrt (x : float) : result float :=
  if (x <? 0)%float then Raise ValueError else Ok (PrimFloat.sqrt x).

Definition is_finite (x : float) : bool :=
  (neg_infinity <? x)%float && (x <? infinity)%float.

(** No float is strictly greater than [k]: [k] is [+infinity] or a NaN. *)
Definition top (k : float) : Prop := forall y, (k <? y)%float = false.

(** A float specification that is not below zero in sign: positive, or a
    NaN. *)
Definition pos_or_nan (y : spec_float) : bool :=
  match y with
  | S754_zero s | S754_infinity s | S754_finite s _ _ => negb s
  | S754_nan => true
  end.

(** [max(items, key=...)] once the keys are computed: the first item is
    kept until a later one has a strictly greater key. *)
Fixpoint max_loop {A} (best : A) (kbest : float) (l : list (A * float)) : A :=
  match l with
  | [] => best
  | (x, k) :: l' =>
      if (kbest <? k)%float then max_loop x k l' else max_loop best kbest l'
  end.

Definition py_max {A} (l : list (A * float)) : result A :=
  match l with
  | [] => Raise ValueError
  | (x, k) :: l' => Ok (max_loop x k l')
  end.

(** ** Dictionaries in insertion order *)

Section Dict.
Context {K V : Type} `{EqDecision K}.

Fixpoint dict_get (k : K) (d : list (K * V)) : option V :=
  match d with
  | [] => None
  | (k', v) :: d' => if decide (k = k') then Some v else dict_get k d'
  end.

Definition dict_mem (k : K) (d : list (K * V)) : bool :=
  match dict_get k d with Some _ => true | None => false end.

(** [d[k] = v]: an existing key keeps its place, a new one goes last. *)
Fixpoint dict_set (k : K) (v : V) (d : list (K * V)) : list (K * V) :=
  match d with
  | [] => [(k, v)]
  | (k', v') :: d' =>
      if decide (k = k') then (k, v) :: d' else (k', v') :: dict_set k v d'
  end.
End Dict.

(** ** The collaborators of the search *)

(** [BattleState], its actions and the base class [GGPA], none of which is
    defined in [mcts_bot.py]. *)
Class BattleAPI (State Action Key Card GameState : Type) := {
  get_actions : State -> list Action;
  state_step : State -> Action -> State;
  ended : State -> bool;
  state_score : State -> float;
  state_health : State -> float;
  (* the copy may resample hidden information: it draws from [random] *)
  copy_undeterministic : State -> list nat -> State * list nat;
  key : Action -> Key;
  to_action : Action -> State -> Card;
  get_choose_card_options : GameState -> State -> list Card
}.

Section MCTS.
Context {State Action Key Card GameState : Type}.
Context `{EqDecision Key}.
Context `{API : BattleAPI State Action Key Card GameState}.

(** [math.log] on a positive [int]. *)
Variable math_log : Z -> float.

(** *** [class TreeNode] *)

Record TreeNode : Type := mkNode {
  children : list (Key * (Action * node_id));
  parent : option node_id;
  action : option Action;
  param : float;
  visits : Z;
  total_reward : float
}.

Record Machine : Type := mkMachine {
  heap : list TreeNode;
  rng : list nat;
  trace : list event
}.

Definition M (A : Type) : Type := Machine -> result (A * Machine).

Definition ret {A} (a : A) : M A := fun m => Ok (a, m).

Definition bind {A B} (c : M A) (k : A -> M B) : M B :=
  fun m => match c m with
           | Ok (a, m') => k a m'
           | Raise e => Raise e
           | Diverge => Diverge
           end.

Definition lift {A} (r : result A) : M A :=
  fun m => let? a := r in Ok (a, m).

Definition raise {A} (e : exn) : M A := fun _ => Raise e.

Definition emit (e : event) : M unit :=
  fun m => Ok (tt, mkMachine (heap m) (rng m) (e :: trace m)).

Definition get_node (n : node_id) : M TreeNode :=
  fun m => match heap m !! n with
           | Some nd => Ok (nd, m)
           | None => Raise DanglingNode
           end.

Definition set_node (n : node_id) (nd : TreeNode) : M unit :=
  fun m => Ok (tt, mkMachine (<[n := nd]> (heap m)) (rng m) (trace m)).

(** [random.choice(l)] *)
Definition random_choice {A} (l : list A) : M A :=
  fun m =>
    let i := (hd 0%nat (rng m) mod length l)%nat in
    match l !! i with
    | Some a => Ok (a, mkMachine (heap m) (tl (rng m)) (trace m))
    | None => Raise IndexError
    end.

(** [TreeNode(param, parent, action)]: a new object, here a new index. *)
Definition new_node (c : float) (p : option node_id) (a : option Action)
  : M node_id :=
  fun m =>
    let n := length (heap m) in
    Ok (n, mkMachine (heap m ++ [mkNode [] p a c 0 0%float]) (rng m)
                     (EvNewNode n :: trace m)).

Notation "'let*' x ':=' c 'in' k" := (bind c (fun x => k))
  (at level 10, x pattern, c at level 100, k at level 200).

Fixpoint mapM {A B} (f : A -> M B) (l : list A) : M (list B) :=
  match l with
  | [] => ret []
  | x :: l' =>
      let* y := f x in
      let* ys := mapM f l' in
      ret (y :: ys)
  end.

(** [score]: the value of a state, from its score and its health. *)
Definition score (s : State) : float :=
  (state_score s * (0.5 + 0.5 * state_health s))%float.

Definition average_score (nd : TreeNode) : result float :=
  if visits nd =? 0 then Ok 0%float
  else truediv (total_reward nd) (visits nd).

(** [math.log(p)] for an [int]: a domain error at zero and below. *)
Definition py_log (p : Z) : result float :=
  if p <=? 0 then Raise ValueError else Ok (math_log p).

Definition ucb_score (nd : TreeNode) (parent_visits : Z) (c : float)
  : result float :=
  if visits nd =? 0 then Ok infinity
  else
    let? exploitation := average_score nd in
    let? ln := py_log parent_visits in
    let? q := truediv ln (visits nd) in
    let? root := math_sqrt q in
    Ok (exploitation + c * root)%float.

(** [self.visits += 1; self.total_reward += result] *)
Definition record_result (r : float) (nd : TreeNode) : TreeNode :=
  mkNode (children nd) (parent nd) (action nd) (param nd)
         (visits nd + 1) (total_reward nd + r)%float.

(** [backpropagate]; [depth] bounds the calls up the parent chain. *)
Fixpoint backpropagate_rec (depth : nat) (self : node_id) (r : float)
  : M unit :=
  match depth with
  | O => raise RecursionError
  | S depth' =>
      let* nd := get_node self in
      let* _ := set_node self (record_result r nd) in
      match parent nd with
      | Some p => backpropagate_rec depth' p r
      | None => ret tt
      end
  end.

(** A chain of parents without a cycle is no longer than the heap. *)
Definition backpropagate (self : node_id) (r : float) : M unit :=
  fun m => backpropagate_rec (length (heap m)) self r m.

(** The [while] loop of [rollout]; it returns the state it stops in. *)
Fixpoint rollout_loop (fuel : nat) (s : State) : M State :=
  match fuel with
  | O => fun _ => Diverge
  | S fuel' =>
      if ended s then ret s
      else
        match get_actions s with
        | [] => ret s
        | actions =>
            let* a := random_choice actions in
            rollout_loop fuel' (state_step s a)
        end
  end.

Definition rollout (fuel : nat) (self : node_id) (s : State) : M unit :=
  let* _ := emit (EvRollout self) in
  let* s' := rollout_loop fuel s in
  backpropagate self (score s').

Definition add_child (k : Key) (a : Action) (c : node_id) (nd : TreeNode)
  : TreeNode :=
  mkNode (dict_set k (a, c) (children nd)) (parent nd) (action nd)
         (param nd) (visits nd) (total_reward nd).

Definition expand (fuel : nat) (self : node_id) (s : State)
    (available : list Action) : M unit :=
  let* a := random_choice available in
  let* nd := get_node self in
  let* child := new_node (param nd) (Some self) (Some a) in
  let* _ := set_node self (add_child (key a) a child nd) in
  rollout fuel child (state_step s a).

(** [{a.key(): a for a in actions}] *)
Definition valid_actions_of (actions : list Action) : list (Key * Action) :=
  fold_left (fun d a => dict_set (key a) a d) actions [].

Definition unexplored_of (nd : TreeNode) (actions : list Action)
  : list Action :=
  filter (fun a => dict_mem (key a) (children nd) = false) actions.

(** The children whose key is still legal, each with its UCB-1 score. *)
Definition candidates (nd : TreeNode) (valid : list (Key * Action))
  : list (Key * (Action * node_id)) :=
  filter (fun kv => dict_mem (fst kv) valid = true) (children nd).

Definition ucb_keyed (nd : TreeNode) (kv : Key * (Action * node_id))
  : M ((Action * node_id) * float) :=
  let* cn := get_node (snd (snd kv)) in
  let* u := lift (ucb_score cn (visits nd) (param nd)) in
  ret (snd kv, u).

(** The [max(...)] of [select]: the legal child of the highest UCB-1
    score, with the action recorded for it. *)
Definition best_child (nd : TreeNode) (valid : list (Key * Action))
  : M (Action * node_id) :=
  let* keyed := mapM (ucb_keyed nd) (candidates nd valid) in
  lift (py_max keyed).

Definition leaf (self : node_id) (s : State) : M unit :=
  let* _ := emit (EvLeaf self) in
  backpropagate self (score s).

(** [select]; [depth] bounds the descent, [fuel] every rollout. *)
Fixpoint select (depth fuel : nat) (self : node_id) (s : State) : M unit :=
  match depth with
  | O => raise RecursionError
  | S depth' =>
      let actions := get_actions s in
      match actions with
      | [] => leaf self s
      | _ =>
          let* nd := get_node self in
          match unexplored_of nd actions with
          | (_ :: _) as unexplored => expand fuel self s unexplored
          | [] =>
              match children nd with
              | _ :: _ =>
                  let valid := valid_actions_of actions in
                  let* best := best_child nd valid in
                  match dict_get (key (fst best)) valid with
                  | Some a => select depth' fuel (snd best) (state_step s a)
                  | None => raise KeyError
                  end
              | [] => leaf self s
              end
          end
      end
  end.

Definition clone (s : State) : M State :=
  fun m =>
    let (s', r') := copy_undeterministic s (rng m) in
    Ok (s', mkMachine (heap m) r' (EvClone :: trace m)).

(** [step]: one iteration.  The copy's [verbose] flag only silences the
    collaborator's logging and is not modelled. *)
Definition step (fuel : nat) (self : node_id) (s : State) : M unit :=
  let* state_copy := clone s in
  fun m => select (length (heap m)) fuel self state_copy m.

Definition avg_keyed (kv : Key * (Action * node_id))
  : M ((Action * node_id) * float) :=
  let* cn := get_node (snd (snd kv)) in
  let* avg := lift (average_score cn) in
  ret (snd kv, avg).

(** [get_best]; [None] stands for Python's [None]. *)
Definition get_best (self : node_id) (s : State) : M (option Action) :=
  let* nd := get_node self in
  match children nd with
  | [] =>
      let* a := random_choice (get_actions s) in
      ret (Some a)
  | items =>
      let* keyed := mapM avg_keyed items in
      let* best := lift (py_max keyed) in
      ret (Some (fst best))
  end.

(** [print_tree]: the text written is not modelled, the call is. *)
Definition print_tree (self : node_id) : M unit := emit EvPrintTree.

(** The lines [print_tree] writes, first to last: for each line its
    indentation and the node it is written for.  The line is written
    after [average_score] has returned and before the children are
    visited, in the order of the dictionary.  The text of a line (the
    action, the visits and the score to two decimals) is not modelled.
    [depth] bounds the recursion. *)
Fixpoint print_tree_lines (depth : nat) (h : list TreeNode) (self : node_id)
    (indent : nat) : result (list (nat * node_id)) :=
  match depth with
  | O => Raise RecursionError
  | S depth' =>
      match h !! self with
      | None => Raise DanglingNode
      | Some nd =>
          let? _ := average_score nd in
          let? below :=
            each_line
              (fun child => print_tree_lines depth' h child (indent + 2))
              (children nd).*2.*2 in
          Ok ((indent, self) :: below)
      end
  end.

(** *** [class MCTSAgent] *)

Record MCTSAgent : Type := mkAgent {
  iterations : Z;
  verbose : bool;
  agent_param : float
}.

(** [for i in range(n): sample_state = ...; t.step(sample_state)];
    [range] of a negative number is empty. *)
Fixpoint run_iterations (n fuel : nat) (t : node_id) (battle_state : State)
  : M unit :=
  match n with
  | O => ret tt
  | S n' =>
      let* sample_state := clone battle_state in
      let* _ := step fuel t sample_state in
      run_iterations n' fuel t battle_state
  end.

Definition choose_card (self : MCTSAgent) (fuel : nat)
    (game_state : GameState) (battle_state : State) : M Card :=
  match get_actions battle_state with
  | [a] => ret (to_action a battle_state)
  | _ =>
      let* t := new_node (agent_param self) None None in
      let* _ :=
        run_iterations (Z.to_nat (iterations self)) fuel t battle_state in
      let* best_action := get_best t battle_state in
      let* _ := if verbose self then print_tree t else ret tt in
      match best_action with
      | None =>
          let* _ :=
            emit (EvWarning "WARNING: MCTS did not return any action") in
          random_choice (get_choose_card_options game_state battle_state)
      | Some a => ret (to_action a battle_state)
      end
  end.

(** *** The shape of a tree in the heap *)

(** The constructor takes the parent as an argument, so a parent is
    always built before its child. *)
Definition wf_parents (h : list TreeNode) : Prop :=
  forall i nd p, h !! i = Some nd -> parent nd = Some p -> (p < i)%nat.

(** The node, its parent, the parent's parent, ... *)
Fixpoint ancestors (depth : nat) (h : list TreeNode) (n : node_id)
  : list node_id :=
  match depth with
  | O => []
  | S depth' =>
      match h !! n with
      | None => []
      | Some nd =>
          n :: match parent nd with
               | Some p => ancestors depth' h p
               | None => []
               end
      end
  end.

Definition path_to_root (h : list TreeNode) (n : node_id) : list node_id :=
  ancestors (length h) h n.

Definition child_ids (nd : TreeNode) : list node_id := (children nd).*2.*2.

Definition visits_at (h : list TreeNode) (n : node_id) : Z :=
  match h !! n with Some nd => visits nd | None => 0 end.

(** The sum of [visits] over the direct children of node [n]. *)
Definition children_visits (h : list TreeNode) (n : node_id) : Z :=
  match h !! n with
  | Some nd => foldr Z.add 0 (visits_at h <$> child_ids nd)
  | None => 0
  end.

(** The heap holds trees: the children a node lists are the nodes that
    name it as their parent, each listed once. *)
Record tree_shape (h : list TreeNode) : Prop := mkShape {
  shape_parents : wf_parents h;
  shape_children :
    forall n nd c, h !! n = Some nd -> c ∈ child_ids nd ->
      exists cd, h !! c = Some cd /\ parent cd = Some n;
  shape_listed :
    forall c cd p, h !! c = Some cd -> parent cd = Some p ->
      exists nd, h !! p = Some nd /\ c ∈ child_ids nd;
  shape_nodup : forall n nd, h !! n = Some nd -> NoDup (child_ids nd)
}.

(** The heap after [expand] built a child of node [p] for action [a]. *)
Definition attach (h : list TreeNode) (p : node_id) (nd : TreeNode)
    (a : Action) : list TreeNode :=
  <[p := add_child (key a) a (length h) nd]>
    (h ++ [mkNode [] (Some p) (Some a) (param nd) 0 0%float]).

(** [h'] is [h] after one backpropagation of [r] along [path]. *)
Definition bumped (h h' : list TreeNode) (path : list node_id) (r : float)
  : Prop :=
  length h' = length h
  /\ forall i,
       h' !! i = if bool_decide (i ∈ path) then record_result r <$> h !! i
                 else h !! i.

(** What [select] does to the heap [h] before it backpropagates from node
    [b]: nothing, when [b] is evaluated as a leaf, or one new node [b]
    under a node [p] that had no child for the action. *)
Definition grown (h h1 : list TreeNode) (b : node_id) (evs : list event)
  : Prop :=
  (h1 = h /\ evs = [EvLeaf b])
  \/ (exists p nd a,
        h !! p = Some nd /\ dict_mem (key a) (children nd) = false
        /\ h1 = attach h p nd a /\ b = length h
        /\ evs = [EvRollout b; EvNewNode b]).

(** How many of the nodes [ids] lie on [path]. *)
Definition hits (path ids : list node_id) : Z :=
  foldr Z.add 0 ((fun c => if bool_decide (c ∈ path) then 1 else 0) <$> ids).

(** *** What the search keeps true of its tree *)

(** Every entry of a children dictionary is filed under the key of its
    action, and that action is the one recorded in the child. *)
Definition keyed (h : list TreeNode) : Prop :=
  forall n nd k a c, h !! n = Some nd -> (k, (a, c)) ∈ children nd ->
    k = key a /\ exists cd, h !! c = Some cd /\ action cd = Some a.

(** Every node carries the exploration parameter [c0]. *)
Definition same_param (c0 : float) (h : list TreeNode) : Prop :=
  forall n nd, h !! n = Some nd -> param nd = c0.

(** No node was visited more than [K] times; a node with a parent was
    visited at least once and not more often than its parent. *)
Definition counted (K : Z) (h : list TreeNode) : Prop :=
  forall n nd, h !! n = Some nd ->
    0 <= visits nd <= K
    /\ forall p, parent nd = Some p ->
         1 <= visits nd <= visits_at h p.

Record searched (c0 : float) (K : Z) (h : list TreeNode) : Prop :=
  mkSearched {
  searched_shape : tree_shape h;
  searched_keyed : keyed h;
  searched_param : same_param c0 h;
  searched_counted : counted K h
}.

(** Every node of the heap is node [t] or lies below it. *)
Definition rooted (t : node_id) (h : list TreeNode) : Prop :=
  forall i, (i < length h)%nat -> t ∈ path_to_root h i.

(** The visits of every node are the visits of its children plus the
    evaluations backpropagated from the node itself. *)
Definition conserved (h : list TreeNode) (tr : list event) : Prop :=
  forall t nd, h !! t = Some nd ->
    visits nd = children_visits h t + count (starts_at t) tr.

(** *** Plays of the game *)

(** Whatever is played from [s], within [n] moves the state has ended or
    has no action left. *)
Fixpoint settles (n : nat) (s : State) : bool :=
  ended s
  || match get_actions s with
     | [] => true
     | actions =>
         match n with
         | O => false
         | S n' => forallb (fun a => settles n' (state_step s a)) actions
         end
     end.

(** [acts] can be played from [s]: each action is legal when it is played
    and the battle has not ended before it. *)
Fixpoint legal_play (s : State) (acts : list Action) : Prop :=
  match acts with
  | [] => True
  | a :: rest =>
      ended s = false /\ a ∈ get_actions s /\ legal_play (state_step s a) rest
  end.

Definition play (s : State) (acts : list Action) : State :=
  fold_left state_step acts s.

(** No play from [s] ever ends or runs out of actions. *)
Definition endless (s : State) : Prop :=
  forall acts, legal_play s acts ->
    ended (play s acts) = false /\ get_actions (play s acts) <> [].

(** [m'] is [m] after more events, none of them a warning. *)
Definition quiet (m m' : Machine) : Prop :=
  exists evs,
    trace m' = evs ++ trace m /\ Forall (fun e => is_warning e = false) evs.

(** Every normal run of [c] is quiet. *)
Definition silent {A} (c : M A) : Prop :=
  forall m a m', c m = Ok (a, m') -> quiet m m'.

End MCTS.

Arguments mkNode {Action Key} _ _ _ _ _ _.
Arguments mkMachine {Action Key} _ _ _.

(** ** A small card game to run the search on *)

Module Toy.

(** A battle of [limit] turns: the cards in [hand] can be played, except
    the cards numbered 0, and each adds its number to [pts]; a copy
    redraws the hand from hand and draw pile together. *)
Record state : Type := mkState {
  hand : list nat;
  deck : list nat;
  turn : nat;
  pts : Z;
  hp : float
}.

Definition limit : nat := 3.

Definition legal (s : state) : list nat :=
  if (turn s <? limit)%nat then filter (fun c => c <> 0%nat) (hand s) else [].

Definition play_card (s : state) (a : nat) : state :=
  mkState (hand s) (deck s) (S (turn s)) (pts s + Z.of_nat a) (hp s).

Definition redraw (s : state) (r : list nat) : state * list nat :=
  match r with
  | [] => (s, [])
  | d :: r' =>
      let cards := rotate d (hand s ++ deck s) in
      (mkState (take (length (hand s)) cards) (drop (length (hand s)) cards)
               (turn s) (pts s) (hp s), r')
  end.

Definition points (s : state) : float :=
  if pts s <? 0 then (- PrimFloat.of_uint63 (Uint63.of_Z (- pts s)))%float
  else PrimFloat.of_uint63 (Uint63.of_Z (pts s)).

#[export] Instance api : BattleAPI state nat nat nat unit := {|
  get_actions := legal;
  state_step := play_card;
  ended := fun s => (limit <=? turn s)%nat;
  state_score := points;
  state_health := hp;
  copy_undeterministic := redraw;
  key := fun a => a;
  to_action := fun a _ => a;
  get_choose_card_options := fun _ s => legal s
|}.

(** A stand-in for [math.log]: ln 2 times the binary logarithm rounded
    down. *)
Definition log_approx (p : Z) : float :=
  (0x1.62e42fefa39efp-1 * PrimFloat.of_uint63 (Uint63.of_Z (Z.log2 p)))%float.

Definition agent (n : Z) : MCTSAgent := mkAgent n false 0.5%float.

Definition start (h d : list nat) : state := mkState h d 0 0 1%float.

(** The chain root -> A -> B, nothing recorded yet. *)
Definition chain : Machine (Action := nat) (Key := nat) :=
  mkMachine
    [ mkNode [(1, (1, 1))]%nat None None 0.5%float 0 0%float;
      mkNode [(2, (2, 2))]%nat (Some 0%nat) (Some 1%nat) 0.5%float 0 0%float;
      mkNode [] (Some 1%nat) (Some 2%nat) 0.5%float 0 0%float ]
    [] [].

(** A child visited three times (card 1), a child never visited (card 2),
    and their parent. *)
Definition visited : TreeNode (Action := nat) (Key := nat) :=
  mkNode [] (Some 0%nat) (Some 1%nat) 0.5%float 3 9%float.

Definition unvisited : TreeNode (Action := nat) (Key := nat) :=
  mkNode [] (Some 0%nat) (Some 2%nat) 0.5%float 0 0%float.

Definition family_root : TreeNode (Action := nat) (Key := nat) :=
  mkNode [(1, (1, 1)); (2, (2, 2))]%nat None None 0.5%float 3 9%float.

Definition family : Machine (Action := nat) (Key := nat) :=
  mkMachine [family_root; visited; unvisited] [] [].

(** States that differ in health only, and two that agree on score and
    health but on nothing else. *)
Definition scored (p : Z) (h : float) : state := mkState [] [] 0 p h.

Definition early : state := mkState [1]%nat [] 0 5 0.5%float.

Definition late : state := mkState [2; 3]%nat [4]%nat 1 5 0.5%float.

(** A root alone in the heap. *)
Definition lone (r : list nat) : Machine (Action := nat) (Key := nat) :=
  mkMachine [mkNode [] None None 0.5%float 0 0%float] r [].

(** A root whose only recorded child, for card 5, was expanded from an
    earlier copy of the state. *)
Definition stale : Machine (Action := nat) (Key := nat) :=
  mkMachine
    [ mkNode [(5, (5, 1))]%nat None None 0.5%float 1 15%float;
      mkNode [] (Some 0%nat) (Some 5%nat) 0.5%float 1 15%float ]
    [] [].

Definition boot (r : list nat) : Machine (Action := nat) (Key := nat) :=
  mkMachine [] r [].

End Toy.

(** ** A game that never ends *)

Module Loop.

#[export] Instance api : BattleAPI unit nat nat nat unit := {|
  get_actions := fun _ => [0%nat];
  state_step := fun s _ => s;
  ended := fun _ => false;
  state_score := fun _ => 1%float;
  state_health := fun _ => 1%float;
  copy_undeterministic := fun s r => (s, r);
  key := fun a => a;
  to_action := fun a _ => a;
  get_choose_card_options := fun _ _ => [0%nat]
|}.

End Loop.

(** * Properties *)

(** ** Order and sign of binary64 numbers *)

Lemma ltb_infinity_top (k : float) : (k <? infinity)%float = false -> top k.
Proof.
  intros Hk x. revert Hk. rewrite !ltb_spec.
  change (Prim2SF infinity) with (S754_infinity false). unfold SFltb.
  destruct (Prim2SF k) as [[]|[]| |[] ? ?], (Prim2SF x) as [[]|[]| |[] ? ?];
    simpl; congruence.
Qed.

Lemma infinity_top : top infinity.
Proof. apply ltb_infinity_top. reflexivity. Qed.

Lemma top_not_finite (k : float) : top k -> is_finite k = false.
Proof.
  intros Hk. unfold is_finite. rewrite (Hk infinity). apply andb_false_r.
Qed.

Lemma SFltb_trans (x y z : spec_float) :
  SFltb x y = true -> SFltb y z = true -> SFltb x z = true.
Proof.
  unfold SFltb, SFcompare.
  destruct x as [[]|[]| |[] mx ex], y as [[]|[]| |[] my ey],
           z as [[]|[]| |[] mz ez]; simpl; try congruence.
  all: change (PosDef.Pos.compare_cont Eq) with Pos.compare.
  all: destruct (Z.compare_spec ex ey), (Z.compare_spec ey ez),
         (Z.compare_spec ex ez); simpl; try congruence; try lia.
  all: subst.
  all: destruct (Pos.compare_spec mx my), (Pos.compare_spec my mz),
         (Pos.compare_spec mx mz); simpl; try congruence; try lia.
Qed.

Lemma ltb_trans (x y z : float) :
  (x <? y)%float = true -> (y <? z)%float = true -> (x <? z)%float = true.
Proof. rewrite !ltb_spec. apply SFltb_trans. Qed.

Lemma ltb_irrefl (x : float) : (x <? x)%float = false.
Proof.
  rewrite ltb_spec. unfold SFltb, SFcompare.
  destruct (Prim2SF x) as [[]|[]| |[] mx ex]; simpl; try done.
  all: rewrite Z.compare_refl.
  all: change (PosDef.Pos.compare_cont Eq) with Pos.compare.
  all: rewrite Pos.compare_refl; done.
Qed.

Lemma binary_round_aux_pos (mx ex : Z) (lx : location) :
  pos_or_nan (binary_round_aux prec emax false mx ex lx) = true.
Proof.
  unfold binary_round_aux.
  destruct (shr_fexp prec emax mx ex lx) as [mrs' e'].
  destruct (shr_fexp prec emax _ e' loc_Exact) as [mrs'' e''].
  destruct (shr_m mrs''); [done| |done].
  destruct (e'' <=? emax - prec); done.
Qed.

Lemma binary_normalize_pos (n : Z) :
  0 <= n -> pos_or_nan (binary_normalize prec emax n 0 false) = true.
Proof.
  intros Hn. destruct n as [|q|q]; [done| |lia].
  unfold binary_normalize, binary_round.
  destruct (shl_align _ _ _) as [mz ez].
  apply binary_round_aux_pos.
Qed.

Lemma SFltb_zero_pos (z : spec_float) :
  pos_or_nan z = true -> SFltb z (S754_zero false) = false.
Proof. destruct z as [[]|[]| |[] ? ?]; done. Qed.

Lemma SFdiv_not_neg (x y : spec_float) :
  SFltb x (S754_zero false) = false -> pos_or_nan y = true ->
  SFltb (SFdiv prec emax x y) (S754_zero false) = false.
Proof.
  intros Hx Hy.
  destruct x as [[]|[]| |[] mx ex], y as [[]|[]| |[] my ey];
    simpl in *; try done.
  destruct (SFdiv_core_binary _ _ _ _ _ _) as [[mz ez] lz].
  apply SFltb_zero_pos, binary_round_aux_pos.
Qed.

(** A float that is not negative, divided by a count, is not negative. *)
Lemma div_not_neg (x : float) (n : Z) :
  (x <? 0)%float = false ->
  (x / of_uint63 (Uint63.of_Z n) <? 0)%float = false.
Proof.
  intros Hx. rewrite ltb_spec in *. rewrite div_spec, of_uint63_spec.
  change (Prim2SF 0) with (S754_zero false) in *.
  apply SFdiv_not_neg; [done|]. apply binary_normalize_pos.
  rewrite Uint63.of_Z_spec. apply Z.mod_pos_bound. done.
Qed.

Lemma SFmul_not_neg (x y : spec_float) :
  SFltb x (S754_zero false) = false -> pos_or_nan y = true ->
  SFltb (SFmul prec emax x y) (S754_zero false) = false.
Proof.
  intros Hx Hy.
  destruct x as [[]|[]| |[] mx ex], y as [[]|[]| |[] my ey];
    simpl in *; try done.
  apply SFltb_zero_pos, binary_round_aux_pos.
Qed.

(** A float that is not negative, times a count, is not negative. *)
Lemma mul_not_neg (x : float) (n : Z) :
  (x <? 0)%float = false ->
  (x * of_uint63 (Uint63.of_Z n) <? 0)%float = false.
Proof.
  intros Hx. rewrite ltb_spec in *. rewrite mul_spec, of_uint63_spec.
  change (Prim2SF 0) with (S754_zero false) in *.
  apply SFmul_not_neg; [done|]. apply binary_normalize_pos.
  rewrite Uint63.of_Z_spec. apply Z.mod_pos_bound. done.
Qed.

Lemma float_of_int_small (n : Z) :
  0 <= n < 2 ^ 63 -> float_of_int n = Ok (of_uint63 (Uint63.of_Z n)).
Proof.
  intros Hn. unfold float_of_int.
  destruct (Z.leb_spec 0 n); [|lia]. destruct (Z.ltb_spec n (2 ^ 63)); [|lia].
  done.
Qed.

Lemma max_loop_top {A} (x : A) (k : float) (l : list (A * float)) :
  top k -> max_loop x k l = x.
Proof.
  intros Hk. induction l as [|[y ky] l IH]; simpl; [done|].
  rewrite (Hk ky). exact IH.
Qed.

(** Once an item with key [+infinity] is among them, the item [max]
    returns has a key no float is above. *)
Lemma max_loop_infinity {A} (x : A) (k : float) (l : list (A * float)) (z : A) :
  (z, infinity) ∈ (x, k) :: l ->
  exists kb, (max_loop x k l, kb) ∈ (x, k) :: l /\ top kb.
Proof.
  revert x k. induction l as [|[y ky] l IH]; intros x k Hin.
  - apply list_elem_of_singleton in Hin. injection Hin as <- <-.
    exists infinity. split; [apply list_elem_of_here|apply infinity_top].
  - simpl. apply elem_of_cons in Hin as [Heq|Hin].
    { injection Heq as <- <-. rewrite (infinity_top ky).
      rewrite max_loop_top by apply infinity_top.
      exists infinity. split; [apply list_elem_of_here|apply infinity_top]. }
    destruct (k <? ky)%float eqn:Hlt.
    + destruct (IH y ky Hin) as (kb & Hb & Htop).
      exists kb. split; [by apply list_elem_of_further|done].
    + apply elem_of_cons in Hin as [Heq|Hin].
      * injection Heq as <- <-.
        pose proof (ltb_infinity_top k Hlt) as Htop.
        rewrite max_loop_top by done.
        exists k. split; [apply list_elem_of_here|done].
      * destruct (IH x k) as (kb & Hb & Htop).
        { by apply list_elem_of_further. }
        exists kb. split; [|done].
        apply elem_of_cons in Hb as [Hb|Hb].
        -- rewrite Hb. apply list_elem_of_here.
        -- by do 2 apply list_elem_of_further.
Qed.

Lemma max_loop_elem {A} (x : A) (k : float) (l : list (A * float)) :
  max_loop x k l = x \/ max_loop x k l ∈ l.*1.
Proof.
  revert x k. induction l as [|[y ky] l IH]; intros x k; simpl; [by left|].
  destruct (k <? ky)%float.
  - right. destruct (IH y ky) as [->|Hin].
    + apply list_elem_of_here.
    + by apply list_elem_of_further.
  - destruct (IH x k) as [->|Hin]; [by left|right].
    by apply list_elem_of_further.
Qed.

Lemma py_max_elem {A} (l : list (A * float)) (x : A) :
  py_max l = Ok x -> x ∈ l.*1.
Proof.
  destruct l as [|[y ky] l]; simpl; [discriminate|]. intros [= <-].
  destruct (max_loop_elem y ky l) as [->|Hin].
  - apply list_elem_of_here.
  - by apply list_elem_of_further.
Qed.

(** The item [max] returns is the first one or has a greater key than
    the first, and no item has a key strictly greater than its key. *)
Lemma max_loop_maximal {A} (x : A) (k : float) (l : list (A * float)) :
  exists kb,
    (max_loop x k l, kb) ∈ (x, k) :: l
    /\ (kb = k \/ (k <? kb)%float = true)
    /\ forall y ky, (y, ky) ∈ l -> (kb <? ky)%float = false.
Proof.
  revert x k. induction l as [|[y ky] l IH]; intros x k; simpl.
  - exists k. split; [apply list_elem_of_here|]. split; [by left|].
    intros y ky Hin. inversion Hin.
  - destruct (k <? ky)%float eqn:Hlt.
    + destruct (IH y ky) as (kb & Hin & Hky & Hall).
      exists kb. split; [by apply list_elem_of_further|]. split.
      * right. destruct Hky as [->|Hky]; [done|]. by eapply ltb_trans.
      * intros y' ky' [Heq|Hin']%elem_of_cons; [|by eapply Hall].
        injection Heq as -> ->. destruct Hky as [->|Hky].
        -- apply ltb_irrefl.
        -- destruct (kb <? ky)%float eqn:Hb; [|done].
           pose proof (ltb_trans ky kb ky Hky Hb) as Hcyc.
           by rewrite ltb_irrefl in Hcyc.
    + destruct (IH x k) as (kb & Hin & Hk & Hall).
      exists kb. split.
      { apply elem_of_cons in Hin as [->|Hin]; [apply list_elem_of_here|].
        by do 2 apply list_elem_of_further. }
      split; [done|].
      intros y' ky' [Heq|Hin']%elem_of_cons; [|by eapply Hall].
      injection Heq as -> ->. destruct Hk as [->|Hk]; [done|].
      destruct (kb <? ky)%float eqn:Hb; [|done].
      pose proof (ltb_trans k kb ky Hk Hb) as Hcyc. congruence.
Qed.

Lemma py_max_maximal {A} (l : list (A * float)) (b : A) :
  py_max l = Ok b ->
  exists kb,
    (b, kb) ∈ l /\ forall y ky, (y, ky) ∈ l -> (kb <? ky)%float = false.
Proof.
  destruct l as [|[x k] l]; [discriminate|]. simpl. intros [= <-].
  destruct (max_loop_maximal x k l) as (kb & Hin & Hk & Hall).
  exists kb. split; [done|].
  intros y ky [Heq|Hin']%elem_of_cons; [|by eapply Hall].
  injection Heq as -> ->. destruct Hk as [->|Hk]; [apply ltb_irrefl|].
  destruct (kb <? k)%float eqn:Hb; [|done].
  pose proof (ltb_trans k kb k Hk Hb) as Hcyc. by rewrite ltb_irrefl in Hcyc.
Qed.

Lemma py_max_infinity {A} (l : list (A * float)) (b z : A) :
  py_max l = Ok b -> (z, infinity) ∈ l -> exists kb, (b, kb) ∈ l /\ top kb.
Proof.
  destruct l as [|[x k] l]; [discriminate|]. simpl. intros [= <-] Hin.
  by eapply max_loop_infinity.
Qed.

(** ** Dictionaries *)

Section DictFacts.
Context {K V : Type} `{EqDecision K}.

Lemma dict_mem_true (k : K) (d : list (K * V)) :
  dict_mem k d = true <-> k ∈ d.*1.
Proof.
  unfold dict_mem. induction d as [|[k' v] d IH]; simpl.
  - split; [done|]. intros Hin. inversion Hin.
  - destruct (decide (k = k')) as [->|Hne].
    + split; [intros _; apply list_elem_of_here|done].
    + rewrite IH. split; [apply list_elem_of_further|].
      intros [?|?]%elem_of_cons; done.
Qed.

Lemma dict_mem_false (k : K) (d : list (K * V)) :
  dict_mem k d = false <-> k ∉ d.*1.
Proof.
  rewrite <- dict_mem_true. destruct (dict_mem k d); split; congruence.
Qed.

Lemma dict_set_fresh (k : K) (v : V) (d : list (K * V)) :
  dict_mem k d = false -> dict_set k v d = d ++ [(k, v)].
Proof.
  unfold dict_mem. induction d as [|[k' v'] d IH]; simpl; [done|].
  destruct (decide (k = k')); [done|]. intros Hd. by rewrite IH.
Qed.

Lemma dict_mem_set (k k' : K) (v : V) (d : list (K * V)) :
  dict_mem k (dict_set k' v d) = true <-> k = k' \/ dict_mem k d = true.
Proof.
  induction d as [|[k0 v0] d IH]; simpl.
  - unfold dict_mem. simpl. destruct (decide (k = k')); split; auto.
    intros [?|?]; done.
  - destruct (decide (k' = k0)) as [->|Hne]; unfold dict_mem in *; simpl.
    + destruct (decide (k = k0)); split; auto. intros [?|?]; done.
    + destruct (decide (k = k0)) as [->|Hne']; [split; auto|].
      exact IH.
Qed.

End DictFacts.

Section Proofs.
Context {State Action Key Card GameState : Type}.
Context `{EqDecision Key}.
Context `{API : BattleAPI State Action Key Card GameState}.
Variable math_log : Z -> float.

Abbreviation TreeNode := (TreeNode (Action := Action) (Key := Key)).
Abbreviation Machine := (Machine (Action := Action) (Key := Key)).
Abbreviation silent := (silent (Action := Action) (Key := Key)).

(** ** Runs that print no warning *)

Lemma quiet_refl (m : Machine) : quiet m m.
Proof. exists []. split; [done|constructor]. Qed.

Lemma quiet_trans (m1 m2 m3 : Machine) :
  quiet m1 m2 -> quiet m2 m3 -> quiet m1 m3.
Proof.
  intros (e1 & H1 & F1) (e2 & H2 & F2). exists (e2 ++ e1). split.
  - rewrite H2, H1, app_assoc. done.
  - apply Forall_app. done.
Qed.

Lemma quiet_same_trace (m m' : Machine) : trace m' = trace m -> quiet m m'.
Proof. intros Ht. exists []. split; [done|constructor]. Qed.

Lemma quiet_event (m m' : Machine) (e : event) :
  trace m' = e :: trace m -> is_warning e = false -> quiet m m'.
Proof. intros Ht He. exists [e]. split; [done|]. by constructor. Qed.

Lemma silent_ret {A} (a : A) : silent (ret a).
Proof. intros m a' m' [= _ <-]. apply quiet_refl. Qed.

Lemma silent_raise {A} (e : exn) : silent (raise (A := A) e).
Proof. intros m a m' Hrun. discriminate. Qed.

Lemma silent_lift {A} (r : result A) : silent (lift r).
Proof.
  intros m a m' Hrun. unfold lift, rbind in Hrun.
  destruct r; inversion Hrun; subst. apply quiet_refl.
Qed.

Lemma silent_bind {A B} (c : M A) (k : A -> M B) :
  silent c -> (forall a, silent (k a)) -> silent (bind c k).
Proof.
  intros Hc Hk m b m' Hrun. unfold bind in Hrun.
  destruct (c m) as [[a m1]| |] eqn:Hcm; try discriminate.
  eapply quiet_trans; [eapply Hc|eapply Hk]; eauto.
Qed.

Lemma silent_emit (e : event) : is_warning e = false -> silent (emit e).
Proof. intros He m a m' [= _ <-]. by eapply quiet_event. Qed.

Lemma silent_get_node (n : node_id) : silent (get_node n).
Proof.
  intros m a m' Hrun. unfold get_node in Hrun.
  destruct (heap m !! n); inversion Hrun; subst. apply quiet_refl.
Qed.

Lemma silent_set_node (n : node_id) (nd : TreeNode) : silent (set_node n nd).
Proof. intros m a m' [= _ <-]. by apply quiet_same_trace. Qed.

Lemma silent_random_choice {A} (l : list A) : silent (random_choice l).
Proof.
  intros m a m' Hrun. unfold random_choice in Hrun.
  destruct (l !! _); inversion Hrun; subst. by apply quiet_same_trace.
Qed.

Lemma silent_new_node (c : float) (p : option node_id) (a : option Action) :
  silent (new_node c p a).
Proof. intros m n m' [= _ <-]. by eapply quiet_event. Qed.

Lemma silent_clone (s : State) : silent (clone s).
Proof.
  intros m a m' Hrun. unfold clone in Hrun.
  destruct (copy_undeterministic s (rng m)). inversion Hrun; subst.
  by eapply quiet_event.
Qed.

Lemma silent_mapM {A B} (f : A -> M B) (l : list A) :
  (forall x, silent (f x)) -> silent (mapM f l).
Proof.
  intros Hf. induction l as [|x l IH]; simpl.
  - apply silent_ret.
  - apply silent_bind; [apply Hf|]. intros y.
    apply silent_bind; [apply IH|]. intros ys. apply silent_ret.
Qed.

Lemma silent_backpropagate_rec (d : nat) (n : node_id) (r : float) :
  silent (backpropagate_rec d n r).
Proof.
  revert n. induction d as [|d IH]; intros n; simpl.
  - apply silent_raise.
  - apply silent_bind; [apply silent_get_node|]. intros nd.
    apply silent_bind; [apply silent_set_node|]. intros _.
    destruct (parent nd); [apply IH|apply silent_ret].
Qed.

Lemma silent_backpropagate (n : node_id) (r : float) :
  silent (backpropagate n r).
Proof. intros m a m' Hrun. eapply silent_backpropagate_rec, Hrun. Qed.

Lemma silent_rollout_loop (fuel : nat) (s : State) :
  silent (rollout_loop fuel s).
Proof.
  revert s. induction fuel as [|fuel IH]; intros s; simpl.
  - intros m a m' Hrun. discriminate.
  - destruct (ended s); [apply silent_ret|].
    destruct (get_actions s) as [|a l]; [apply silent_ret|].
    apply silent_bind; [apply silent_random_choice|]. intros a'. apply IH.
Qed.

Lemma silent_rollout (fuel : nat) (n : node_id) (s : State) :
  silent (rollout fuel n s).
Proof.
  unfold rollout. apply silent_bind; [by apply silent_emit|]. intros _.
  apply silent_bind; [apply silent_rollout_loop|]. intros s'.
  apply silent_backpropagate.
Qed.

Lemma silent_leaf (n : node_id) (s : State) : silent (leaf n s).
Proof.
  unfold leaf. apply silent_bind; [by apply silent_emit|]. intros _.
  apply silent_backpropagate.
Qed.

Lemma silent_expand (fuel : nat) (n : node_id) (s : State)
    (available : list Action) :
  silent (expand fuel n s available).
Proof.
  unfold expand. apply silent_bind; [apply silent_random_choice|]. intros a.
  apply silent_bind; [apply silent_get_node|]. intros nd.
  apply silent_bind; [apply silent_new_node|]. intros c.
  apply silent_bind; [apply silent_set_node|]. intros _.
  apply silent_rollout.
Qed.

Lemma silent_best_child (nd : TreeNode) (valid : list (Key * Action)) :
  silent (best_child math_log nd valid).
Proof.
  unfold best_child. apply silent_bind; [|intros keyed; apply silent_lift].
  apply silent_mapM. intros kv. unfold ucb_keyed.
  apply silent_bind; [apply silent_get_node|]. intros cn.
  apply silent_bind; [apply silent_lift|]. intros u. apply silent_ret.
Qed.

Lemma silent_select (depth fuel : nat) (n : node_id) (s : State) :
  silent (select math_log depth fuel n s).
Proof.
  revert n s. induction depth as [|depth IH]; intros n s; simpl.
  - apply silent_raise.
  - destruct (get_actions s) as [|a0 l0]; [apply silent_leaf|].
    apply silent_bind; [apply silent_get_node|]. intros nd.
    destruct (unexplored_of nd (a0 :: l0)); [|apply silent_expand].
    destruct (children nd); [apply silent_leaf|].
    apply silent_bind; [apply silent_best_child|]. intros best.
    destruct (dict_get _ _); [apply IH|apply silent_raise].
Qed.

Lemma silent_step (fuel : nat) (n : node_id) (s : State) :
  silent (step math_log fuel n s).
Proof.
  unfold step. apply silent_bind; [apply silent_clone|]. intros s'.
  intros m a m' Hrun. eapply silent_select, Hrun.
Qed.

Lemma silent_run_iterations (k fuel : nat) (t : node_id) (s : State) :
  silent (run_iterations math_log k fuel t s).
Proof.
  induction k as [|k IH]; simpl.
  - apply silent_ret.
  - apply silent_bind; [apply silent_clone|]. intros s'.
    apply silent_bind; [apply silent_step|]. intros _. apply IH.
Qed.

Lemma silent_get_best (t : node_id) (s : State) : silent (get_best t s).
Proof.
  unfold get_best. apply silent_bind; [apply silent_get_node|]. intros nd.
  destruct (children nd).
  - apply silent_bind; [apply silent_random_choice|]. intros a.
    apply silent_ret.
  - apply silent_bind.
    { apply silent_mapM. intros kv. unfold avg_keyed.
      apply silent_bind; [apply silent_get_node|]. intros cn.
      apply silent_bind; [apply silent_lift|]. intros u. apply silent_ret. }
    intros keyed. apply silent_bind; [apply silent_lift|]. intros best.
    apply silent_ret.
Qed.

(** ** Backpropagation *)

Lemma ancestors_le (d : nat) (h : list TreeNode) (n j : node_id) :
  wf_parents h -> j ∈ ancestors d h n -> (j <= n)%nat.
Proof.
  intros Hwf. revert n. induction d as [|d IH]; intros n Hin; simpl in Hin.
  - inversion Hin.
  - destruct (h !! n) as [nd|] eqn:Hn; [|inversion Hin].
    apply elem_of_cons in Hin as [->|Hin]; [lia|].
    destruct (parent nd) as [p|] eqn:Hp; [|inversion Hin].
    specialize (Hwf n nd p Hn Hp). specialize (IH p Hin). lia.
Qed.

Lemma ancestors_insert (d : nat) (h : list TreeNode) (n p : node_id)
    (x : TreeNode) :
  wf_parents h -> (p < n)%nat ->
  ancestors d (<[n := x]> h) p = ancestors d h p.
Proof.
  intros Hwf. revert p. induction d as [|d IH]; intros p Hlt; simpl.
  { done. }
  rewrite list_lookup_insert_ne by lia.
  destruct (h !! p) as [nd|] eqn:Hp; [|done].
  destruct (parent nd) as [q|] eqn:Hq; [|done].
  specialize (Hwf p nd q Hp Hq). rewrite IH by lia. done.
Qed.

Lemma wf_parents_insert (h : list TreeNode) (n : node_id) (nd x : TreeNode) :
  wf_parents h -> h !! n = Some nd -> parent x = parent nd ->
  wf_parents (<[n := x]> h).
Proof.
  intros Hwf Hn Hpar i nd' p Hi Hp.
  apply list_lookup_insert_Some in Hi as [(-> & <- & _)|(_ & Hi)].
  - rewrite Hpar in Hp. eauto.
  - eauto.
Qed.

(** What a run of [backpropagate_rec] does to every node of the heap. *)
Lemma backpropagate_rec_spec (d : nat) (n : node_id) (r : float)
    (m : Machine) :
  wf_parents (heap m) -> (n < d)%nat -> (n < length (heap m))%nat ->
  exists h',
    backpropagate_rec d n r m = Ok (tt, mkMachine h' (rng m) (trace m))
    /\ length h' = length (heap m)
    /\ forall i,
         h' !! i =
         if bool_decide (i ∈ ancestors d (heap m) n)
         then record_result r <$> heap m !! i
         else heap m !! i.
Proof.
  revert n m. induction d as [|d IH]; intros n [h rg tr] Hwf Hd Hn; [lia|].
  simpl in *.
  destruct (lookup_lt_is_Some_2 h n Hn) as [nd Hnd].
  unfold bind, get_node, set_node; simpl. rewrite Hnd.
  assert (Hwf' : wf_parents (<[n := record_result r nd]> h))
    by (eapply wf_parents_insert; eauto).
  destruct (parent nd) as [p|] eqn:Hp.
  - pose proof (Hwf n nd p Hnd Hp) as Hlt.
    destruct (IH p (mkMachine (<[n := record_result r nd]> h) rg tr))
      as (h' & Hrun & Hlen & Hlook); simpl; auto; try lia.
    { rewrite length_insert. lia. }
    simpl in *. exists h'. split; [exact Hrun|]. split.
    { rewrite Hlen, length_insert. done. }
    intros i. rewrite Hlook, ancestors_insert by (auto; lia).
    destruct (decide (i = n)) as [->|Hne].
    + rewrite bool_decide_eq_false_2.
      2:{ intros Hin. apply ancestors_le in Hin; auto. lia. }
      rewrite bool_decide_eq_true_2 by apply list_elem_of_here.
      rewrite list_lookup_insert_eq, Hnd by done. done.
    + rewrite list_lookup_insert_ne by done.
      destruct (decide (i ∈ ancestors d h p)).
      * rewrite !bool_decide_eq_true_2; auto. by apply list_elem_of_further.
      * rewrite !bool_decide_eq_false_2; auto.
        intros [?|?]%elem_of_cons; done.
  - exists (<[n := record_result r nd]> h). unfold ret. split; [done|].
    split; [apply length_insert|]. intros i.
    destruct (decide (i = n)) as [->|Hne].
    + rewrite bool_decide_eq_true_2 by apply list_elem_of_here.
      rewrite list_lookup_insert_eq, Hnd by done. done.
    + rewrite list_lookup_insert_ne by done.
      rewrite bool_decide_eq_false_2; [done|].
      intros [?|Hin]%elem_of_cons; [done|inversion Hin].
Qed.

Lemma ancestors_head (d : nat) (h : list TreeNode) (n : node_id) :
  (n < length h)%nat -> n ∈ ancestors (S d) h n.
Proof.
  intros Hn. simpl. destruct (lookup_lt_is_Some_2 h n Hn) as [nd ->].
  apply list_elem_of_here.
Qed.

Lemma ancestors_last (d : nat) (h : list TreeNode) (n : node_id) :
  wf_parents h -> (n < d)%nat -> (n < length h)%nat ->
  exists root rd,
    last (ancestors d h n) = Some root /\ h !! root = Some rd
    /\ parent rd = None.
Proof.
  intros Hwf. revert n. induction d as [|d IH]; intros n Hd Hn; [lia|].
  simpl. destruct (lookup_lt_is_Some_2 h n Hn) as [nd Hnd]. rewrite Hnd.
  destruct (parent nd) as [p|] eqn:Hp.
  - pose proof (Hwf n nd p Hnd Hp) as Hlt.
    destruct (IH p) as (root & rd & Hlast & Hroot & Hnone); try lia.
    exists root, rd. split; [|done].
    destruct (ancestors d h p) as [|x l] eqn:Hanc; [done|].
    rewrite last_cons, Hlast. done.
  - exists n, nd. done.
Qed.

Lemma ancestors_parent (d : nat) (h : list TreeNode) (n i p : node_id)
    (nd : TreeNode) :
  wf_parents h -> (n < d)%nat -> (n < length h)%nat ->
  i ∈ ancestors d h n -> h !! i = Some nd -> parent nd = Some p ->
  p ∈ ancestors d h n.
Proof.
  intros Hwf. revert n. induction d as [|d IH]; intros n Hd Hn Hin Hi Hp.
  { lia. }
  simpl in *. destruct (h !! n) as [nd0|] eqn:Hnd; [|inversion Hin].
  apply list_elem_of_further.
  apply elem_of_cons in Hin as [->|Hin].
  - rewrite Hi in Hnd. injection Hnd as <-. rewrite Hp.
    pose proof (Hwf n nd p Hi Hp) as Hlt.
    destruct d as [|d]; [lia|]. apply ancestors_head. lia.
  - destruct (parent nd0) as [q|] eqn:Hq; [|inversion Hin].
    pose proof (Hwf n nd0 q Hnd Hq) as Hlt.
    apply IH; auto; lia.
Qed.

(** C4.  In a heap whose parents are older than their children,
    [backpropagate] from node [n] with reward [r] returns normally; on
    [n] and on every ancestor of [n], up to the root whose parent is
    [None], it adds exactly 1 to [visits] and exactly [r], the same at
    every level, to [total_reward]; it changes nothing else: no other
    field of these nodes, no other node, neither the random source nor
    the trace. *)
Theorem backpropagate_updates_path (n : node_id) (r : float) (m : Machine) :
  wf_parents (heap m) -> (n < length (heap m))%nat ->
  exists m',
    backpropagate n r m = Ok (tt, m')
    /\ rng m' = rng m /\ trace m' = trace m
    /\ length (heap m') = length (heap m)
    /\ n ∈ path_to_root (heap m) n
    /\ (forall i nd p, i ∈ path_to_root (heap m) n ->
          heap m !! i = Some nd -> parent nd = Some p ->
          p ∈ path_to_root (heap m) n)
    /\ (exists root rd,
          last (path_to_root (heap m) n) = Some root
          /\ heap m !! root = Some rd /\ parent rd = None)
    /\ (forall i nd, i ∈ path_to_root (heap m) n ->
          heap m !! i = Some nd ->
          heap m' !! i =
            Some (mkNode (children nd) (parent nd) (action nd) (param nd)
                         (visits nd + 1) (total_reward nd + r)%float))
    /\ (forall i, i ∉ path_to_root (heap m) n ->
          heap m' !! i = heap m !! i).
Proof.
  intros Hwf Hn. unfold backpropagate, path_to_root.
  destruct (backpropagate_rec_spec (length (heap m)) n r m Hwf Hn Hn)
    as (h' & Hrun & Hlen & Hlook).
  exists (mkMachine h' (rng m) (trace m)). simpl.
  repeat split; auto.
  - assert (exists d, length (heap m) = S d) as [d Hd]
      by (exists (pred (length (heap m))); lia).
    rewrite Hd. apply ancestors_head. lia.
  - intros i nd p. by apply ancestors_parent.
  - by apply ancestors_last.
  - intros i nd Hin Hi. rewrite Hlook, bool_decide_eq_true_2, Hi by done.
    done.
  - intros i Hout. rewrite Hlook, bool_decide_eq_false_2 by done. done.
Qed.

(** ** Rollouts *)

Lemma random_choice_ok {A} (l : list A) (m : Machine) :
  l <> [] ->
  exists a, a ∈ l
    /\ random_choice l m = Ok (a, mkMachine (heap m) (tl (rng m)) (trace m)).
Proof.
  intros Hl. unfold random_choice.
  assert (Hlen : (length l <> 0)%nat) by (destruct l; simpl; [done|lia]).
  pose proof (Nat.mod_upper_bound (hd 0%nat (rng m)) (length l) Hlen) as Hi.
  destruct (lookup_lt_is_Some_2 l _ Hi) as [a Ha]. rewrite Ha.
  exists a. split; [by eapply list_elem_of_lookup_2|done].
Qed.

Lemma drop_tl {A} (k : nat) (l : list A) : drop k (tl l) = drop (S k) l.
Proof. destruct l; simpl; [by rewrite drop_nil|done]. Qed.

(** The heap a run of [backpropagate_rec] returns does not depend on the
    random source or on the trace, which it leaves alone. *)
Lemma backpropagate_rec_frame (d : nat) (n : node_id) (r : float)
    (h : list TreeNode) (rg rg' : list nat) (tr tr' : list event) :
  backpropagate_rec d n r (mkMachine h rg tr)
  = match backpropagate_rec d n r (mkMachine h rg' tr') with
    | Ok (_, mb) => Ok (tt, mkMachine (heap mb) rg tr)
    | Raise e => Raise e
    | Diverge => Diverge
    end.
Proof.
  revert n h. induction d as [|d IH]; intros n h; simpl; [done|].
  unfold bind, get_node, set_node; simpl.
  destruct (h !! n) as [nd|]; [|done].
  destruct (parent nd) as [p|]; [apply IH|done].
Qed.

(** The loop of [rollout] on a game that settles. *)
Lemma rollout_loop_settles (n fuel : nat) (s : State) (m : Machine) :
  settles n s = true -> (n < fuel)%nat ->
  exists acts,
    legal_play s acts /\ (length acts <= n)%nat
    /\ (ended (play s acts) = true \/ get_actions (play s acts) = [])
    /\ rollout_loop fuel s m
       = Ok (play s acts,
             mkMachine (heap m) (drop (length acts) (rng m)) (trace m)).
Proof.
  revert fuel s m. induction n as [|n IH]; intros fuel s [h rg tr] Hs Hf;
    (destruct fuel as [|fuel]; [lia|]); simpl in *.
  - destruct (ended s) eqn:He.
    { exists []. simpl. rewrite drop_0. repeat split; auto. }
    destruct (get_actions s) as [|a0 l0] eqn:Ha; [|done].
    exists []. simpl. rewrite drop_0. repeat split; auto.
  - destruct (ended s) eqn:He.
    { exists []. simpl. rewrite drop_0. repeat split; auto; lia. }
    destruct (get_actions s) as [|a0 l0] eqn:Ha.
    { exists []. simpl. rewrite drop_0. repeat split; auto; lia. }
    assert (Hall : forallb (fun a => settles n (state_step s a)) (a0 :: l0)
                   = true) by exact Hs.
    destruct (random_choice_ok (a0 :: l0) (mkMachine h rg tr))
      as (a & Hin & Hrun); [done|].
    unfold bind. rewrite Hrun. simpl.
    assert (Hsa : settles n (state_step s a) = true).
    { rewrite forallb_forall in Hall. apply Hall. by apply list_elem_of_In. }
    destruct (IH fuel (state_step s a) (mkMachine h (tl rg) tr) Hsa)
      as (acts & Hplay & Hlen & Hend & Hloop); [lia|].
    exists (a :: acts). simpl in *. rewrite Hloop, drop_tl, Ha.
    repeat split; auto; lia.
Qed.

Lemma rollout_loop_exit (fuel : nat) (s s' : State) (m m' : Machine) :
  rollout_loop fuel s m = Ok (s', m') ->
  ended s' = true \/ get_actions s' = [].
Proof.
  revert s m. induction fuel as [|fuel IH]; intros s m Hrun; simpl in Hrun.
  { discriminate. }
  destruct (ended s) eqn:He; [injection Hrun as <- _; by left|].
  destruct (get_actions s) as [|a0 l0] eqn:Ha.
  { injection Hrun as <- _; by right. }
  unfold bind in Hrun.
  destruct (random_choice (a0 :: l0) m) as [[a m1]| |]; try discriminate.
  eapply IH, Hrun.
Qed.

Lemma rollout_loop_endless (fuel : nat) (s : State) (m : Machine) :
  endless s -> rollout_loop fuel s m = Diverge.
Proof.
  revert s m. induction fuel as [|fuel IH]; intros s m Hs; simpl; [done|].
  destruct (Hs [] I) as [He Ha]. simpl in He, Ha. rewrite He.
  destruct (get_actions s) as [|a0 l0] eqn:Hacts; [done|].
  destruct (random_choice_ok (a0 :: l0) m) as (a & Hin & Hrun); [done|].
  unfold bind. rewrite Hrun. apply IH.
  intros acts Hplay. apply (Hs (a :: acts)). simpl. rewrite Hacts. done.
Qed.

(** C9.  [rollout] plays legal actions, each one picked by [random.choice],
    until the state has ended or has no action left, then evaluates the
    state reached and backpropagates that value once from the node it was
    called on.  If every play from the state settles within [n] moves,
    [rollout] returns as soon as its loop may run more than [n] times;
    the loop has no other exit (no timeout): when it returns, the state
    has ended or has no action, and on a game where no play ever ends
    [rollout] does not return, whatever the fuel. *)
Theorem rollout_terminates (fuel : nat) (self : node_id) (s : State)
    (m : Machine) :
  (forall n,
     settles n s = true -> (n < fuel)%nat ->
     wf_parents (heap m) -> (self < length (heap m))%nat ->
     exists acts m' mb,
       legal_play s acts /\ (length acts <= n)%nat
       /\ (ended (play s acts) = true \/ get_actions (play s acts) = [])
       /\ rollout fuel self s m = Ok (tt, m')
       /\ backpropagate self (score (play s acts)) m = Ok (tt, mb)
       /\ heap m' = heap mb
       /\ rng m' = drop (length acts) (rng m)
       /\ trace m' = EvRollout self :: trace m)
  /\ (forall s' m',
        rollout_loop fuel s m = Ok (s', m') ->
        ended s' = true \/ get_actions s' = [])
  /\ (endless s -> rollout fuel self s m = Diverge).
Proof.
  split; [|split].
  - intros n Hs Hf Hwf Hself.
    destruct (rollout_loop_settles n fuel s
                (mkMachine (heap m) (rng m) (EvRollout self :: trace m)) Hs Hf)
      as (acts & Hplay & Hlen & Hend & Hloop). simpl in Hloop.
    destruct (backpropagate_rec_spec (length (heap m)) self
                (score (play s acts)) m Hwf Hself Hself)
      as (h' & Hback & _).
    exists acts, (mkMachine h' (drop (length acts) (rng m))
                            (EvRollout self :: trace m)),
           (mkMachine h' (rng m) (trace m)).
    repeat split; auto.
    unfold rollout, bind, emit. rewrite Hloop. unfold backpropagate. simpl.
    rewrite (backpropagate_rec_frame _ _ _ _ _ (rng m) _ (trace m)).
    destruct m as [h rg tr]. simpl in *. rewrite Hback. done.
  - intros s' m'. apply rollout_loop_exit.
  - intros Hs. unfold rollout, bind, emit. by rewrite rollout_loop_endless.
Qed.

(** ** Selection *)

Lemma valid_actions_fold (k : Key) (l : list Action)
    (d0 : list (Key * Action)) :
  dict_mem k (fold_left (fun d a => dict_set (key a) a d) l d0) = true
  <-> k ∈ key <$> l \/ dict_mem k d0 = true.
Proof.
  revert d0. induction l as [|a l IH]; intros d0; simpl.
  - split; [by right|]. intros [Hin|?]; [inversion Hin|done].
  - rewrite IH, dict_mem_set, elem_of_cons. tauto.
Qed.

Lemma valid_actions_mem (k : Key) (l : list Action) :
  dict_mem k (valid_actions_of l) = true <-> k ∈ key <$> l.
Proof.
  unfold valid_actions_of. rewrite valid_actions_fold.
  split; [intros [?|?]; done|by left].
Qed.

(** When no recorded action is legal any more, every legal action is
    unexplored. *)
Lemma unexplored_none_recorded (nd : TreeNode) (actions : list Action) :
  (forall kv, kv ∈ children nd -> kv.1 ∉ key <$> actions) ->
  unexplored_of nd actions = actions.
Proof.
  intros Hnone. unfold unexplored_of.
  assert (Hall : forall a, a ∈ actions ->
                           dict_mem (key a) (children nd) = false).
  { intros a Ha. apply dict_mem_false. intros Hin.
    apply list_elem_of_fmap in Hin as (kv & Hk & Hkv).
    apply (Hnone kv Hkv). rewrite <- Hk. apply list_elem_of_fmap. eauto. }
  clear Hnone. induction actions as [|a l IH]; [done|].
  rewrite filter_cons_True by (apply Hall, list_elem_of_here).
  rewrite IH; [done|]. intros a' Ha'. by apply Hall, list_elem_of_further.
Qed.

(** The last branch of [select] is dead: with a legal action and nothing
    unexplored, some child is a candidate. *)
Lemma unexplored_nil_candidates (nd : TreeNode) (actions : list Action) :
  actions <> [] -> unexplored_of nd actions = [] ->
  children nd <> [] /\ candidates nd (valid_actions_of actions) <> [].
Proof.
  intros Hne Hnil. destruct actions as [|a0 l]; [done|].
  assert (Hmem : dict_mem (key a0) (children nd) = true).
  { destruct (dict_mem (key a0) (children nd)) eqn:Hm; [done|].
    exfalso. eapply (filter_nil_not_elem_of _ _ a0 Hnil); [exact Hm|].
    apply list_elem_of_here. }
  apply dict_mem_true, list_elem_of_fmap in Hmem as (kv & Hk & Hkv).
  assert (Hcand : kv ∈ candidates nd (valid_actions_of (a0 :: l))).
  { apply list_elem_of_filter. split; [|done].
    apply valid_actions_mem. rewrite <- Hk. rewrite fmap_cons.
    apply list_elem_of_here. }
  split; intros Heq; rewrite Heq in *; [inversion Hkv|inversion Hcand].
Qed.

Lemma backpropagate_rec_same (d : nat) (n : node_id) (r : float)
    (m m' : Machine) :
  backpropagate_rec d n r m = Ok (tt, m') ->
  length (heap m') = length (heap m) /\ rng m' = rng m
  /\ trace m' = trace m.
Proof.
  revert n m. induction d as [|d IH]; intros n m Hrun; simpl in Hrun.
  { discriminate. }
  unfold bind, get_node, set_node in Hrun.
  destruct (heap m !! n) as [nd|]; [|discriminate].
  destruct (parent nd) as [p|].
  - apply IH in Hrun as (Hlen & Hrg & Htr). simpl in *.
    rewrite length_insert in Hlen. done.
  - injection Hrun as <-. simpl. rewrite length_insert. done.
Qed.

Lemma rollout_loop_same (fuel : nat) (s s' : State) (m m' : Machine) :
  rollout_loop fuel s m = Ok (s', m') ->
  heap m' = heap m /\ trace m' = trace m.
Proof.
  revert s m. induction fuel as [|fuel IH]; intros s m Hrun; simpl in Hrun.
  { discriminate. }
  destruct (ended s); [injection Hrun as _ <-; done|].
  destruct (get_actions s) as [|a0 l0]; [injection Hrun as _ <-; done|].
  unfold bind, random_choice in Hrun.
  destruct ((a0 :: l0) !! _) as [a|]; [|discriminate].
  apply IH in Hrun as [Hh Ht]. done.
Qed.

(** What [expand] does: one new node under [self], then one
    backpropagation from it. *)
Lemma expand_run (fuel : nat) (self : node_id) (s : State)
    (available : list Action) (nd : TreeNode) (m m' : Machine) :
  heap m !! self = Some nd ->
  expand fuel self s available m = Ok (tt, m') ->
  exists a s' rg1,
    a ∈ available
    /\ backpropagate (length (heap m)) (score s')
         (mkMachine (attach (heap m) self nd a) rg1
            (EvRollout (length (heap m)) :: EvNewNode (length (heap m))
             :: trace m))
       = Ok (tt, m').
Proof.
  intros Hnd Hrun. unfold expand, bind in Hrun.
  unfold random_choice at 1 in Hrun.
  destruct (available !! _) as [a|] eqn:Ha; [|discriminate].
  unfold get_node, new_node, set_node, rollout, bind, emit in Hrun.
  simpl in Hrun. rewrite Hnd in Hrun.
  destruct (rollout_loop fuel (state_step s a) _) as [[s' m1]| |] eqn:Hloop;
    try discriminate.
  pose proof (rollout_loop_same _ _ _ _ _ Hloop) as [Hh Ht]. simpl in Hh, Ht.
  exists a, s', (rng m1). split; [by eapply list_elem_of_lookup_2|].
  destruct m1 as [h1 rg1 tr1]. simpl in *. subst h1 tr1.
  unfold backpropagate in *. simpl in *.
  rewrite length_insert in Hrun. unfold attach. rewrite length_insert.
  exact Hrun.
Qed.

(** C8, as amended.  [select] treats a node as a leaf when the working
    state has no legal action: it evaluates the state and backpropagates
    from that node, builds no node, descends no further and raises
    nothing.  When some legal action is unexplored, [select] expands a new
    child for one of them; this is what happens when the children map is
    not empty but none of its recorded actions is legal any more, since
    then every legal action is unexplored.  The last leaf branch, for no
    unexplored action and an empty map, is never reached with a legal
    action: then some recorded child is still legal and [select] descends
    into the best of them. *)
Theorem select_cases (depth fuel : nat) (self : node_id) (s : State)
    (nd : TreeNode) (m : Machine) :
  heap m !! self = Some nd ->
  (get_actions s = [] ->
     select math_log (S depth) fuel self s m = leaf self s m
     /\ (wf_parents (heap m) ->
         exists m' mb,
           leaf self s m = Ok (tt, m')
           /\ backpropagate self (score s) m = Ok (tt, mb)
           /\ heap m' = heap mb
           /\ length (heap m') = length (heap m)
           /\ rng m' = rng m
           /\ trace m' = EvLeaf self :: trace m))
  /\ (get_actions s <> [] -> unexplored_of nd (get_actions s) <> [] ->
        select math_log (S depth) fuel self s m
        = expand fuel self s (unexplored_of nd (get_actions s)) m
        /\ forall m',
             expand fuel self s (unexplored_of nd (get_actions s)) m
             = Ok (tt, m') ->
             length (heap m') = S (length (heap m))
             /\ trace m' = EvRollout (length (heap m))
                           :: EvNewNode (length (heap m)) :: trace m)
  /\ ((forall kv, kv ∈ children nd -> kv.1 ∉ key <$> get_actions s) ->
        unexplored_of nd (get_actions s) = get_actions s)
  /\ (get_actions s <> [] -> unexplored_of nd (get_actions s) = [] ->
        children nd <> []
        /\ candidates nd (valid_actions_of (get_actions s)) <> []
        /\ select math_log (S depth) fuel self s m
           = bind (best_child math_log nd (valid_actions_of (get_actions s)))
               (fun best =>
                  match dict_get (key best.1)
                          (valid_actions_of (get_actions s)) with
                  | Some a =>
                      select math_log depth fuel best.2 (state_step s a)
                  | None => raise KeyError
                  end) m).
Proof.
  intros Hnd. split; [|split; [|split]].
  - intros Hacts. split; [simpl; by rewrite Hacts|]. intros Hwf.
    assert (Hself : (self < length (heap m))%nat)
      by (eapply lookup_lt_is_Some_1; eauto).
    destruct (backpropagate_rec_spec (length (heap m)) self (score s) m
                Hwf Hself Hself) as (h' & Hback & Hlen & _).
    exists (mkMachine h' (rng m) (EvLeaf self :: trace m)),
           (mkMachine h' (rng m) (trace m)).
    repeat split; auto.
    unfold leaf, bind, emit, backpropagate. simpl.
    rewrite (backpropagate_rec_frame _ _ _ _ _ (rng m) _ (trace m)).
    destruct m as [h rg tr]. simpl in *. by rewrite Hback.
  - intros Hacts Hun. split.
    + simpl. destruct (get_actions s) as [|a0 l0] eqn:Ha; [done|].
      unfold bind, get_node. rewrite Hnd.
      destruct (unexplored_of nd (a0 :: l0)); done.
    + intros m' Hrun.
      destruct (expand_run _ _ _ _ _ _ _ Hnd Hrun) as (a & s' & rg1 & _ & Hb).
      apply backpropagate_rec_same in Hb as (Hlen & _ & Htr). simpl in *.
      rewrite Hlen, Htr. unfold attach.
      rewrite length_insert, length_app. simpl. split; [lia|done].
  - apply unexplored_none_recorded.
  - intros Hacts Hnil.
    destruct (unexplored_nil_candidates nd _ Hacts Hnil) as [Hch Hcand].
    repeat split; auto.
    simpl. destruct (get_actions s) as [|a0 l0] eqn:Ha; [done|].
    unfold bind at 1, get_node. rewrite Hnd, Hnil.
    destruct (children nd); done.
Qed.

(** ** The shape of the tree and the visit counts *)

Lemma attach_length (h : list TreeNode) (p : node_id) (nd : TreeNode)
    (a : Action) :
  length (attach h p nd a) = S (length h).
Proof. unfold attach. rewrite length_insert, length_app. simpl. lia. Qed.

Lemma attach_lookup (h : list TreeNode) (p : node_id) (nd : TreeNode)
    (a : Action) (i : node_id) :
  (p < length h)%nat ->
  attach h p nd a !! i =
    if decide (i = p) then Some (add_child (key a) a (length h) nd)
    else if decide (i = length h)
         then Some (mkNode [] (Some p) (Some a) (param nd) 0 0%float)
         else h !! i.
Proof.
  intros Hp. unfold attach. destruct (decide (i = p)) as [->|Hne].
  - apply list_lookup_insert_eq. rewrite length_app. simpl. lia.
  - rewrite list_lookup_insert_ne by done.
    destruct (decide (i = length h)) as [->|Hne'].
    + rewrite lookup_app_r by lia. by rewrite Nat.sub_diag.
    + destruct (decide (i < length h)%nat).
      * by rewrite lookup_app_l.
      * rewrite !lookup_ge_None_2; [done|lia|].
        rewrite length_app. simpl. lia.
Qed.

Lemma child_ids_add_child (k : Key) (a : Action) (c : node_id)
    (nd : TreeNode) :
  dict_mem k (children nd) = false ->
  child_ids (add_child k a c nd) = child_ids nd ++ [c].
Proof.
  intros Hk. unfold child_ids, add_child. simpl.
  rewrite dict_set_fresh by done. by rewrite !fmap_app.
Qed.

Lemma child_ids_lt (h : list TreeNode) (n c : node_id) (nd : TreeNode) :
  tree_shape h -> h !! n = Some nd -> c ∈ child_ids nd ->
  (c < length h)%nat /\ (n < c)%nat.
Proof.
  intros Hs Hn Hc.
  destruct (shape_children h Hs n nd c Hn Hc) as (cd & Hcd & Hp).
  split; [by eapply lookup_lt_Some|]. by eapply (shape_parents h Hs).
Qed.

Lemma shape_attach (h : list TreeNode) (p : node_id) (nd : TreeNode)
    (a : Action) :
  tree_shape h -> h !! p = Some nd ->
  dict_mem (key a) (children nd) = false ->
  tree_shape (attach h p nd a).
Proof.
  intros Hs Hnd Hfresh.
  assert (Hp : (p < length h)%nat) by (by eapply lookup_lt_Some).
  pose proof (child_ids_add_child _ a (length h) nd Hfresh) as Hids.
  split.
  - intros i x q Hi Hq. rewrite attach_lookup in Hi by done.
    destruct (decide (i = p)) as [->|?].
    { injection Hi as <-. simpl in Hq. by eapply (shape_parents h Hs). }
    destruct (decide (i = length h)) as [->|?].
    { injection Hi as <-. simpl in Hq. injection Hq as <-. done. }
    by eapply (shape_parents h Hs).
  - intros n x c Hn Hc. rewrite attach_lookup in Hn by done.
    rewrite attach_lookup by done.
    assert (Hold : forall y, h !! n = Some y -> c ∈ child_ids y ->
      exists cd,
        (if decide (c = p) then Some (add_child (key a) a (length h) nd)
         else if decide (c = length h)
              then Some (mkNode [] (Some p) (Some a) (param nd) 0 0%float)
              else h !! c) = Some cd /\ parent cd = Some n).
    { intros y Hy Hcy.
      destruct (shape_children h Hs n y c Hy Hcy) as (cd & Hcd & Hpar).
      destruct (decide (c = p)) as [->|?].
      { rewrite Hnd in Hcd. injection Hcd as <-. eexists. split; [done|].
        done. }
      destruct (decide (c = length h)) as [->|?].
      { apply lookup_lt_Some in Hcd. lia. }
      eauto. }
    destruct (decide (n = p)) as [->|?].
    { injection Hn as <-. rewrite Hids in Hc.
      apply elem_of_app in Hc as [Hc|Hc]; [by eapply Hold|].
      apply list_elem_of_singleton in Hc as ->.
      destruct (decide (length h = p)); [lia|].
      destruct (decide (length h = length h)); [|done].
      eexists. split; [done|]. done. }
    destruct (decide (n = length h)) as [->|?].
    { injection Hn as <-. inversion Hc. }
    by eapply Hold.
  - intros c cd q Hc Hq. rewrite attach_lookup in Hc by done.
    rewrite attach_lookup by done.
    assert (Hold : forall y, h !! c = Some y -> parent y = Some q ->
      exists x,
        (if decide (q = p) then Some (add_child (key a) a (length h) nd)
         else if decide (q = length h)
              then Some (mkNode [] (Some p) (Some a) (param nd) 0 0%float)
              else h !! q) = Some x /\ c ∈ child_ids x).
    { intros y Hy Hpar.
      destruct (shape_listed h Hs c y q Hy Hpar) as (x & Hx & Hin).
      destruct (decide (q = p)) as [->|?].
      { rewrite Hnd in Hx. injection Hx as <-. eexists. split; [done|].
        rewrite Hids. apply elem_of_app. by left. }
      destruct (decide (q = length h)) as [->|?].
      { apply lookup_lt_Some in Hx. lia. }
      eauto. }
    destruct (decide (c = p)) as [->|?].
    { injection Hc as <-. simpl in Hq. by eapply Hold. }
    destruct (decide (c = length h)) as [->|?].
    { injection Hc as <-. simpl in Hq. injection Hq as <-.
      destruct (decide (p = p)); [|done].
      eexists. split; [done|]. rewrite Hids. apply elem_of_app. right.
      apply list_elem_of_here. }
    by eapply Hold.
  - intros n x Hn. rewrite attach_lookup in Hn by done.
    destruct (decide (n = p)) as [->|?].
    { injection Hn as <-. rewrite Hids. apply NoDup_app.
      split; [by eapply (shape_nodup h Hs)|]. split; [|apply NoDup_singleton].
      intros c Hc Hc'. apply list_elem_of_singleton in Hc' as ->.
      destruct (child_ids_lt h p _ nd Hs Hnd Hc). lia. }
    destruct (decide (n = length h)) as [->|?].
    { injection Hn as <-. apply NoDup_nil_2. }
    by eapply (shape_nodup h Hs).
Qed.

Lemma bumped_lookup (h h' : list TreeNode) (path : list node_id) (r : float)
    (i : node_id) (x' : TreeNode) :
  bumped h h' path r -> h' !! i = Some x' ->
  exists x, h !! i = Some x /\ parent x' = parent x
            /\ children x' = children x
            /\ visits x'
               = visits x + (if bool_decide (i ∈ path) then 1 else 0).
Proof.
  intros [_ Hb] Hi. rewrite Hb in Hi.
  destruct (bool_decide (i ∈ path)).
  - destruct (h !! i) as [x|]; [|done]. injection Hi as <-.
    exists x. simpl. done.
  - exists x'. repeat split; auto. lia.
Qed.

Lemma bumped_lookup_inv (h h' : list TreeNode) (path : list node_id)
    (r : float) (i : node_id) (x : TreeNode) :
  bumped h h' path r -> h !! i = Some x ->
  exists x', h' !! i = Some x' /\ parent x' = parent x
             /\ children x' = children x
             /\ visits x'
                = visits x + (if bool_decide (i ∈ path) then 1 else 0).
Proof.
  intros [_ Hb] Hi. rewrite Hb, Hi.
  destruct (bool_decide (i ∈ path)); eexists; (split; [done|]); simpl;
    repeat split; lia.
Qed.

Lemma shape_bumped (h h' : list TreeNode) (path : list node_id) (r : float) :
  tree_shape h -> bumped h h' path r -> tree_shape h'.
Proof.
  intros Hs Hb. split.
  - intros i x' q Hi Hq.
    destruct (bumped_lookup _ _ _ _ _ _ Hb Hi) as (x & Hx & Hpar & _).
    rewrite Hpar in Hq. by eapply (shape_parents h Hs).
  - intros n x' c Hn Hc.
    destruct (bumped_lookup _ _ _ _ _ _ Hb Hn) as (x & Hx & _ & Hch & _).
    unfold child_ids in Hc. rewrite Hch in Hc.
    destruct (shape_children h Hs n x c Hx Hc) as (cd & Hcd & Hpar).
    destruct (bumped_lookup_inv _ _ _ _ _ _ Hb Hcd) as (cd' & Hcd' & Hp' & _).
    exists cd'. split; [done|]. congruence.
  - intros c cd' q Hc Hq.
    destruct (bumped_lookup _ _ _ _ _ _ Hb Hc) as (cd & Hcd & Hpar & _).
    rewrite Hpar in Hq.
    destruct (shape_listed h Hs c cd q Hcd Hq) as (x & Hx & Hin).
    destruct (bumped_lookup_inv _ _ _ _ _ _ Hb Hx) as (x' & Hx' & _ & Hch & _).
    exists x'. split; [done|]. unfold child_ids. by rewrite Hch.
  - intros n x' Hn.
    destruct (bumped_lookup _ _ _ _ _ _ Hb Hn) as (x & Hx & _ & Hch & _).
    unfold child_ids. rewrite Hch. by eapply (shape_nodup h Hs).
Qed.

Lemma visits_bumped (h h' : list TreeNode) (path : list node_id) (r : float)
    (i : node_id) :
  bumped h h' path r -> (i < length h)%nat ->
  visits_at h' i = visits_at h i + (if bool_decide (i ∈ path) then 1 else 0).
Proof.
  intros Hb Hi. destruct (lookup_lt_is_Some_2 h i Hi) as [x Hx].
  destruct (bumped_lookup_inv _ _ _ _ _ _ Hb Hx) as (x' & Hx' & _ & _ & Hv).
  unfold visits_at. by rewrite Hx, Hx'.
Qed.

Lemma sum_visits_bumped (h h' : list TreeNode) (path : list node_id)
    (r : float) (l : list node_id) :
  bumped h h' path r -> (forall c, c ∈ l -> (c < length h)%nat) ->
  foldr Z.add 0 (visits_at h' <$> l)
  = foldr Z.add 0 (visits_at h <$> l) + hits path l.
Proof.
  intros Hb Hlt. unfold hits. induction l as [|c l IH]; [done|].
  rewrite !fmap_cons. cbn [foldr].
  rewrite (visits_bumped h h' path r c Hb)
    by (apply Hlt, list_elem_of_here).
  rewrite IH; [lia|]. intros c' Hc'. by apply Hlt, list_elem_of_further.
Qed.

Lemma children_visits_bumped (h h' : list TreeNode) (path : list node_id)
    (r : float) (n : node_id) (nd : TreeNode) :
  tree_shape h -> bumped h h' path r -> h !! n = Some nd ->
  children_visits h' n = children_visits h n + hits path (child_ids nd).
Proof.
  intros Hs Hb Hn.
  destruct (bumped_lookup_inv _ _ _ _ _ _ Hb Hn) as (x' & Hx' & _ & Hch & _).
  unfold children_visits. rewrite Hn, Hx'.
  assert (Hids : child_ids x' = child_ids nd)
    by (unfold child_ids; by rewrite Hch).
  rewrite Hids. apply (sum_visits_bumped h h' path r); [done|].
  intros c Hc. by destruct (child_ids_lt h n c nd Hs Hn Hc).
Qed.

Lemma hits_zero (path ids : list node_id) :
  (forall c, c ∈ ids -> c ∉ path) -> hits path ids = 0.
Proof.
  intros Hout. unfold hits. induction ids as [|c l IH]; [done|].
  rewrite fmap_cons. cbn [foldr].
  rewrite bool_decide_eq_false_2 by (apply Hout, list_elem_of_here).
  rewrite IH; [done|]. intros c' Hc'. by apply Hout, list_elem_of_further.
Qed.

Lemma hits_one (path ids : list node_id) (c0 : node_id) :
  NoDup ids -> c0 ∈ ids -> c0 ∈ path ->
  (forall c, c ∈ ids -> c ∈ path -> c = c0) ->
  hits path ids = 1.
Proof.
  intros Hnd Hin Hpath Huniq. induction ids as [|c l IH]; [inversion Hin|].
  apply NoDup_cons in Hnd as [Hc Hnd].
  change (hits path (c :: l))
    with ((if bool_decide (c ∈ path) then 1 else 0) + hits path l).
  destruct (decide (c = c0)) as [->|Hne].
  - rewrite bool_decide_eq_true_2 by done. rewrite hits_zero; [done|].
    intros c' Hc' Hp'.
    rewrite (Huniq c' (list_elem_of_further _ _ _ Hc') Hp') in Hc'. done.
  - rewrite bool_decide_eq_false_2.
    2:{ intros Hp. apply Hne, Huniq; [apply list_elem_of_here|done]. }
    rewrite IH; auto.
    + apply elem_of_cons in Hin as [?|?]; [congruence|done].
    + intros c' Hc'. by apply Huniq, list_elem_of_further.
Qed.

Lemma path_child_unique (d : nat) (h : list TreeNode) (b t c c' : node_id)
    (cd cd' : TreeNode) :
  wf_parents h -> c ∈ ancestors d h b -> c' ∈ ancestors d h b ->
  h !! c = Some cd -> parent cd = Some t ->
  h !! c' = Some cd' -> parent cd' = Some t ->
  c = c'.
Proof.
  intros Hwf. revert b. induction d as [|d IH]; intros b Hc Hc' Hcd Hp Hcd' Hp'.
  { inversion Hc. }
  simpl in Hc, Hc'. destruct (h !! b) as [bd|] eqn:Hb; [|inversion Hc].
  pose proof (Hwf c cd t Hcd Hp) as Hlt.
  pose proof (Hwf c' cd' t Hcd' Hp') as Hlt'.
  apply elem_of_cons in Hc as [->|Hc], Hc' as [->|Hc']; [done| | |].
  - rewrite Hcd in Hb. injection Hb as <-. rewrite Hp in Hc'.
    apply ancestors_le in Hc'; [lia|done].
  - rewrite Hcd' in Hb. injection Hb as <-. rewrite Hp' in Hc.
    apply ancestors_le in Hc; [lia|done].
  - destruct (parent bd) as [q|]; [|inversion Hc]. by eapply IH.
Qed.

Lemma path_child_exists (d : nat) (h : list TreeNode) (b t : node_id) :
  t ∈ ancestors d h b -> b <> t ->
  exists c cd, c ∈ ancestors d h b /\ h !! c = Some cd
               /\ parent cd = Some t.
Proof.
  revert b. induction d as [|d IH]; intros b Ht Hne; [inversion Ht|].
  simpl in *. destruct (h !! b) as [bd|] eqn:Hb; [|inversion Ht].
  apply elem_of_cons in Ht as [?|Ht]; [congruence|].
  destruct (parent bd) as [q|] eqn:Hq; [|inversion Ht].
  destruct (decide (q = t)) as [->|Hqt].
  - exists b, bd. split; [apply list_elem_of_here|done].
  - destruct (IH q Ht Hqt) as (c & cd & Hc & Hcd & Hp).
    exists c, cd. split; [by apply list_elem_of_further|done].
Qed.

(** A path that passes through node [t] passes through exactly one child
    of [t], unless it starts at [t]. *)
Lemma path_hits_children (h : list TreeNode) (b t : node_id) (nd : TreeNode) :
  tree_shape h -> h !! t = Some nd -> t ∈ path_to_root h b ->
  hits (path_to_root h b) (child_ids nd) = if decide (b = t) then 0 else 1.
Proof.
  intros Hs Ht Hpath. destruct (decide (b = t)) as [->|Hne].
  - apply hits_zero. intros c Hc Hin.
    destruct (child_ids_lt h t c nd Hs Ht Hc) as [_ Hlt].
    apply ancestors_le in Hin; [lia|apply Hs].
  - destruct (path_child_exists _ _ _ _ Hpath Hne)
      as (c0 & cd0 & Hc0 & Hcd0 & Hp0).
    destruct (shape_listed h Hs c0 cd0 t Hcd0 Hp0) as (nd' & Hnd' & Hin0).
    rewrite Ht in Hnd'. injection Hnd' as <-.
    apply (hits_one _ _ c0); auto.
    + by eapply (shape_nodup h Hs).
    + intros c Hc Hin.
      destruct (shape_children h Hs t nd c Ht Hc) as (cd & Hcd & Hp).
      eapply path_child_unique; eauto. apply Hs.
Qed.

Lemma grown_shape (h h1 : list TreeNode) (b : node_id) (evs : list event) :
  tree_shape h -> grown h h1 b evs -> tree_shape h1.
Proof.
  intros Hs [[-> _]|(p & nd & a & Hp & Hfresh & -> & _)]; [done|].
  by apply shape_attach.
Qed.

Lemma grown_lookup (h h1 : list TreeNode) (b : node_id) (evs : list event)
    (i : node_id) (x : TreeNode) :
  grown h h1 b evs -> h !! i = Some x ->
  exists x1, h1 !! i = Some x1 /\ parent x1 = parent x
             /\ visits x1 = visits x
             /\ (child_ids x1 = child_ids x
                 \/ (child_ids x1 = child_ids x ++ [b] /\ b = length h
                     /\ visits_at h1 b = 0)).
Proof.
  intros [[-> _]|(p & nd & a & Hp & Hfresh & -> & -> & _)] Hi.
  { exists x. repeat split; auto. }
  assert (Hlt : (p < length h)%nat) by (by eapply lookup_lt_Some).
  assert (Hi' : (i < length h)%nat) by (by eapply lookup_lt_Some).
  rewrite attach_lookup by done.
  destruct (decide (i = p)) as [->|Hne].
  - rewrite Hp in Hi. injection Hi as <-. eexists. split; [done|].
    repeat split. right. rewrite child_ids_add_child by done.
    split; [done|]. split; [done|]. unfold visits_at.
    rewrite attach_lookup by done.
    destruct (decide (length h = p)); [lia|].
    destruct (decide (length h = length h)); done.
  - destruct (decide (i = length h)); [lia|].
    exists x. repeat split; auto.
Qed.

Lemma grown_visits_at (h h1 : list TreeNode) (b : node_id)
    (evs : list event) (i : node_id) :
  grown h h1 b evs -> (i < length h)%nat -> visits_at h1 i = visits_at h i.
Proof.
  intros Hg Hi. destruct (lookup_lt_is_Some_2 h i Hi) as [x Hx].
  destruct (grown_lookup _ _ _ _ _ _ Hg Hx) as (x1 & Hx1 & _ & Hv & _).
  unfold visits_at. by rewrite Hx, Hx1.
Qed.

Lemma sum_ext (f g : node_id -> Z) (l : list node_id) :
  (forall c, c ∈ l -> f c = g c) ->
  foldr Z.add 0 (f <$> l) = foldr Z.add 0 (g <$> l).
Proof.
  intros Hfg. induction l as [|c l IH]; [done|].
  rewrite !fmap_cons. cbn [foldr].
  rewrite (Hfg c) by apply list_elem_of_here.
  rewrite IH; [done|]. intros c' Hc'. by apply Hfg, list_elem_of_further.
Qed.

Lemma grown_children_visits (h h1 : list TreeNode) (b : node_id)
    (evs : list event) (t : node_id) :
  tree_shape h -> grown h h1 b evs -> (t < length h)%nat ->
  children_visits h1 t = children_visits h t.
Proof.
  intros Hs Hg Ht. destruct (lookup_lt_is_Some_2 h t Ht) as [x Hx].
  destruct (grown_lookup _ _ _ _ _ _ Hg Hx) as (x1 & Hx1 & _ & _ & Hids).
  unfold children_visits. rewrite Hx, Hx1.
  assert (Hsame : foldr Z.add 0 (visits_at h1 <$> child_ids x)
                  = foldr Z.add 0 (visits_at h <$> child_ids x)).
  { apply sum_ext. intros c Hc. apply (grown_visits_at h h1 b evs c Hg).
    by destruct (child_ids_lt h t c x Hs Hx Hc). }
  destruct Hids as [->|(-> & Hb & Hnew)]; [done|].
  rewrite fmap_app, foldr_app. simpl. rewrite Hnew, Z.add_0_r. exact Hsame.
Qed.

(** ** The UCB-1 score and the child it selects *)

Lemma mapM_ucb_keyed (nd : TreeNode) (cands : list (Key * (Action * node_id)))
    (keyed : list ((Action * node_id) * float)) (m m' : Machine) :
  mapM (ucb_keyed math_log nd) cands m = Ok (keyed, m') ->
  m' = m /\ keyed.*1 = cands.*2
  /\ Forall (fun ku => exists cn,
                heap m !! ku.1.2 = Some cn
                /\ ucb_score math_log cn (visits nd) (param nd) = Ok ku.2)
            keyed.
Proof.
  revert keyed m'. induction cands as [|kv cands IH]; intros keyed m' Hrun.
  - inversion Hrun. repeat split. constructor.
  - simpl in Hrun. unfold bind at 1 in Hrun. unfold ucb_keyed at 1 in Hrun.
    unfold bind, get_node, lift, rbind, ret in Hrun.
    destruct (heap m !! kv.2.2) as [cn|] eqn:Hcn; [|discriminate].
    destruct (ucb_score math_log cn (visits nd) (param nd)) as [u| |] eqn:Hu;
      try discriminate.
    fold (@ret Action Key) in Hrun.
    destruct (mapM (ucb_keyed math_log nd) cands m) as [[ys m1]| |] eqn:Hrest;
      try discriminate.
    injection Hrun as <- <-.
    destruct (IH ys m1 eq_refl) as (-> & Heq & Hall).
    split; [done|]. split; [rewrite !fmap_cons, Heq; done|].
    constructor; [|done]. exists cn. done.
Qed.

(** C3.  For a node with [visits = v > 0] and [total_reward = r], a parent
    visit count [p > 0] and an exploration constant [c], [ucb_score]
    returns exactly [r/v + c * sqrt(ln(p)/v)], computed in binary64 with
    [math.log] for [ln] (provided [v] fits a machine word and [math.log]
    is not negative on [p], as the logarithm of a count is not).  For
    [v = 0] it returns [+infinity], and when a child with [v = 0] is among
    the candidates of [select], the child that [max] selects never has a
    finite score; if every visited candidate has a finite score, the
    selected child is an unvisited one. *)
Theorem ucb_score_correct (nd : TreeNode) (p : Z) (c : float) :
  (0 < visits nd < 2 ^ 63 -> 0 < p -> (math_log p <? 0)%float = false ->
   ucb_score math_log nd p c
   = Ok (total_reward nd / of_uint63 (Uint63.of_Z (visits nd))
         + c * PrimFloat.sqrt
                 (math_log p / of_uint63 (Uint63.of_Z (visits nd))))%float)
  /\ (visits nd = 0 -> ucb_score math_log nd p c = Ok infinity)
  /\ (forall par valid m m' best kv,
        visits nd = 0 ->
        kv ∈ candidates par valid -> heap m !! kv.2.2 = Some nd ->
        best_child math_log par valid m = Ok (best, m') ->
        exists cb u,
          best ∈ (candidates par valid).*2
          /\ heap m !! best.2 = Some cb
          /\ ucb_score math_log cb (visits par) (param par) = Ok u
          /\ is_finite u = false
          /\ ((forall kv' cn' u',
                 kv' ∈ candidates par valid ->
                 heap m !! kv'.2.2 = Some cn' -> visits cn' <> 0 ->
                 ucb_score math_log cn' (visits par) (param par) = Ok u' ->
                 is_finite u' = true) ->
              visits cb = 0)).
Proof.
  split; [|split].
  - intros Hv Hp Hlog. unfold ucb_score, average_score, py_log, truediv.
    destruct (Z.eqb_spec (visits nd) 0) as [?|_]; [lia|].
    rewrite float_of_int_small by lia.
    destruct (Z.leb_spec p 0) as [?|_]; [lia|].
    unfold math_sqrt, rbind. rewrite div_not_neg by done. done.
  - intros Hv. unfold ucb_score. rewrite Hv. done.
  - intros par valid m m' best kv Hv Hkv Hnd Hrun.
    unfold best_child, bind in Hrun.
    destruct (mapM _ _ m) as [[keyed m1]| |] eqn:Hkeyed; try discriminate.
    apply mapM_ucb_keyed in Hkeyed as (-> & Hfst & Hall).
    unfold lift, rbind in Hrun.
    destruct (py_max keyed) as [b| |] eqn:Hmax; try discriminate.
    injection Hrun as -> _.
    rewrite Forall_forall in Hall.
    assert (Hinf : (kv.2, infinity) ∈ keyed).
    { assert (Hin : kv.2 ∈ keyed.*1)
        by (rewrite Hfst; apply list_elem_of_fmap; eauto).
      apply list_elem_of_fmap in Hin as ([ac u] & Heq & Hin).
      simpl in Heq. subst ac.
      destruct (Hall _ Hin) as (cn & Hcn & Hu). simpl in *.
      rewrite Hnd in Hcn. injection Hcn as <-.
      unfold ucb_score in Hu. rewrite Hv in Hu. simpl in Hu.
      injection Hu as <-. done. }
    destruct (py_max_infinity keyed best _ Hmax Hinf) as (kb & Hb & Htop).
    destruct (Hall _ Hb) as (cb & Hcb & Hu). simpl in Hcb, Hu.
    assert (Hbest : best ∈ (candidates par valid).*2).
    { rewrite <- Hfst. apply list_elem_of_fmap. exists (best, kb). done. }
    exists cb, kb. repeat split; auto using top_not_finite.
    intros Hfin. destruct (Z.eq_dec (visits cb) 0) as [|Hne]; [done|].
    apply list_elem_of_fmap in Hbest as (kv' & Heq & Hin').
    rewrite Heq in Hcb.
    pose proof (Hfin kv' cb kb Hin' Hcb Hne Hu) as Hyes.
    pose proof (top_not_finite kb Htop) as Hno. congruence.
Qed.

(** ** The evaluation of a state *)

(** C6, as amended.  The evaluation is [score * (0.5 + 0.5 * health)] in
    binary64: a function of the state's score and health and of nothing
    else, so that two states with the same score and the same health get
    the same evaluation.  (That a higher health gives a greater
    evaluation is not part of it.) *)
Theorem score_pure (s1 s2 : State) :
  state_score s1 = state_score s2 -> state_health s1 = state_health s2 ->
  score s1 = score s2
  /\ score s1 = (state_score s1 * (0.5 + 0.5 * state_health s1))%float.
Proof. intros Hs Hh. unfold score. rewrite Hs, Hh. done. Qed.

(** ** One iteration, and many *)

Lemma best_child_run (nd : TreeNode) (valid : list (Key * Action))
    (best : Action * node_id) (m m' : Machine) :
  best_child math_log nd valid m = Ok (best, m') ->
  m' = m /\ best.2 ∈ child_ids nd.
Proof.
  unfold best_child, bind. intros Hrun.
  destruct (mapM _ _ m) as [[keyed m1]| |] eqn:Hkeyed; try discriminate.
  apply mapM_ucb_keyed in Hkeyed as (-> & Hfst & _).
  unfold lift, rbind in Hrun.
  destruct (py_max keyed) as [b| |] eqn:Hmax; try discriminate.
  injection Hrun as -> <-. split; [done|].
  apply py_max_elem in Hmax. rewrite Hfst in Hmax.
  apply list_elem_of_fmap in Hmax as (kv & -> & Hkv).
  apply list_elem_of_filter in Hkv as [_ Hkv].
  unfold child_ids. apply list_elem_of_fmap. exists kv.2. split; [done|].
  apply list_elem_of_fmap. by exists kv.
Qed.

Lemma path_head (h : list TreeNode) (n : node_id) :
  (n < length h)%nat -> n ∈ path_to_root h n.
Proof.
  intros Hn. unfold path_to_root.
  assert (exists d, length h = S d) as [d Hd]
    by (exists (pred (length h)); lia).
  rewrite Hd. by apply ancestors_head.
Qed.

(** Every normal run of [select] ends in one backpropagation, from a node
    [b] below the node it was called on. *)
Lemma select_run (depth fuel : nat) (n : node_id) (s : State)
    (m m' : Machine) :
  tree_shape (heap m) -> (n < length (heap m))%nat ->
  select math_log depth fuel n s m = Ok (tt, m') ->
  exists b r h1 rg1 evs,
    backpropagate b r (mkMachine h1 rg1 (evs ++ trace m)) = Ok (tt, m')
    /\ grown (heap m) h1 b evs
    /\ (b < length h1)%nat
    /\ n ∈ path_to_root h1 b
    /\ (get_actions s = [] -> b = n)
    /\ (get_actions s <> [] -> (n < b)%nat).
Proof.
  revert n s m. induction depth as [|depth IH]; intros n s m Hs Hn Hrun.
  { discriminate. }
  simpl in Hrun. destruct (lookup_lt_is_Some_2 _ _ Hn) as [nd Hnd].
  destruct (get_actions s) as [|a0 l0] eqn:Hacts.
  - exists n, (score s), (heap m), (rng m), [EvLeaf n].
    split; [exact Hrun|]. split; [by left|]. split; [done|].
    split; [by apply path_head|]. done.
  - unfold bind at 1, get_node in Hrun. rewrite Hnd in Hrun.
    destruct (unexplored_of nd (a0 :: l0)) as [|u us] eqn:Hun.
    + destruct (children nd) as [|kv0 kvs] eqn:Hch.
      { destruct (unexplored_nil_candidates nd (a0 :: l0)); done. }
      unfold bind at 1 in Hrun.
      destruct (best_child _ _ _ m) as [[best m1]| |] eqn:Hbest;
        try discriminate.
      apply best_child_run in Hbest as (-> & Hin).
      destruct (dict_get _ _) as [a|]; [|discriminate].
      destruct (child_ids_lt _ _ _ _ Hs Hnd Hin) as [Hc Hlt].
      destruct (IH _ _ _ Hs Hc Hrun)
        as (b & r & h1 & rg1 & evs & Hback & Hg & Hb & Hpath & He & Hne).
      exists b, r, h1, rg1, evs. repeat split; auto; try done.
      * destruct (shape_children _ Hs n nd _ Hnd Hin) as (cd & Hcd & Hp).
        destruct (grown_lookup _ _ _ _ _ _ Hg Hcd) as (cd1 & Hcd1 & Hp1 & _).
        eapply (ancestors_parent _ _ b best.2 n cd1); eauto.
        -- eapply shape_parents, grown_shape; eauto.
        -- congruence.
      * intros _. destruct (get_actions (state_step s a)) eqn:Ha.
        -- rewrite He by done. lia.
        -- assert (best.2 < b)%nat by (apply Hne; done). lia.
    + destruct (expand_run _ _ _ _ _ _ _ Hnd Hrun)
        as (a & s' & rg1 & Hin & Hback).
      rewrite <- Hun in Hin. apply list_elem_of_filter in Hin as [Hfresh _].
      assert (Hs1 : tree_shape (attach (heap m) n nd a))
        by (by apply shape_attach).
      exists (length (heap m)), (score s'), (attach (heap m) n nd a), rg1,
             [EvRollout (length (heap m)); EvNewNode (length (heap m))].
      split; [exact Hback|]. split; [right; by exists n, nd, a|].
      rewrite attach_length. split; [lia|]. split; [|done].
      eapply (ancestors_parent _ _ (length (heap m)) (length (heap m)) n).
      * apply Hs1.
      * rewrite attach_length. lia.
      * rewrite attach_length. lia.
      * apply path_head. rewrite attach_length. lia.
      * rewrite attach_lookup by done.
        destruct (decide (length (heap m) = n)); [lia|].
        destruct (decide (length (heap m) = length (heap m))); done.
      * done.
Qed.

(** One iteration from node [t]: [t] is visited once more, and so is
    exactly one of its children unless the copy of the state has no legal
    action, in which case [t] itself is evaluated as a leaf. *)
Lemma step_run (fuel : nat) (t : node_id) (s : State) (m m' : Machine) :
  tree_shape (heap m) -> (t < length (heap m))%nat ->
  step math_log fuel t s m = Ok (tt, m') ->
  tree_shape (heap m') /\ (t < length (heap m'))%nat
  /\ visits_at (heap m') t = visits_at (heap m) t + 1
  /\ children_visits (heap m') t
     = children_visits (heap m) t
       + (match get_actions (copy_undeterministic s (rng m)).1 with
          | [] => 0 | _ => 1 end)
  /\ leaf_count t (trace m')
     = leaf_count t (trace m)
       + (match get_actions (copy_undeterministic s (rng m)).1 with
          | [] => 1 | _ => 0 end).
Proof.
  intros Hs Ht Hrun. unfold step, bind, clone in Hrun.
  destruct (copy_undeterministic s (rng m)) as [sc rg'] eqn:Hcopy.
  simpl in Hrun |- *.
  apply select_run in Hrun
    as (b & r & h1 & rg1 & evs & Hback & Hg & Hb & Hpath & He & Hne);
    [|done..].
  simpl in Hg, Hback.
  pose proof (grown_shape _ _ _ _ Hs Hg) as Hs1.
  unfold backpropagate in Hback. simpl in Hback.
  destruct (backpropagate_rec_spec (length h1) b r
              (mkMachine h1 rg1 (evs ++ EvClone :: trace m))
              (shape_parents _ Hs1) Hb Hb) as (h' & Hspec & Hlen & Hlook).
  simpl in Hspec, Hlen, Hlook. rewrite Hspec in Hback.
  injection Hback as <-. simpl.
  assert (Hbump : bumped h1 h' (path_to_root h1 b) r) by (by split).
  assert (Hle : (length (heap m) <= length h1)%nat).
  { destruct Hg as [[-> _]|(p & nd & a & _ & _ & -> & _)]; [done|].
    rewrite attach_length. lia. }
  destruct (lookup_lt_is_Some_2 h1 t ltac:(lia)) as [nd1 Hnd1].
  split; [by eapply shape_bumped|]. split; [lia|]. split.
  { rewrite (visits_bumped h1 h' _ r t Hbump) by lia.
    rewrite bool_decide_eq_true_2 by done.
    by rewrite (grown_visits_at _ _ _ _ t Hg). }
  rewrite (children_visits_bumped h1 h' _ r t nd1 Hs1 Hbump Hnd1).
  rewrite (path_hits_children h1 b t nd1 Hs1 Hnd1 Hpath).
  rewrite (grown_children_visits _ _ _ _ t Hs Hg Ht).
  destruct (get_actions sc) as [|a0 l0] eqn:Hacts.
  - rewrite (He eq_refl) in *. destruct (decide (t = t)); [|done].
    split; [done|].
    destruct Hg as [[_ ->]|(p & nd & a & _ & _ & _ & -> & _)]; [|lia].
    simpl. rewrite Nat.eqb_refl. lia.
  - assert (t < b)%nat by (apply Hne; intros ?; discriminate).
    destruct (decide (b = t)); [lia|]. split; [done|].
    destruct Hg as [[_ ->]|(p & nd & a & _ & _ & _ & _ & ->)]; simpl; [|lia].
    destruct (Nat.eqb_spec b t); lia.
Qed.

Lemma run_iterations_run (k fuel : nat) (t : node_id) (bs : State)
    (m m' : Machine) :
  tree_shape (heap m) -> (t < length (heap m))%nat ->
  run_iterations math_log k fuel t bs m = Ok (tt, m') ->
  tree_shape (heap m') /\ (t < length (heap m'))%nat
  /\ visits_at (heap m') t = visits_at (heap m) t + Z.of_nat k
  /\ children_visits (heap m') t + leaf_count t (trace m')
     = children_visits (heap m) t + leaf_count t (trace m) + Z.of_nat k.
Proof.
  revert m. induction k as [|k IH]; intros m Hs Ht Hrun; simpl in Hrun.
  { injection Hrun as <-. split; [done|]. split; [done|]. split; lia. }
  unfold bind at 1, clone at 1 in Hrun.
  destruct (copy_undeterministic bs (rng m)) as [sample rg'].
  unfold bind at 1 in Hrun.
  destruct (step _ _ _ _ _) as [[[] m1]| |] eqn:Hstep; try discriminate.
  apply step_run in Hstep as (Hs1 & Ht1 & Hv & Hc & Hl); [|done..].
  simpl in Hv, Hc, Hl.
  destruct (IH m1 Hs1 Ht1 Hrun) as (Hs' & Ht' & Hv' & Hsum).
  split; [done|]. split; [done|]. split; [lia|].
  rewrite Hsum, Hc, Hl.
  destruct (get_actions _); lia.
Qed.

Lemma fresh_root_shape (c : float) :
  tree_shape [mkNode (Action := Action) (Key := Key) [] None None c 0 0%float].
Proof.
  split.
  - intros [|i] nd p Hi Hp; simpl in Hi; inversion Hi; subst. done.
  - intros [|i] nd x Hi Hx; simpl in Hi; inversion Hi; subst. inversion Hx.
  - intros [|i] nd p Hi Hp; simpl in Hi; inversion Hi; subst. done.
  - intros [|i] nd Hi; simpl in Hi; inversion Hi; subst. apply NoDup_nil_2.
Qed.

(** C7.  After [N] iterations on a fresh root, the root has [N] visits and
    the visits of its direct children sum to [N] minus the number of
    iterations that evaluated the root itself as a leaf.  Equivalently,
    each iteration on a tree adds one visit to the root and one visit to
    exactly one of its children, except that it adds none to any child
    when it evaluates the root as a leaf, which is when the copy of the
    state has no legal action. *)
Theorem visit_conservation (N fuel : nat) (c : float) (bs : State)
    (rg : list nat) (tr : list event) (m' : Machine) :
  run_iterations math_log N fuel 0%nat bs
    (mkMachine [mkNode [] None None c 0 0%float] rg tr) = Ok (tt, m') ->
  visits_at (heap m') 0%nat = Z.of_nat N
  /\ children_visits (heap m') 0%nat
     = Z.of_nat N - (leaf_count 0%nat (trace m') - leaf_count 0%nat tr)
  /\ forall s m1 m2,
       tree_shape (heap m1) -> (0 < length (heap m1))%nat ->
       step math_log fuel 0%nat s m1 = Ok (tt, m2) ->
       visits_at (heap m2) 0%nat = visits_at (heap m1) 0%nat + 1
       /\ ((get_actions (copy_undeterministic s (rng m1)).1 = []
            /\ leaf_count 0%nat (trace m2)
               = leaf_count 0%nat (trace m1) + 1
            /\ children_visits (heap m2) 0%nat
               = children_visits (heap m1) 0%nat)
           \/ (get_actions (copy_undeterministic s (rng m1)).1 <> []
               /\ leaf_count 0%nat (trace m2) = leaf_count 0%nat (trace m1)
               /\ children_visits (heap m2) 0%nat
                  = children_visits (heap m1) 0%nat + 1)).
Proof.
  intros Hrun. apply run_iterations_run in Hrun as (_ & _ & Hv & Hsum).
  2:{ apply fresh_root_shape. }
  2:{ simpl. lia. }
  cbn [heap trace] in Hv, Hsum.
  change (visits_at [_] 0%nat) with 0 in Hv.
  change (children_visits [_] 0%nat) with 0 in Hsum.
  split; [lia|]. split; [lia|].
  intros s m1 m2 Hs H0 Hstep.
  apply step_run in Hstep as (_ & _ & Hv1 & Hc1 & Hl1); [|done..].
  split; [done|].
  destruct (get_actions _) as [|a0 l0].
  - left. repeat split; auto; lia.
  - right. repeat split; auto; lia.
Qed.

(** ** The driver: [get_best] and [choose_card] *)

Lemma mapM_avg_keyed (items : list (Key * (Action * node_id)))
    (keyed : list ((Action * node_id) * float)) (m m' : Machine) :
  mapM avg_keyed items m = Ok (keyed, m') ->
  keyed.*1 = items.*2 /\ m' = m.
Proof.
  revert keyed m'. induction items as [|kv items IH]; intros keyed m' Hrun.
  - inversion Hrun. done.
  - simpl in Hrun. unfold bind at 1 in Hrun. unfold avg_keyed at 1 in Hrun.
    unfold bind, get_node, lift, rbind, ret in Hrun.
    destruct (heap m !! kv.2.2) as [cn|]; [|discriminate].
    destruct (average_score cn) as [avg| |]; try discriminate.
    fold (@ret Action Key) in Hrun.
    destruct (mapM avg_keyed items m) as [[ys m1]| |] eqn:Hrest;
      try discriminate.
    injection Hrun as <- <-. destruct (IH ys m1 eq_refl) as [Heq ->].
    split; [|done]. rewrite !fmap_cons, Heq. done.
Qed.

Lemma get_best_some (t : node_id) (s : State) (m m' : Machine)
    (o : option Action) :
  get_best t s m = Ok (o, m') ->
  exists a nd,
    o = Some a /\ heap m !! t = Some nd
    /\ ((exists k c, (k, (a, c)) ∈ children nd)
        \/ (children nd = [] /\ a ∈ get_actions s)).
Proof.
  unfold get_best, bind, get_node. intros Hrun.
  destruct (heap m !! t) as [nd|] eqn:Ht; [|discriminate].
  destruct (children nd) as [|kv items] eqn:Hch.
  - unfold random_choice, ret in Hrun.
    destruct (get_actions s !! _) as [a|] eqn:Ha; [|discriminate].
    injection Hrun as <- _. exists a, nd. repeat split; auto.
    right. split; [done|]. by eapply list_elem_of_lookup_2.
  - destruct (mapM avg_keyed (kv :: items) m) as [[keyed m1]| |] eqn:Hkeyed;
      try discriminate.
    apply mapM_avg_keyed in Hkeyed as [Hfst ->].
    unfold lift, rbind, ret in Hrun.
    destruct (py_max keyed) as [[a c]| |] eqn:Hmax; try discriminate.
    injection Hrun as <- _. exists a, nd. repeat split; auto. left.
    apply py_max_elem in Hmax. rewrite Hfst in Hmax.
    apply list_elem_of_fmap in Hmax as ([k ac] & Heq & Hin).
    simpl in Heq. subst ac. rewrite Hch. by exists k, c.
Qed.

Lemma mapM_avg_keyed_scores (items : list (Key * (Action * node_id)))
    (keyed : list ((Action * node_id) * float)) (m m' : Machine) :
  mapM avg_keyed items m = Ok (keyed, m') ->
  Forall (fun ku => exists cn,
            heap m !! ku.1.2 = Some cn /\ average_score cn = Ok ku.2)
         keyed.
Proof.
  revert keyed m'. induction items as [|kv items IH]; intros keyed m' Hrun.
  - inversion Hrun. constructor.
  - simpl in Hrun. unfold bind at 1 in Hrun. unfold avg_keyed at 1 in Hrun.
    unfold bind, get_node, lift, rbind, ret in Hrun.
    destruct (heap m !! kv.2.2) as [cn|] eqn:Hcn; [|discriminate].
    destruct (average_score cn) as [avg| |] eqn:Havg; try discriminate.
    fold (@ret Action Key) in Hrun.
    destruct (mapM avg_keyed items m) as [[ys m1]| |] eqn:Hrest;
      try discriminate.
    injection Hrun as <- <-. constructor; [by exists cn|].
    by eapply IH.
Qed.

(** X13.  With a child in the map, [get_best] returns the action of a
    child of the node such that no child of the node, legal or not in the
    state it is given, has a strictly greater average score; it leaves
    the heap, the random source and the trace as they were. *)
Lemma get_best_maximal (t : node_id) (s : State) (nd : TreeNode)
    (m m' : Machine) (a : Action) :
  heap m !! t = Some nd -> children nd <> [] ->
  get_best t s m = Ok (Some a, m') ->
  m' = m
  /\ exists k c cn avg,
       (k, (a, c)) ∈ children nd /\ heap m !! c = Some cn
       /\ average_score cn = Ok avg
       /\ forall k' a' c' cn' avg',
            (k', (a', c')) ∈ children nd -> heap m !! c' = Some cn' ->
            average_score cn' = Ok avg' -> (avg <? avg')%float = false.
Proof.
  intros Ht Hch. unfold get_best, bind at 1, get_node. rewrite Ht.
  destruct (children nd) as [|kv items] eqn:Hitems; [done|]. clear Hch.
  unfold bind at 1.
  destruct (mapM avg_keyed (kv :: items) m) as [[keyed m1]| |] eqn:Hkeyed;
    try discriminate.
  pose proof (mapM_avg_keyed_scores _ _ _ _ Hkeyed) as Hall.
  apply mapM_avg_keyed in Hkeyed as [Hfst ->].
  unfold bind, lift, rbind, ret.
  destruct (py_max keyed) as [[a0 c]| |] eqn:Hmax; try discriminate.
  intros [= -> <-]. split; [done|].
  destruct (py_max_maximal _ _ Hmax) as (kb & Hin & Hmaxi).
  rewrite Forall_forall in Hall.
  destruct (Hall _ Hin) as (cn & Hcn & Havg). simpl in Hcn, Havg.
  assert (Hac : (a, c) ∈ (kv :: items).*2).
  { rewrite <- Hfst. apply list_elem_of_fmap. by exists (a, c, kb). }
  apply list_elem_of_fmap in Hac as ([k ac] & Heq & Hkin).
  simpl in Heq. subst ac.
  exists k, c, cn, kb. repeat split; auto.
  intros k' a' c' cn' avg' Hin' Hcn' Havg'.
  assert (Hac' : (a', c') ∈ keyed.*1).
  { rewrite Hfst. apply list_elem_of_fmap. by exists (k', (a', c')). }
  apply list_elem_of_fmap in Hac' as ([ac' u'] & Heq' & Hkin').
  simpl in Heq'. subst ac'.
  destruct (Hall _ Hkin') as (cn'' & Hcn'' & Hu'). simpl in Hcn'', Hu'.
  rewrite Hcn' in Hcn''. injection Hcn'' as <-.
  rewrite Havg' in Hu'. injection Hu' as ->.
  by eapply Hmaxi.
Qed.

(** X14.  With a child in the map, [get_best] does not look at the state
    it is given: the legal actions of the real state play no part in the
    choice. *)
Lemma get_best_ignores_state (t : node_id) (s1 s2 : State) (nd : TreeNode)
    (m : Machine) :
  heap m !! t = Some nd -> children nd <> [] ->
  get_best t s1 m = get_best t s2 m.
Proof.
  intros Ht Hch. unfold get_best, bind, get_node. rewrite Ht.
  destruct (children nd); done.
Qed.

(** Without a legal action, in the real state and in its copies,
    [choose_card] raises [IndexError] whatever the budget: the root never
    gets a child and [get_best] draws from the empty list. *)
Lemma run_iterations_no_actions (k fuel : nat) (bs : State)
    (h0 : list TreeNode) (nd : TreeNode) (rg : list nat) (tr : list event) :
  get_actions bs = [] ->
  (forall s r, get_actions s = [] ->
               get_actions (copy_undeterministic s r).1 = []) ->
  children nd = [] -> parent nd = None ->
  exists nd' rg' tr',
    run_iterations math_log k fuel (length h0) bs
      (mkMachine (h0 ++ [nd]) rg tr)
    = Ok (tt, mkMachine (h0 ++ [nd']) rg' tr')
    /\ children nd' = [] /\ parent nd' = None.
Proof.
  intros Hbs Hcopy. revert nd rg tr.
  induction k as [|k IH]; intros nd rg tr Hch Hpar; simpl.
  { exists nd, rg, tr. done. }
  unfold bind at 1, clone at 1. simpl.
  pose proof (Hcopy bs rg Hbs) as H1.
  destruct (copy_undeterministic bs rg) as [s1 rg1]. simpl in H1.
  unfold bind at 1, step, bind at 1, clone at 1. simpl.
  pose proof (Hcopy s1 rg1 H1) as H2.
  destruct (copy_undeterministic s1 rg1) as [s2 rg2]. simpl in H2.
  cbn [heap]. rewrite length_app, Nat.add_1_r. cbn [select]. rewrite H2.
  unfold leaf, bind, emit, backpropagate. cbn [heap rng trace].
  rewrite length_app, Nat.add_1_r. cbn [backpropagate_rec].
  unfold bind, get_node, set_node. cbn [heap rng trace].
  rewrite lookup_app_r by lia. rewrite Nat.sub_diag. simpl lookup.
  cbn beta iota. cbn [heap rng trace]. rewrite Hpar. unfold ret.
  replace (<[length h0 := record_result (score s2) nd]> (h0 ++ [nd]))
    with (h0 ++ [record_result (score s2) nd]).
  2:{ replace (length h0) with (length h0 + 0)%nat at 1 by lia.
      by rewrite insert_app_r. }
  apply IH; done.
Qed.

Lemma choose_card_no_actions (self : MCTSAgent) (fuel : nat)
    (game_state : GameState) (battle_state : State) (m : Machine) :
  get_actions battle_state = [] ->
  (forall s r, get_actions s = [] ->
               get_actions (copy_undeterministic s r).1 = []) ->
  choose_card math_log self fuel game_state battle_state m
  = Raise IndexError.
Proof.
  intros Hbs Hcopy. unfold choose_card. rewrite Hbs.
  unfold bind at 1, new_node. simpl.
  destruct (run_iterations_no_actions (Z.to_nat (iterations self)) fuel
              battle_state (heap m)
              (mkNode [] None None (agent_param self) 0 0%float) (rng m)
              (EvNewNode (length (heap m)) :: trace m) Hbs Hcopy eq_refl
              eq_refl) as (nd' & rg' & tr' & Hrun & Hch & Hpar).
  unfold bind at 1. rewrite Hrun.
  unfold bind at 1, get_best, bind at 1, get_node. simpl.
  rewrite lookup_app_r by lia. rewrite Nat.sub_diag. simpl.
  rewrite Hch, Hbs. done.
Qed.

(** C5.  When the state has exactly one legal action, [choose_card]
    returns that action in its committable form at once: the machine it
    returns is the one it was given, so no node was built, no state
    copied, no rollout run and no random number drawn. *)
Theorem choose_card_single_action (self : MCTSAgent) (fuel : nat)
    (game_state : GameState) (battle_state : State) (a : Action)
    (m : Machine) :
  get_actions battle_state = [a] ->
  choose_card math_log self fuel game_state battle_state m
  = Ok (to_action a battle_state, m).
Proof. intros Hone. unfold choose_card. rewrite Hone. done. Qed.

(** C10.  [get_best] never returns [None]: a normal return is an action
    of the children map or, when the map is empty, one of
    [state.get_actions()]; with an empty map and no legal action it
    raises [IndexError].  Hence the branch of [choose_card] for
    [best_action is None] is never taken: a normal run of [choose_card]
    prints no warning and returns an action in committable form. *)
Theorem get_best_never_none (self : MCTSAgent) (fuel : nat)
    (game_state : GameState) (battle_state : State) (t : node_id)
    (m : Machine) :
  (forall o m', get_best t battle_state m = Ok (o, m') ->
     exists a nd,
       o = Some a /\ heap m !! t = Some nd
       /\ ((exists k c, (k, (a, c)) ∈ children nd)
           \/ (children nd = [] /\ a ∈ get_actions battle_state)))
  /\ (forall nd, heap m !! t = Some nd -> children nd = [] ->
        get_actions battle_state = [] ->
        get_best t battle_state m = Raise IndexError)
  /\ (forall c m',
        choose_card math_log self fuel game_state battle_state m
        = Ok (c, m') ->
        quiet m m' /\ exists a, c = to_action a battle_state).
Proof.
  split; [|split].
  - intros o m'. apply get_best_some.
  - intros nd Ht Hch Hacts. unfold get_best, bind, get_node.
    rewrite Ht, Hch, Hacts. done.
  - intros c m'. unfold choose_card.
    destruct (get_actions battle_state) as [|a0 [|a1 l]] eqn:Hacts.
    2:{ intros [= <- <-]. split; [apply quiet_refl|by exists a0]. }
    all: unfold bind at 1; intros Hrun;
      destruct (new_node _ _ _ m) as [[t0 m1]| |] eqn:Hnew;
        try discriminate;
      unfold bind at 1 in Hrun;
      destruct (run_iterations _ _ _ _ _ m1) as [[[] m2]| |] eqn:Hit;
        try discriminate;
      unfold bind at 1 in Hrun;
      destruct (get_best t0 battle_state m2) as [[o m3]| |] eqn:Hbest;
        try discriminate;
      destruct (get_best_some _ _ _ _ _ Hbest) as (a & nd & -> & _);
      unfold bind at 1 in Hrun;
      apply silent_new_node in Hnew;
      apply silent_run_iterations in Hit;
      apply silent_get_best in Hbest;
      pose proof (quiet_trans _ _ _ (quiet_trans _ _ _ Hnew Hit) Hbest)
        as Hq;
      destruct (verbose self);
      [ destruct (print_tree t0 m3) as [[[] m4]| |] eqn:Hpr;
          try discriminate;
        injection Hrun as <- <-; split; [|by exists a];
        eapply quiet_trans; [exact Hq|];
        unfold print_tree in Hpr; by eapply silent_emit in Hpr
      | injection Hrun as <- <-; split; [exact Hq|by exists a] ].
Qed.

(** * Further properties of the search *)

(** ** The child [select] descends into *)

(** X1.  The child [max] picks in [select] is a recorded child whose key
    is still legal, and no recorded child with a legal key has a UCB-1
    score strictly greater than its score.  The heap is left as it was. *)
Theorem best_child_maximal (nd : TreeNode) (valid : list (Key * Action))
    (best : Action * node_id) (m m' : Machine) :
  best_child math_log nd valid m = Ok (best, m') ->
  m' = m
  /\ exists k cn u,
       (k, best) ∈ children nd /\ dict_mem k valid = true
       /\ heap m !! best.2 = Some cn
       /\ ucb_score math_log cn (visits nd) (param nd) = Ok u
       /\ forall kv' cn' u',
            kv' ∈ children nd -> dict_mem kv'.1 valid = true ->
            heap m !! kv'.2.2 = Some cn' ->
            ucb_score math_log cn' (visits nd) (param nd) = Ok u' ->
            (u <? u')%float = false.
Proof.
  unfold best_child, bind. intros Hrun.
  destruct (mapM _ _ m) as [[keyed0 m1]| |] eqn:Hkeyed; try discriminate.
  apply mapM_ucb_keyed in Hkeyed as (-> & Hfst & Hall).
  unfold lift, rbind in Hrun.
  destruct (py_max keyed0) as [b| |] eqn:Hmax; try discriminate.
  injection Hrun as -> <-. split; [done|].
  destruct (py_max_maximal _ _ Hmax) as (kb & Hin & Hmaxi).
  rewrite Forall_forall in Hall.
  destruct (Hall _ Hin) as (cn & Hcn & Hu). simpl in Hcn, Hu.
  assert (Hb : best ∈ (candidates nd valid).*2).
  { rewrite <- Hfst. apply list_elem_of_fmap. by exists (best, kb). }
  apply list_elem_of_fmap in Hb as ([k ac] & Heq & Hkin).
  simpl in Heq. subst ac.
  apply list_elem_of_filter in Hkin as [Hvalid Hkin]. simpl in Hvalid.
  exists k, cn, kb. repeat split; auto.
  intros kv' cn' u' Hin' Hvalid' Hcn' Hu'.
  assert (Hc' : kv'.2 ∈ keyed0.*1).
  { rewrite Hfst. apply list_elem_of_fmap. exists kv'. split; [done|].
    apply list_elem_of_filter. done. }
  apply list_elem_of_fmap in Hc' as ([ac' w] & Heq' & Hkin').
  simpl in Heq'. subst ac'.
  destruct (Hall _ Hkin') as (cn'' & Hcn'' & Hw). simpl in Hcn'', Hw.
  rewrite Hcn' in Hcn''. injection Hcn'' as <-.
  rewrite Hu' in Hw. injection Hw as ->.
  by eapply Hmaxi.
Qed.

(** ** The errors of [ucb_score] *)

Lemma ucb_score_ok (nd : TreeNode) (p : Z) (c : float) :
  0 <= visits nd < 2 ^ 63 -> (visits nd <> 0 -> 0 < p) ->
  (0 < p -> (math_log p <? 0)%float = false) ->
  exists u, ucb_score math_log nd p c = Ok u.
Proof.
  intros Hv Hp Hlog. unfold ucb_score, average_score, py_log, truediv.
  destruct (Z.eqb_spec (visits nd) 0) as [?|Hne]; [by eexists|].
  specialize (Hp Hne). rewrite float_of_int_small by lia.
  destruct (Z.leb_spec p 0) as [?|_]; [lia|].
  unfold math_sqrt, rbind. rewrite div_not_neg by auto. by eexists.
Qed.

(** X2.  On a node with a visit count that fits a machine word, and with a
    [math.log] that is not negative on positive counts, [ucb_score] has
    one way to fail: it returns a float when the node is unvisited or the
    parent count is positive, and raises [ValueError], the domain error of
    [math.log], when the node is visited and the parent count is zero or
    less.  It never divides by zero. *)
Theorem ucb_score_errors (nd : TreeNode) (p : Z) (c : float) :
  0 <= visits nd < 2 ^ 63 ->
  (0 < p -> (math_log p <? 0)%float = false) ->
  (visits nd = 0 \/ 0 < p -> exists u, ucb_score math_log nd p c = Ok u)
  /\ (visits nd <> 0 -> p <= 0 ->
      ucb_score math_log nd p c = Raise ValueError).
Proof.
  intros Hv Hlog. split.
  - intros Hok. apply ucb_score_ok; auto. intros Hne.
    destruct Hok as [?|?]; [done|lia].
  - intros Hne Hp. unfold ucb_score, average_score, py_log, truediv.
    destruct (Z.eqb_spec (visits nd) 0) as [?|_]; [done|].
    rewrite float_of_int_small by lia.
    destruct (Z.leb_spec p 0) as [_|?]; [|lia]. done.
Qed.

(** ** Expansion *)

Lemma wf_attach (h : list TreeNode) (p : node_id) (nd : TreeNode)
    (a : Action) :
  wf_parents h -> h !! p = Some nd -> wf_parents (attach h p nd a).
Proof.
  intros Hwf Hnd i y q Hi Hq.
  assert (Hp : (p < length h)%nat) by (by eapply lookup_lt_Some).
  rewrite attach_lookup in Hi by done.
  destruct (decide (i = p)) as [->|?].
  { injection Hi as <-. simpl in Hq. by eapply Hwf. }
  destruct (decide (i = length h)) as [->|?].
  { injection Hi as <-. simpl in Hq. injection Hq as <-. done. }
  by eapply Hwf.
Qed.

(** The states a normal run of the loop of [rollout] goes through. *)
Lemma rollout_loop_play (fuel : nat) (s s' : State) (m m' : Machine) :
  rollout_loop fuel s m = Ok (s', m') ->
  exists acts,
    legal_play s acts /\ s' = play s acts
    /\ rng m' = drop (length acts) (rng m).
Proof.
  revert s m. induction fuel as [|fuel IH]; intros s m Hrun; simpl in Hrun.
  { discriminate. }
  destruct (ended s) eqn:He.
  { injection Hrun as <- <-. exists []. by rewrite drop_0. }
  destruct (get_actions s) as [|a0 l0] eqn:Ha.
  { injection Hrun as <- <-. exists []. by rewrite drop_0. }
  unfold bind in Hrun.
  destruct (random_choice_ok (a0 :: l0) m) as (a & Hin & Hpick); [done|].
  rewrite Hpick in Hrun.
  destruct (IH _ _ Hrun) as (acts & Hplay & -> & Hrng). simpl in Hrng.
  exists (a :: acts). simpl. rewrite Ha, Hrng, drop_tl. done.
Qed.

(** X3.  A normal run of [expand] on a node picks one of the available
    actions, builds exactly one node, the child for that action, with the
    node as its parent, the node's parameter and fresh statistics, files
    it in the node's children under the action's key, plays the action and
    then a rollout to a state that has ended or has no action; the value of
    that state is recorded once in the child and once in the node. *)
Theorem expand_adds_child (fuel : nat) (self : node_id) (s : State)
    (available : list Action) (nd : TreeNode) (m m' : Machine) :
  wf_parents (heap m) -> heap m !! self = Some nd ->
  expand fuel self s available m = Ok (tt, m') ->
  exists a acts nd',
    a ∈ available /\ legal_play (state_step s a) acts
    /\ (ended (play (state_step s a) acts) = true
        \/ get_actions (play (state_step s a) acts) = [])
    /\ length (heap m') = S (length (heap m))
    /\ heap m' !! length (heap m)
       = Some (mkNode [] (Some self) (Some a) (param nd) 1
                 (0 + score (play (state_step s a) acts))%float)
    /\ heap m' !! self = Some nd'
    /\ children nd' = dict_set (key a) (a, length (heap m)) (children nd)
    /\ visits nd' = visits nd + 1
    /\ total_reward nd'
       = (total_reward nd + score (play (state_step s a) acts))%float.
Proof.
  intros Hwf Hnd Hrun.
  assert (Hself : (self < length (heap m))%nat) by (by eapply lookup_lt_Some).
  unfold expand, bind in Hrun. unfold random_choice at 1 in Hrun.
  destruct (available !! _) as [a|] eqn:Ha; [|discriminate].
  unfold get_node, new_node, set_node, rollout, bind, emit in Hrun.
  simpl in Hrun. rewrite Hnd in Hrun.
  destruct (rollout_loop fuel (state_step s a) _) as [[s' m1]| |] eqn:Hloop;
    try discriminate.
  pose proof (rollout_loop_exit _ _ _ _ _ Hloop) as Hend.
  pose proof (rollout_loop_same _ _ _ _ _ Hloop) as [Hh Ht].
  destruct (rollout_loop_play _ _ _ _ _ Hloop) as (acts & Hplay & -> & _).
  simpl in Hh, Ht.
  pose proof (wf_attach _ _ nd a Hwf Hnd) as Hwf1. unfold attach in Hwf1.
  rewrite <- Hh in Hwf1.
  unfold backpropagate in Hrun. cbn [heap] in Hrun.
  assert (Hlen1 : length (heap m1) = S (length (heap m))).
  { rewrite Hh, length_insert, length_app. simpl. lia. }
  destruct (backpropagate_rec_spec (length (heap m1)) (length (heap m))
              (score (play (state_step s a) acts)) m1 Hwf1) as
    (h' & Hback & Hlen & Hlook); [lia..|].
  rewrite Hback in Hrun. injection Hrun as <-. simpl.
  assert (Hnew : heap m1 !! length (heap m)
                 = Some (mkNode [] (Some self) (Some a) (param nd) 0 0%float)).
  { rewrite Hh. fold (attach (heap m) self nd a).
    rewrite attach_lookup by done.
    destruct (decide (length (heap m) = self)); [lia|].
    destruct (decide (length (heap m) = length (heap m))); done. }
  assert (Hold : heap m1 !! self
                 = Some (add_child (key a) a (length (heap m)) nd)).
  { rewrite Hh. fold (attach (heap m) self nd a).
    rewrite attach_lookup by done. destruct (decide (self = self)); done. }
  assert (Hpath : forall i, i = length (heap m) \/ i = self ->
            i ∈ ancestors (length (heap m1)) (heap m1) (length (heap m))).
  { rewrite Hlen1. intros i [-> | ->].
    - apply ancestors_head. lia.
    - simpl. rewrite Hnew. simpl. apply list_elem_of_further.
      destruct (length (heap m)) as [|d] eqn:Hd; [lia|].
      rewrite <- Hd. rewrite Hd at 1. apply ancestors_head. lia. }
  exists a, acts, (record_result (score (play (state_step s a) acts))
                     (add_child (key a) a (length (heap m)) nd)).
  split; [by eapply list_elem_of_lookup_2|]. split; [done|].
  split; [done|]. split; [lia|].
  rewrite !Hlook, !bool_decide_eq_true_2 by auto.
  rewrite Hnew, Hold. done.
Qed.

(** ** A search without iterations *)

(** X4.  With a budget of zero iterations (or a negative one) and a number
    of legal actions other than one, [choose_card] builds a root, copies
    no state, runs no rollout and returns [random.choice] of the legal
    actions of the real state: the action at the index drawn.  With no
    legal action at all this is the [IndexError] of an empty choice. *)
Theorem choose_card_zero_budget (self : MCTSAgent) (fuel : nat)
    (game_state : GameState) (battle_state : State) (m : Machine) :
  iterations self <= 0 ->
  (forall a, get_actions battle_state <> [a]) ->
  choose_card math_log self fuel game_state battle_state m
  = match get_actions battle_state
          !! (hd 0%nat (rng m) mod length (get_actions battle_state))%nat
    with
    | Some a =>
        Ok (to_action a battle_state,
            mkMachine
              (heap m
               ++ [mkNode [] None None (agent_param self) 0 0%float])
              (tl (rng m))
              ((if verbose self then [EvPrintTree] else [])
               ++ EvNewNode (length (heap m)) :: trace m))
    | None => Raise IndexError
    end.
Proof.
  intros Hit Hmany. unfold choose_card.
  destruct (get_actions battle_state) as [|a0 [|a1 l]] eqn:Hacts;
    [|by destruct (Hmany a0)|].
  all: replace (Z.to_nat (iterations self)) with 0%nat by lia.
  all: unfold bind, new_node, get_best, bind, get_node, random_choice;
    simpl.
  all: rewrite lookup_app_r by lia; rewrite Nat.sub_diag; simpl.
  all: rewrite Hacts.
  - done.
  - destruct ((a0 :: a1 :: l) !! _) as [a|]; [|done].
    simpl. destruct (verbose self); done.
Qed.

(** ** What one iteration does to the heap *)

(** One iteration from node [t]: the heap grows by at most one node, then
    the value of one evaluation is backpropagated from a node [b] below
    [t]. *)
Lemma step_effect (fuel : nat) (t : node_id) (s : State) (m m' : Machine) :
  tree_shape (heap m) -> (t < length (heap m))%nat ->
  step math_log fuel t s m = Ok (tt, m') ->
  exists b r h1 evs,
    grown (heap m) h1 b evs /\ (b < length h1)%nat
    /\ t ∈ path_to_root h1 b
    /\ bumped h1 (heap m') (path_to_root h1 b) r
    /\ trace m' = evs ++ EvClone :: trace m
    /\ (get_actions (copy_undeterministic s (rng m)).1 = [] -> b = t)
    /\ (get_actions (copy_undeterministic s (rng m)).1 <> [] -> (t < b)%nat).
Proof.
  intros Hs Ht Hrun. unfold step, bind, clone in Hrun.
  destruct (copy_undeterministic s (rng m)) as [sc rg'] eqn:Hcopy.
  simpl in Hrun |- *.
  apply select_run in Hrun
    as (b & r & h1 & rg1 & evs & Hback & Hg & Hb & Hpath & He & Hne);
    [|done..].
  simpl in Hg, Hback.
  pose proof (grown_shape _ _ _ _ Hs Hg) as Hs1.
  unfold backpropagate in Hback. simpl in Hback.
  destruct (backpropagate_rec_spec (length h1) b r
              (mkMachine h1 rg1 (evs ++ EvClone :: trace m))
              (shape_parents _ Hs1) Hb Hb) as (h' & Hspec & Hlen & Hlook).
  simpl in Hspec, Hlen, Hlook. rewrite Hspec in Hback.
  injection Hback as <-. simpl.
  exists b, r, h1, evs. repeat split; auto.
Qed.

Lemma grown_length (h h1 : list TreeNode) (b : node_id) (evs : list event) :
  grown h h1 b evs ->
  (length h1 = length h /\ evs = [EvLeaf b])
  \/ (length h1 = S (length h) /\ b = length h
      /\ evs = [EvRollout b; EvNewNode b]).
Proof.
  intros [[-> ->]|(p & nd & a & _ & _ & -> & -> & ->)]; [by left|right].
  by rewrite attach_length.
Qed.

(** The nodes of the heap before [expand], seen after it. *)
Lemma attach_old (h : list TreeNode) (p i : node_id) (nd x : TreeNode)
    (a : Action) :
  h !! p = Some nd -> dict_mem (key a) (children nd) = false ->
  h !! i = Some x ->
  exists x1,
    attach h p nd a !! i = Some x1 /\ parent x1 = parent x
    /\ action x1 = action x /\ param x1 = param x /\ visits x1 = visits x
    /\ (children x1 = children x
        \/ (i = p /\ children x1
                     = children x ++ [(key a, (a, length h))])).
Proof.
  intros Hp Hfresh Hi.
  assert (Hlt : (p < length h)%nat) by (by eapply lookup_lt_Some).
  assert (Hi' : (i < length h)%nat) by (by eapply lookup_lt_Some).
  rewrite attach_lookup by done.
  destruct (decide (i = p)) as [->|Hne].
  - rewrite Hp in Hi. injection Hi as <-. eexists. split; [done|].
    repeat split. right. split; [done|]. simpl. by apply dict_set_fresh.
  - destruct (decide (i = length h)); [lia|].
    exists x. repeat split; auto.
Qed.

(** The nodes of the heap after [expand]: the new one, or an old one. *)
Lemma attach_inv (h : list TreeNode) (p i : node_id) (nd x1 : TreeNode)
    (a : Action) :
  h !! p = Some nd -> dict_mem (key a) (children nd) = false ->
  attach h p nd a !! i = Some x1 ->
  (i = length h
   /\ x1 = mkNode [] (Some p) (Some a) (param nd) 0 0%float)
  \/ (exists x,
        h !! i = Some x /\ parent x1 = parent x /\ action x1 = action x
        /\ param x1 = param x /\ visits x1 = visits x
        /\ (children x1 = children x
            \/ (i = p /\ children x1
                         = children x ++ [(key a, (a, length h))]))).
Proof.
  intros Hp Hfresh Hi.
  assert (Hlt : (p < length h)%nat) by (by eapply lookup_lt_Some).
  destruct (decide (i = length h)) as [->|Hne].
  - left. rewrite attach_lookup in Hi by done.
    destruct (decide (length h = p)); [lia|].
    destruct (decide (length h = length h)); [|done].
    by injection Hi as <-.
  - right.
    assert (Hi' : (i < length h)%nat).
    { apply lookup_lt_Some in Hi. rewrite attach_length in Hi. lia. }
    destruct (lookup_lt_is_Some_2 h i Hi') as [x Hx].
    destruct (attach_old h p i nd x a Hp Hfresh Hx) as (x1' & Hx1 & Hrest).
    rewrite Hi in Hx1. injection Hx1 as <-. by exists x.
Qed.

Lemma bumped_fields (h h' : list TreeNode) (path : list node_id) (r : float)
    (i : node_id) (x' : TreeNode) :
  bumped h h' path r -> h' !! i = Some x' ->
  exists x, h !! i = Some x /\ parent x' = parent x
            /\ children x' = children x /\ action x' = action x
            /\ param x' = param x
            /\ visits x'
               = visits x + (if bool_decide (i ∈ path) then 1 else 0).
Proof.
  intros [_ Hb] Hi. rewrite Hb in Hi.
  destruct (bool_decide (i ∈ path)).
  - destruct (h !! i) as [x|]; [|done]. injection Hi as <-.
    exists x. simpl. done.
  - exists x'. repeat split; auto. lia.
Qed.

Lemma bumped_fields_inv (h h' : list TreeNode) (path : list node_id)
    (r : float) (i : node_id) (x : TreeNode) :
  bumped h h' path r -> h !! i = Some x ->
  exists x', h' !! i = Some x' /\ parent x' = parent x
             /\ children x' = children x /\ action x' = action x
             /\ param x' = param x
             /\ visits x'
                = visits x + (if bool_decide (i ∈ path) then 1 else 0).
Proof.
  intros [_ Hb] Hi. rewrite Hb, Hi.
  destruct (bool_decide (i ∈ path)); eexists; (split; [done|]); simpl;
    repeat split; lia.
Qed.

(** *** The keys and the parameter *)

Lemma keyed_attach (h : list TreeNode) (p : node_id) (nd : TreeNode)
    (a : Action) :
  keyed h -> h !! p = Some nd -> dict_mem (key a) (children nd) = false ->
  keyed (attach h p nd a).
Proof.
  intros Hk Hp Hfresh n x1 k a' c Hn Hin.
  assert (Hlt : (p < length h)%nat) by (by eapply lookup_lt_Some).
  assert (Hold : forall x, h !! n = Some x -> (k, (a', c)) ∈ children x ->
    k = key a'
    /\ exists cd, attach h p nd a !! c = Some cd /\ action cd = Some a').
  { intros x Hx Hinx. destruct (Hk n x k a' c Hx Hinx) as (-> & cd & Hcd & Ha).
    split; [done|].
    destruct (attach_old h p c nd cd a Hp Hfresh Hcd)
      as (cd1 & Hcd1 & _ & Hact & _).
    exists cd1. split; [done|]. congruence. }
  destruct (attach_inv h p n nd x1 a Hp Hfresh Hn)
    as [[-> ->]|(x & Hx & _ & _ & _ & _ & Hch)].
  { inversion Hin. }
  destruct Hch as [Hch|[-> Hch]]; rewrite Hch in Hin; [by eapply Hold|].
  apply elem_of_app in Hin as [Hin|Hin]; [by eapply Hold|].
  apply list_elem_of_singleton in Hin. injection Hin as -> -> ->.
  split; [done|]. rewrite attach_lookup by done.
  destruct (decide (length h = p)); [lia|].
  destruct (decide (length h = length h)); [|done].
  eexists. split; [done|]. done.
Qed.

Lemma keyed_bumped (h h' : list TreeNode) (path : list node_id) (r : float) :
  keyed h -> bumped h h' path r -> keyed h'.
Proof.
  intros Hk Hb n x' k a c Hn Hin.
  destruct (bumped_fields _ _ _ _ _ _ Hb Hn) as (x & Hx & _ & Hch & _).
  rewrite Hch in Hin.
  destruct (Hk n x k a c Hx Hin) as (-> & cd & Hcd & Ha).
  split; [done|].
  destruct (bumped_fields_inv _ _ _ _ _ _ Hb Hcd)
    as (cd' & Hcd' & _ & _ & Ha' & _).
  exists cd'. split; [done|]. congruence.
Qed.

Lemma same_param_attach (c0 : float) (h : list TreeNode) (p : node_id)
    (nd : TreeNode) (a : Action) :
  same_param c0 h -> h !! p = Some nd ->
  dict_mem (key a) (children nd) = false ->
  same_param c0 (attach h p nd a).
Proof.
  intros Hc Hp Hfresh n x1 Hn.
  destruct (attach_inv h p n nd x1 a Hp Hfresh Hn)
    as [[-> ->]|(x & Hx & _ & _ & Hpar & _)].
  - simpl. by eapply Hc.
  - rewrite Hpar. by eapply Hc.
Qed.

Lemma same_param_bumped (c0 : float) (h h' : list TreeNode)
    (path : list node_id) (r : float) :
  same_param c0 h -> bumped h h' path r -> same_param c0 h'.
Proof.
  intros Hc Hb n x' Hn.
  destruct (bumped_fields _ _ _ _ _ _ Hb Hn) as (x & Hx & _ & _ & _ & Hp & _).
  rewrite Hp. by eapply Hc.
Qed.

Lemma keyed_grown (h h1 : list TreeNode) (b : node_id) (evs : list event) :
  keyed h -> grown h h1 b evs -> keyed h1.
Proof.
  intros Hk [[-> _]|(p & nd & a & Hp & Hfresh & -> & _)]; [done|].
  by apply keyed_attach.
Qed.

Lemma same_param_grown (c0 : float) (h h1 : list TreeNode) (b : node_id)
    (evs : list event) :
  same_param c0 h -> grown h h1 b evs -> same_param c0 h1.
Proof.
  intros Hk [[-> _]|(p & nd & a & Hp & Hfresh & -> & _)]; [done|].
  by apply same_param_attach.
Qed.

(** A node that was in the heap before [select] ran is still there, with
    the children it had listed first. *)
Lemma grown_fields (h h1 : list TreeNode) (b : node_id) (evs : list event)
    (i : node_id) (x : TreeNode) :
  grown h h1 b evs -> h !! i = Some x ->
  exists x1, h1 !! i = Some x1 /\ parent x1 = parent x
             /\ action x1 = action x /\ param x1 = param x
             /\ visits x1 = visits x
             /\ children x `prefix_of` children x1.
Proof.
  intros [[-> _]|(p & nd & a & Hp & Hfresh & -> & _)] Hi.
  { exists x. repeat split; auto. }
  destruct (attach_old h p i nd x a Hp Hfresh Hi)
    as (x1 & Hx1 & Hpar & Hact & Hprm & Hv & Hch).
  exists x1. repeat split; auto.
  destruct Hch as [->|[_ ->]]; [done|]. by apply prefix_app_r.
Qed.

(** *** The visit counts *)

Lemma count_app (p : event -> bool) (l1 l2 : list event) :
  count p (l1 ++ l2) = count p l1 + count p l2.
Proof. unfold count. rewrite List.filter_app, length_app. lia. Qed.

Lemma count_cons (p : event -> bool) (e : event) (l : list event) :
  count p (e :: l) = (if p e then 1 else 0) + count p l.
Proof. unfold count. simpl. destruct (p e); simpl length; lia. Qed.

Lemma count_nil (p : event -> bool) : count p [] = 0.
Proof. done. Qed.

Lemma starts_at_fresh (bound : nat) (t : node_id) (tr : list event) :
  names_below bound tr -> (bound <= t)%nat -> count (starts_at t) tr = 0.
Proof.
  intros Hnb Hle. induction Hnb as [|e tr He _ IH]; [done|].
  rewrite count_cons, IH.
  destruct e as [n| |n|n| |msg]; simpl; try done;
    destruct (Nat.eqb_spec n t); lia.
Qed.

Lemma grown_counted (K : Z) (h h1 : list TreeNode) (b : node_id)
    (evs : list event) (n : node_id) (x1 : TreeNode) :
  counted K h -> grown h h1 b evs -> h1 !! n = Some x1 ->
  0 <= visits x1 <= K
  /\ forall p, parent x1 = Some p ->
       1 <= visits x1 <= visits_at h1 p
       \/ (n = b /\ visits x1 = 0 /\ 0 <= visits_at h1 p).
Proof.
  intros Hc [[-> ->]|(p0 & nd & a & Hp & Hfresh & -> & -> & ->)] Hn.
  { destruct (Hc n x1 Hn) as [H1 H2]. split; [done|].
    intros p Hpar. left. by apply H2. }
  destruct (attach_inv h p0 n nd x1 a Hp Hfresh Hn)
    as [[-> ->]|(x & Hx & Hpar & _ & _ & Hv & _)].
  - simpl. destruct (Hc p0 nd Hp) as [H1 _]. split; [lia|].
    intros p [= <-]. right. split; [done|]. split; [done|].
    destruct (attach_old h p0 p0 nd nd a Hp Hfresh Hp)
      as (y & Hy & _ & _ & _ & Hvy & _).
    unfold visits_at. rewrite Hy. lia.
  - destruct (Hc n x Hx) as [H1 H2]. rewrite Hv. split; [done|].
    intros p Hp'. left. rewrite Hpar in Hp'. specialize (H2 p Hp').
    unfold visits_at in H2 |- *.
    destruct (h !! p) as [y|] eqn:Hy; [|lia].
    destruct (attach_old h p0 p nd y a Hp Hfresh Hy)
      as (y1 & Hy1 & _ & _ & _ & Hvy & _).
    rewrite Hy1. lia.
Qed.

Lemma counted_step (K : Z) (h h1 h' : list TreeNode) (b : node_id)
    (evs : list event) (r : float) :
  tree_shape h -> counted K h -> grown h h1 b evs -> (b < length h1)%nat ->
  bumped h1 h' (path_to_root h1 b) r -> counted (K + 1) h'.
Proof.
  intros Hs Hc Hg Hb Hbump n x' Hn.
  pose proof (grown_shape _ _ _ _ Hs Hg) as Hs1.
  destruct (bumped_fields _ _ _ _ _ _ Hbump Hn)
    as (x1 & Hx1 & Hpar & _ & _ & _ & Hv).
  destruct (grown_counted K h h1 b evs n x1 Hc Hg Hx1) as [H1 H2].
  split. { destruct (bool_decide _); lia. }
  intros p Hp. rewrite Hpar in Hp.
  assert (Hlt : (p < length h1)%nat).
  { pose proof (shape_parents _ Hs1 n x1 p Hx1 Hp).
    apply lookup_lt_Some in Hx1. lia. }
  rewrite (visits_bumped _ _ _ _ p Hbump Hlt).
  assert (Hmono : n ∈ path_to_root h1 b -> p ∈ path_to_root h1 b).
  { intros Hin.
    apply (ancestors_parent (length h1) h1 b n p x1); auto.
    by apply shape_parents. }
  destruct (H2 p Hp) as [H3|(-> & H3 & H4)].
  - rewrite Hv. do 2 case_bool_decide; try lia. tauto.
  - pose proof (path_head h1 b Hb) as Hhead. rewrite Hv.
    rewrite !bool_decide_eq_true_2 by auto. lia.
Qed.

Lemma path_misses_children (h : list TreeNode) (b t : node_id)
    (nd : TreeNode) :
  tree_shape h -> (b < length h)%nat -> h !! t = Some nd ->
  t ∉ path_to_root h b -> hits (path_to_root h b) (child_ids nd) = 0.
Proof.
  intros Hs Hb Ht Hnot. apply hits_zero. intros c Hc Hin.
  destruct (shape_children _ Hs t nd c Ht Hc) as (cd & Hcd & Hpar).
  apply Hnot. apply (ancestors_parent (length h) h b c t cd); auto.
  by apply shape_parents.
Qed.

Lemma conserved_step (h h1 h' : list TreeNode) (b : node_id)
    (evs tr : list event) (r : float) :
  tree_shape h -> conserved h tr -> names_below (length h) tr ->
  grown h h1 b evs -> (b < length h1)%nat ->
  bumped h1 h' (path_to_root h1 b) r ->
  conserved h' (evs ++ tr) /\ names_below (length h') (evs ++ tr).
Proof.
  intros Hs Hc Hnb Hg Hb Hbump.
  pose proof (grown_shape _ _ _ _ Hs Hg) as Hs1.
  pose proof (grown_length _ _ _ _ Hg) as Hlen.
  split.
  - intros t x' Ht.
    destruct (bumped_fields _ _ _ _ _ _ Hbump Ht)
      as (x1 & Hx1 & _ & _ & _ & _ & Hv).
    rewrite (children_visits_bumped _ _ _ _ t x1 Hs1 Hbump Hx1), count_app.
    assert (He : count (starts_at t) evs = if decide (b = t) then 1 else 0).
    { destruct Hlen as [[_ ->]|(_ & _ & ->)];
        rewrite !count_cons, count_nil; simpl;
        destruct (Nat.eqb_spec b t); destruct (decide (b = t)); done. }
    assert (Hbase : visits x1 = children_visits h1 t + count (starts_at t) tr).
    { pose proof Hg as Hg'.
      destruct Hg as [[-> ->]|(p0 & nd & a & Hp & Hfresh & -> & -> & ->)].
      { by apply Hc. }
      destruct (attach_inv h p0 t nd x1 a Hp Hfresh Hx1)
        as [[-> ->]|(x & Hx & _ & _ & _ & Hv1 & _)].
      - rewrite (starts_at_fresh _ _ _ Hnb) by lia.
        unfold children_visits. rewrite Hx1. done.
      - rewrite Hv1, (grown_children_visits _ _ _ _ t Hs Hg').
        + by apply Hc.
        + by eapply lookup_lt_Some. }
    rewrite Hv, Hbase, He. case_bool_decide as Hin.
    + rewrite (path_hits_children h1 b t x1 Hs1 Hx1 Hin).
      destruct (decide (b = t)); lia.
    + rewrite (path_misses_children h1 b t x1) by done.
      destruct (decide (b = t)) as [->|]; [|lia].
      exfalso. by apply Hin, path_head.
  - destruct Hbump as [Hl' _]. rewrite Hl'. apply Forall_app. split.
    + destruct Hlen as [[_ ->]|(_ & _ & ->)]; repeat constructor; done.
    + eapply Forall_impl; [exact Hnb|]. intros e He.
      destruct e; try done; destruct Hlen as [[? _]|[? _]]; lia.
Qed.

(** *** Induction over the iterations *)

(** A property of the heap and the trace that every iteration keeps is
    kept by the whole loop of [choose_card]. *)
Lemma run_iterations_invariant (t : node_id)
    (I : nat -> list TreeNode -> list event -> Prop) :
  (forall k h tr h1 h' b r evs,
     tree_shape h -> (t < length h)%nat -> I k h tr ->
     grown h h1 b evs -> (b < length h1)%nat ->
     t ∈ path_to_root h1 b ->
     bumped h1 h' (path_to_root h1 b) r ->
     I (S k) h' (evs ++ EvClone :: EvClone :: tr)) ->
  forall (k k0 fuel : nat) (bs : State) (m m' : Machine),
    tree_shape (heap m) -> (t < length (heap m))%nat ->
    I k0 (heap m) (trace m) ->
    run_iterations math_log k fuel t bs m = Ok (tt, m') ->
    I (k0 + k)%nat (heap m') (trace m').
Proof.
  intros Hstep. induction k as [|k IH]; intros k0 fuel bs m m' Hs Ht HI Hrun.
  { injection Hrun as <-. by rewrite Nat.add_0_r. }
  simpl in Hrun. unfold bind at 1, clone at 1 in Hrun.
  destruct (copy_undeterministic bs (rng m)) as [s1 rg1] eqn:Hcopy.
  unfold bind at 1 in Hrun.
  destruct (step math_log fuel t s1 _) as [[[] m1]| |] eqn:Hstep1;
    try discriminate.
  apply step_effect in Hstep1
    as (b & r & h1 & evs & Hg & Hb & Hpath & Hbump & Htr & _); [|done..].
  simpl in Hg, Htr.
  pose proof (grown_shape _ _ _ _ Hs Hg) as Hs1.
  replace (k0 + S k)%nat with (S k0 + k)%nat by lia.
  apply (IH (S k0) fuel bs m1 m'); [| |..|done].
  - by eapply shape_bumped.
  - destruct Hbump as [-> _].
    destruct (grown_length _ _ _ _ Hg) as [[-> _]|[-> _]]; lia.
  - rewrite Htr. by apply (Hstep k0 (heap m) (trace m) h1 (heap m1) b r evs).
Qed.

(** X5.  The loop of [choose_card] keeps the tree well formed.  If before
    the iterations every child is listed once by its parent and by no
    other node, is filed under the key of the action it records, carries
    the exploration parameter of the tree, has been visited at least once
    and not more often than its parent, and no node has more than [K]
    visits, then the same holds after [k] iterations, with [K + k] for
    [K].  So inside a search [ucb_score] never sees a child with
    [visits == 0], and the visit count of a parent, whose logarithm it
    takes, is at least 1. *)
Theorem search_keeps_tree (k fuel : nat) (t : node_id) (bs : State)
    (c0 : float) (K : Z) (m m' : Machine) :
  searched c0 K (heap m) -> (t < length (heap m))%nat ->
  run_iterations math_log k fuel t bs m = Ok (tt, m') ->
  searched c0 (K + Z.of_nat k) (heap m').
Proof.
  intros Hsearched Ht Hrun.
  refine (run_iterations_invariant t
            (fun k h _ => searched c0 (K + Z.of_nat k) h)
            _ k O fuel bs m m' _ Ht _ Hrun).
  - intros k' h tr h1 h' b r evs Hs' Ht' [_ Hk Hp Hc] Hg Hb _ Hbump.
    split.
    + eapply shape_bumped; [|done]. by eapply grown_shape.
    + eapply keyed_bumped; [|done]. by eapply keyed_grown.
    + eapply same_param_bumped; [|done]. by eapply same_param_grown.
    + replace (K + Z.of_nat (S k')) with (K + Z.of_nat k' + 1) by lia.
      by eapply counted_step.
  - by destruct Hsearched.
  - by rewrite Z.add_0_r.
Qed.

(** X6.  Visit conservation holds at every node, not only at the root:
    when the loop of [choose_card] starts from a tree in which the visits
    of each node are the visits of its children plus the number of
    evaluations (leaf evaluations and rollouts) made at the node itself,
    the same is true of every node after any number of iterations. *)
Theorem visits_conserved_everywhere (k fuel : nat) (t : node_id)
    (bs : State) (m m' : Machine) :
  tree_shape (heap m) -> (t < length (heap m))%nat ->
  conserved (heap m) (trace m) ->
  names_below (length (heap m)) (trace m) ->
  run_iterations math_log k fuel t bs m = Ok (tt, m') ->
  conserved (heap m') (trace m')
  /\ names_below (length (heap m')) (trace m').
Proof.
  intros Hs Ht Hc Hnb Hrun.
  refine (run_iterations_invariant t
            (fun _ h tr => conserved h tr /\ names_below (length h) tr)
            _ k O fuel bs m m' Hs Ht _ Hrun); [|done].
  intros _ h tr h1 h' b r evs Hs' Ht' [Hc' Hnb'] Hg Hb _ Hbump.
  apply (conserved_step h h1 h' b evs (EvClone :: EvClone :: tr) r);
    try done.
  by repeat constructor.
Qed.

(** X7.  What [k] iterations do, counted.  Every iteration copies the
    state twice (once in [choose_card], once more in [step]) and makes
    exactly one evaluation, a leaf evaluation or a rollout; every rollout
    is made on a node that was just built, and these are the only nodes
    built, so the heap grows by the number of rollouts, at most one node
    per iteration. *)
Theorem search_event_counts (k fuel : nat) (t : node_id) (bs : State)
    (m m' : Machine) :
  tree_shape (heap m) -> (t < length (heap m))%nat ->
  run_iterations math_log k fuel t bs m = Ok (tt, m') ->
  count is_clone (trace m') = count is_clone (trace m) + 2 * Z.of_nat k
  /\ count is_leaf (trace m') + count is_rollout (trace m')
     = count is_leaf (trace m) + count is_rollout (trace m) + Z.of_nat k
  /\ count is_rollout (trace m') - count is_rollout (trace m)
     = Z.of_nat (length (heap m')) - Z.of_nat (length (heap m))
  /\ count is_new_node (trace m') - count is_new_node (trace m)
     = Z.of_nat (length (heap m')) - Z.of_nat (length (heap m)).
Proof.
  intros Hs Ht Hrun.
  refine (run_iterations_invariant t
    (fun k h tr =>
       count is_clone tr = count is_clone (trace m) + 2 * Z.of_nat k
       /\ count is_leaf tr + count is_rollout tr
          = count is_leaf (trace m) + count is_rollout (trace m) + Z.of_nat k
       /\ count is_rollout tr - count is_rollout (trace m)
          = Z.of_nat (length h) - Z.of_nat (length (heap m))
       /\ count is_new_node tr - count is_new_node (trace m)
          = Z.of_nat (length h) - Z.of_nat (length (heap m)))
    _ k O fuel bs m m' Hs Ht _ Hrun); [|lia].
  intros k' h tr h1 h' b r evs _ _ (H1 & H2 & H3 & H4) Hg _ _ [Hl _].
  rewrite Hl.
  destruct (grown_length _ _ _ _ Hg) as [[-> ->]|(-> & _ & ->)];
    rewrite ?count_app, ?count_cons, ?count_nil; simpl; lia.
Qed.

(** X8.  The search never deletes, moves or re-parents a node.  A node
    of the heap is, after any number of iterations, still at its index
    with the same parent, action and exploration parameter; its visits
    have not gone down and have gone up by at most one per iteration;
    the entries of its children dictionary are still there, in their
    order, with new entries only added behind them. *)
Theorem search_keeps_nodes (k fuel : nat) (t : node_id) (bs : State)
    (m m' : Machine) (i : node_id) (x : TreeNode) :
  tree_shape (heap m) -> (t < length (heap m))%nat ->
  run_iterations math_log k fuel t bs m = Ok (tt, m') ->
  heap m !! i = Some x ->
  exists x',
    heap m' !! i = Some x' /\ parent x' = parent x
    /\ action x' = action x /\ param x' = param x
    /\ visits x <= visits x' <= visits x + Z.of_nat k
    /\ children x `prefix_of` children x'.
Proof.
  intros Hs Ht Hrun Hi.
  refine (run_iterations_invariant t
    (fun k h _ =>
       exists x',
         h !! i = Some x' /\ parent x' = parent x
         /\ action x' = action x /\ param x' = param x
         /\ visits x <= visits x' <= visits x + Z.of_nat k
         /\ children x `prefix_of` children x')
    _ k O fuel bs m m' Hs Ht _ Hrun).
  - intros k' h tr h1 h' b r evs _ _
      (x0 & Hx0 & Hpar & Hact & Hprm & Hv & Hch) Hg _ _ Hbump.
    destruct (grown_fields _ _ _ _ _ _ Hg Hx0)
      as (x1 & Hx1 & Hpar1 & Hact1 & Hprm1 & Hv1 & Hch1).
    destruct (bumped_fields_inv _ _ _ _ _ _ Hbump Hx1)
      as (x2 & Hx2 & Hpar2 & Hch2 & Hact2 & Hprm2 & Hv2).
    exists x2. split; [done|]. repeat split; try congruence.
    + destruct (bool_decide _); lia.
    + destruct (bool_decide _); lia.
    + rewrite Hch2. by etrans.
  - exists x. repeat split; auto; lia.
Qed.

(** ** The search returns *)

Lemma backpropagate_ok (n : node_id) (r : float) (m : Machine) :
  wf_parents (heap m) -> (n < length (heap m))%nat ->
  exists h',
    backpropagate n r m = Ok (tt, mkMachine h' (rng m) (trace m))
    /\ bumped (heap m) h' (path_to_root (heap m) n) r.
Proof.
  intros Hwf Hn.
  destruct (backpropagate_rec_spec (length (heap m)) n r m Hwf Hn Hn)
    as (h' & Hrun & Hlen & Hlook).
  exists h'. split; [done|]. by split.
Qed.

Lemma leaf_ok (self : node_id) (s : State) (m : Machine) :
  wf_parents (heap m) -> (self < length (heap m))%nat ->
  exists h',
    leaf self s m
    = Ok (tt, mkMachine h' (rng m) (EvLeaf self :: trace m))
    /\ bumped (heap m) h' (path_to_root (heap m) self) (score s).
Proof.
  intros Hwf Hn. unfold leaf, bind, emit.
  destruct (backpropagate_ok self (score s)
              (mkMachine (heap m) (rng m) (EvLeaf self :: trace m)) Hwf Hn)
    as (h' & Hrun & Hb).
  exists h'. by rewrite Hrun.
Qed.

Lemma expand_ok (n fuel : nat) (self : node_id) (s : State)
    (available : list Action) (nd : TreeNode) (m : Machine) :
  (forall s', settles n s' = true) -> (n < fuel)%nat ->
  wf_parents (heap m) -> heap m !! self = Some nd -> available <> [] ->
  exists m', expand fuel self s available m = Ok (tt, m').
Proof.
  intros Hset Hfuel Hwf Hnd Hne.
  assert (Hself : (self < length (heap m))%nat) by (by eapply lookup_lt_Some).
  destruct (random_choice_ok available m Hne) as (a & Hin & Hrc).
  unfold expand. unfold bind at 1. rewrite Hrc.
  unfold bind at 1, get_node. cbn [heap rng trace]. rewrite Hnd.
  unfold bind at 1, new_node. cbn [heap rng trace].
  unfold bind at 1, set_node. cbn [heap rng trace].
  unfold rollout. unfold bind at 1, emit. cbn [heap rng trace].
  unfold bind.
  match goal with
  | |- context [rollout_loop fuel ?s1 ?m1] =>
      destruct (rollout_loop_settles n fuel s1 m1 (Hset s1) Hfuel)
        as (acts & _ & _ & _ & Hloop)
  end.
  rewrite Hloop. cbn [heap rng trace].
  fold (attach (heap m) self nd a).
  match goal with
  | |- context [backpropagate ?b ?r ?m2] =>
      destruct (backpropagate_ok b r m2) as (h' & Hb & _)
  end.
  - cbn [heap]. exact (wf_attach _ _ nd a Hwf Hnd).
  - cbn [heap]. rewrite attach_length. lia.
  - rewrite Hb. by eexists.
Qed.

Lemma mapM_ok {A B} (f : A -> M B) (l : list A) (m : Machine) :
  (forall x, x ∈ l -> exists y, f x m = Ok (y, m)) ->
  exists ys, mapM f l m = Ok (ys, m) /\ length ys = length l.
Proof.
  induction l as [|x l IH]; intros Hf; simpl.
  { by exists []. }
  destruct (Hf x) as [y Hy]; [apply list_elem_of_here|].
  destruct IH as (ys & Hys & Hlen).
  { intros x' Hx'. apply Hf. by apply list_elem_of_further. }
  exists (y :: ys). unfold bind, ret. rewrite Hy, Hys. simpl.
  by rewrite Hlen.
Qed.

Lemma best_child_candidate (nd : TreeNode) (valid : list (Key * Action))
    (best : Action * node_id) (m m' : Machine) :
  best_child math_log nd valid m = Ok (best, m') ->
  exists k, (k, best) ∈ children nd /\ dict_mem k valid = true.
Proof.
  unfold best_child, bind. intros Hrun.
  destruct (mapM _ _ m) as [[keyed m1]| |] eqn:Hkeyed; try discriminate.
  apply mapM_ucb_keyed in Hkeyed as (-> & Hfst & _).
  unfold lift, rbind in Hrun.
  destruct (py_max keyed) as [b| |] eqn:Hmax; try discriminate.
  injection Hrun as -> <-.
  apply py_max_elem in Hmax. rewrite Hfst in Hmax.
  apply list_elem_of_fmap in Hmax as ([k v] & -> & Hkv).
  apply list_elem_of_filter in Hkv as [Hmem Hkv].
  by exists k.
Qed.

Lemma best_child_ok (K : Z) (self : node_id) (nd : TreeNode)
    (valid : list (Key * Action)) (m : Machine) :
  K < 2 ^ 63 ->
  (forall p, 0 < p -> (math_log p <? 0)%float = false) ->
  tree_shape (heap m) -> counted K (heap m) ->
  heap m !! self = Some nd -> candidates nd valid <> [] ->
  exists best, best_child math_log nd valid m = Ok (best, m).
Proof.
  intros HK Hlog Hs Hc Hnd Hcand. unfold best_child, bind.
  destruct (mapM_ok (ucb_keyed math_log nd) (candidates nd valid) m)
    as (ys & Hys & Hlen).
  { intros kv Hkv. apply list_elem_of_filter in Hkv as [_ Hkv].
    assert (Hin : kv.2.2 ∈ child_ids nd).
    { unfold child_ids. apply list_elem_of_fmap. exists kv.2.
      split; [done|]. apply list_elem_of_fmap. by exists kv. }
    destruct (shape_children _ Hs self nd _ Hnd Hin) as (cd & Hcd & Hpar).
    destruct (Hc _ cd Hcd) as [Hv Hp]. specialize (Hp self Hpar).
    unfold visits_at in Hp. rewrite Hnd in Hp.
    destruct (ucb_score_ok cd (visits nd) (param nd)) as [u Hu];
      [lia|lia|auto|].
    exists (kv.2, u). unfold ucb_keyed, bind, get_node. rewrite Hcd.
    unfold lift, rbind. by rewrite Hu. }
  rewrite Hys. unfold lift, rbind.
  destruct ys as [|[x k] ys].
  { destruct (candidates nd valid); [done|discriminate]. }
  simpl. by eexists.
Qed.

(** [select] returns on a tree the search has built. *)
Lemma select_ok (n fuel : nat) (K : Z) :
  (forall s, settles n s = true) -> (n < fuel)%nat -> K < 2 ^ 63 ->
  (forall p, 0 < p -> (math_log p <? 0)%float = false) ->
  forall (depth : nat) (self : node_id) (s : State) (m : Machine),
    tree_shape (heap m) -> keyed (heap m) -> counted K (heap m) ->
    (self < length (heap m))%nat -> (length (heap m) <= depth + self)%nat ->
    exists m', select math_log depth fuel self s m = Ok (tt, m').
Proof.
  intros Hset Hfuel HK Hlog.
  induction depth as [|depth IH]; intros self s m Hs Hk Hc Hself Hd.
  { lia. }
  pose proof (shape_parents _ Hs) as Hwf.
  simpl. destruct (get_actions s) as [|a0 l0] eqn:Ha.
  { destruct (leaf_ok self s m Hwf Hself) as (h' & Hrun & _).
    rewrite Hrun. by eexists. }
  destruct (lookup_lt_is_Some_2 _ _ Hself) as [nd Hnd].
  unfold bind at 1, get_node. rewrite Hnd.
  destruct (unexplored_of nd (a0 :: l0)) as [|u us] eqn:Hun.
  2:{ by apply (expand_ok n fuel self s (u :: us) nd m). }
  destruct (unexplored_nil_candidates nd (a0 :: l0)) as [Hch Hcand];
    [done|done|].
  destruct (children nd) as [|kv0 ch] eqn:Hchildren; [done|].
  destruct (best_child_ok K self nd (valid_actions_of (a0 :: l0)) m)
    as [[a c] Hbest]; try done.
  unfold bind. rewrite Hbest. cbn [fst snd].
  destruct (best_child_candidate _ _ _ _ _ Hbest) as (k & Hin & Hmem).
  destruct (Hk self nd k a c Hnd Hin) as (-> & _).
  unfold dict_mem in Hmem.
  destruct (dict_get (key a) (valid_actions_of (a0 :: l0))) as [a'|];
    [|discriminate].
  assert (Hc' : c ∈ child_ids nd).
  { unfold child_ids. apply list_elem_of_fmap. exists (a, c).
    split; [done|]. apply list_elem_of_fmap. by exists (key a, (a, c)). }
  destruct (shape_children _ Hs self nd c Hnd Hc') as (cd & Hcd & Hpar).
  pose proof (Hwf c cd self Hcd Hpar) as Hlt.
  apply IH; try done.
  - by eapply lookup_lt_Some.
  - lia.
Qed.

Lemma step_ok (n fuel : nat) (K : Z) (t : node_id) (s : State)
    (m : Machine) :
  (forall s, settles n s = true) -> (n < fuel)%nat -> K < 2 ^ 63 ->
  (forall p, 0 < p -> (math_log p <? 0)%float = false) ->
  tree_shape (heap m) -> keyed (heap m) -> counted K (heap m) ->
  (t < length (heap m))%nat ->
  exists m', step math_log fuel t s m = Ok (tt, m').
Proof.
  intros Hset Hfuel HK Hlog Hs Hk Hc Ht. unfold step, bind, clone.
  destruct (copy_undeterministic s (rng m)) as [sc rg'].
  cbn [heap]. apply (select_ok n fuel K); try done. cbn [heap]. lia.
Qed.

(** The loop of [choose_card] returns, and keeps the tree as it should
    be. *)
Lemma run_iterations_ok (n fuel : nat) :
  (forall s, settles n s = true) -> (n < fuel)%nat ->
  (forall p, 0 < p -> (math_log p <? 0)%float = false) ->
  forall (k : nat) (K : Z) (t : node_id) (bs : State) (m : Machine),
    K + Z.of_nat k < 2 ^ 63 ->
    tree_shape (heap m) -> keyed (heap m) -> counted K (heap m) ->
    (t < length (heap m))%nat ->
    exists m',
      run_iterations math_log k fuel t bs m = Ok (tt, m')
      /\ tree_shape (heap m') /\ keyed (heap m')
      /\ counted (K + Z.of_nat k) (heap m')
      /\ (length (heap m) <= length (heap m'))%nat.
Proof.
  intros Hset Hfuel Hlog.
  induction k as [|k IH]; intros K t bs m HK Hs Hk Hc Ht.
  { exists m. simpl. rewrite Z.add_0_r. by split; [|split; [|split]]. }
  simpl. unfold bind at 1, clone at 1.
  destruct (copy_undeterministic bs (rng m)) as [s1 rg1].
  unfold bind at 1.
  destruct (step_ok n fuel K t s1
              (mkMachine (heap m) rg1 (EvClone :: trace m)))
    as [m1 Hstep]; try done; [lia|].
  rewrite Hstep.
  apply step_effect in Hstep
    as (b & r & h1 & evs & Hg & Hb & Hpath & Hbump & _); [|done..].
  cbn [heap] in Hg.
  pose proof (grown_shape _ _ _ _ Hs Hg) as Hs1.
  assert (Hlen : (length (heap m) <= length (heap m1))%nat).
  { destruct Hbump as [-> _].
    destruct (grown_length _ _ _ _ Hg) as [[-> _]|[-> _]]; lia. }
  destruct (IH (K + 1) t bs m1) as (m' & Hrun & Hs' & Hk' & Hc' & Hlen').
  - lia.
  - by eapply shape_bumped.
  - eapply keyed_bumped; [|done]. by eapply keyed_grown.
  - by apply (counted_step K (heap m) h1 (heap m1) b evs r).
  - lia.
  - exists m'. split; [done|]. split; [done|]. split; [done|].
    split; [|lia].
    replace (K + Z.of_nat (S k)) with (K + 1 + Z.of_nat k) by lia. done.
Qed.

Lemma average_score_ok (nd : TreeNode) :
  0 <= visits nd < 2 ^ 63 -> exists v, average_score nd = Ok v.
Proof.
  intros Hv. unfold average_score, truediv.
  destruct (Z.eqb_spec (visits nd) 0); [by eexists|].
  rewrite float_of_int_small by lia. by eexists.
Qed.

Lemma get_best_ok (K : Z) (t : node_id) (s : State) (m : Machine) :
  K < 2 ^ 63 -> tree_shape (heap m) -> counted K (heap m) ->
  (t < length (heap m))%nat -> get_actions s <> [] ->
  exists a, get_best t s m
            = Ok (Some a, mkMachine (heap m)
                            (match heap m !! t with
                             | Some nd =>
                                 match children nd with
                                 | [] => tl (rng m)
                                 | _ => rng m
                                 end
                             | None => rng m
                             end) (trace m)).
Proof.
  intros HK Hs Hc Ht Hne. unfold get_best, bind, get_node.
  destruct (lookup_lt_is_Some_2 _ _ Ht) as [nd Hnd]. rewrite Hnd.
  destruct (children nd) as [|kv0 ch] eqn:Hch.
  { destruct (random_choice_ok (get_actions s) m Hne) as (a & _ & Hrc).
    rewrite Hrc. by exists a. }
  destruct (mapM_ok avg_keyed (kv0 :: ch) m) as (ys & Hys & Hlen).
  { intros kv Hkv. rewrite <- Hch in Hkv.
    assert (Hin : kv.2.2 ∈ child_ids nd).
    { unfold child_ids. apply list_elem_of_fmap. exists kv.2.
      split; [done|]. apply list_elem_of_fmap. by exists kv. }
    destruct (shape_children _ Hs t nd _ Hnd Hin) as (cd & Hcd & _).
    destruct (Hc _ cd Hcd) as [Hv _].
    destruct (average_score_ok cd) as [v Hv']; [lia|].
    exists (kv.2, v). unfold avg_keyed, bind, get_node. rewrite Hcd.
    unfold lift, rbind. by rewrite Hv'. }
  rewrite Hys. unfold lift, rbind, ret.
  destruct ys as [|[x k] ys]; [discriminate|]. simpl.
  destruct m. by eexists.
Qed.

Lemma lookup_snoc_inv {A} (l : list A) (x y : A) (i : nat) :
  (l ++ [x]) !! i = Some y ->
  l !! i = Some y \/ (i = length l /\ y = x).
Proof.
  intros Hi. destruct (decide (i < length l)%nat) as [Hlt|Hge].
  - left. by rewrite lookup_app_l in Hi.
  - right. rewrite lookup_app_r in Hi by lia.
    destruct (i - length l)%nat as [|j] eqn:Hj; simpl in Hi; [|done].
    split; [lia|congruence].
Qed.

(** A new root leaves the trees of the heap as they are. *)
Lemma shape_new_root (h : list TreeNode) (c : float) :
  tree_shape h -> tree_shape (h ++ [mkNode [] None None c 0 0%float]).
Proof.
  intros [Hwf Hch Hli Hnd]. split.
  - intros i nd p Hi Hp.
    apply lookup_snoc_inv in Hi as [Hi|[_ ->]]; [by eapply Hwf|done].
  - intros n nd c1 Hn Hc.
    apply lookup_snoc_inv in Hn as [Hn|[_ ->]]; [|inversion Hc].
    destruct (Hch n nd c1 Hn Hc) as (cd & Hcd & Hpar).
    exists cd. split; [|done]. by apply lookup_app_l_Some.
  - intros c1 cd p Hc1 Hp.
    apply lookup_snoc_inv in Hc1 as [Hc1|[_ ->]]; [|done].
    destruct (Hli c1 cd p Hc1 Hp) as (nd & Hn & Hin).
    exists nd. split; [|done]. by apply lookup_app_l_Some.
  - intros n nd Hn.
    apply lookup_snoc_inv in Hn as [Hn|[_ ->]]; [by eapply Hnd|].
    constructor.
Qed.

Lemma keyed_new_root (h : list TreeNode) (c : float) :
  keyed h -> keyed (h ++ [mkNode [] None None c 0 0%float]).
Proof.
  intros Hk n nd k a c1 Hn Hin.
  apply lookup_snoc_inv in Hn as [Hn|[_ ->]]; [|inversion Hin].
  destruct (Hk n nd k a c1 Hn Hin) as (-> & cd & Hcd & Ha).
  split; [done|]. exists cd. split; [|done]. by apply lookup_app_l_Some.
Qed.

Lemma counted_new_root (K : Z) (h : list TreeNode) (c : float) :
  0 <= K -> counted K h ->
  counted K (h ++ [mkNode [] None None c 0 0%float]).
Proof.
  intros HK Hc n nd Hn.
  apply lookup_snoc_inv in Hn as [Hn|[_ ->]]; [|by split; [simpl; lia|]].
  destruct (Hc n nd Hn) as [H1 H2]. split; [done|].
  intros p Hp. specialize (H2 p Hp). unfold visits_at in *.
  destruct (h !! p) as [y|] eqn:Hy; [|lia].
  by rewrite (lookup_app_l_Some _ _ _ _ Hy).
Qed.

(** X9.  [choose_card] returns a card.  If the state has a legal action,
    every play of the game is over within [n] moves wherever it starts,
    [math.log] is not negative on positive counts, the heap holds only
    well-formed trees (as every search leaves them) with at most [K]
    visits at a node, and [K] plus the budget fits a machine word, then
    [choose_card] raises nothing and does not hang:
    no [KeyError] from the dictionary of legal actions in [select], no
    [ValueError] from [max], [math.log] or [math.sqrt], no division by
    zero in [average_score] or [ucb_score], no [IndexError] from
    [random.choice].  Python's limit on the depth of recursion is not
    part of the model. *)
Theorem choose_card_returns (self : MCTSAgent) (n fuel : nat) (K : Z)
    (game_state : GameState) (battle_state : State) (m : Machine) :
  (forall s, settles n s = true) -> (n < fuel)%nat ->
  (forall p, 0 < p -> (math_log p <? 0)%float = false) ->
  tree_shape (heap m) -> keyed (heap m) -> counted K (heap m) ->
  0 <= K -> K + Z.max 0 (iterations self) < 2 ^ 63 ->
  get_actions battle_state <> [] ->
  exists card m',
    choose_card math_log self fuel game_state battle_state m
    = Ok (card, m').
Proof.
  intros Hset Hfuel Hlog Hs Hk Hc HK Hit Hne. unfold choose_card.
  destruct (get_actions battle_state) as [|a0 [|a1 l]] eqn:Ha; [done| |].
  { by eexists _, _. }
  unfold bind at 1, new_node.
  destruct (run_iterations_ok n fuel Hset Hfuel Hlog
              (Z.to_nat (iterations self)) K (length (heap m)) battle_state
              (mkMachine
                 (heap m ++ [mkNode [] None None (agent_param self) 0 0%float])
                 (rng m) (EvNewNode (length (heap m)) :: trace m)))
    as (m1 & Hrun & Hs1 & Hk1 & Hc1 & Hlen).
  - lia.
  - by apply shape_new_root.
  - by apply keyed_new_root.
  - by apply counted_new_root.
  - cbn [heap]. rewrite length_app. simpl. lia.
  - unfold bind at 1. rewrite Hrun.
    cbn [heap] in Hlen. rewrite length_app in Hlen. simpl in Hlen.
    destruct (get_best_ok (K + Z.of_nat (Z.to_nat (iterations self)))
                (length (heap m)) battle_state m1) as [a Hbest];
      try done; [lia|lia|by rewrite Ha|].
    unfold bind at 1. rewrite Hbest.
    unfold bind. destruct (verbose self); by eexists _, _.
Qed.

(** ** The actions filed at the root *)

(** What one call of [select] does to the children of the node it is
    called on: nothing, or one new entry, for an action that is legal in
    the state [select] was given. *)
Lemma select_children (depth fuel : nat) (self : node_id) (s : State)
    (nd : TreeNode) (m m' : Machine) :
  tree_shape (heap m) -> heap m !! self = Some nd ->
  select math_log depth fuel self s m = Ok (tt, m') ->
  exists nd',
    heap m' !! self = Some nd'
    /\ (children nd' = children nd
        \/ exists a,
             a ∈ get_actions s
             /\ children nd'
                = children nd ++ [(key a, (a, length (heap m)))]).
Proof.
  intros Hs Hnd Hrun.
  pose proof (shape_parents _ Hs) as Hwf.
  assert (Hself : (self < length (heap m))%nat) by (by eapply lookup_lt_Some).
  assert (Hleaf : forall m1, leaf self s m = Ok (tt, m1) ->
            exists nd', heap m1 !! self = Some nd'
                        /\ children nd' = children nd).
  { intros m1 Hl. destruct (leaf_ok self s m Hwf Hself) as (h' & Hrun' & Hb).
    rewrite Hrun' in Hl. injection Hl as <-. cbn [heap].
    destruct (bumped_fields_inv _ _ _ _ _ _ Hb Hnd)
      as (x' & Hx' & _ & Hch & _).
    by exists x'. }
  destruct depth as [|depth]; [discriminate|]. simpl in Hrun.
  destruct (get_actions s) as [|a0 l0] eqn:Ha.
  { destruct (Hleaf _ Hrun) as (nd' & H1 & H2). exists nd'. auto. }
  unfold bind at 1, get_node in Hrun. rewrite Hnd in Hrun.
  destruct (unexplored_of nd (a0 :: l0)) as [|u us] eqn:Hun.
  - destruct (children nd) as [|kv0 ch] eqn:Hch.
    { destruct (Hleaf _ Hrun) as (nd' & H1 & H2). exists nd'. auto. }
    unfold bind at 1 in Hrun.
    destruct (best_child math_log nd _ m) as [[[a c] m1]| |] eqn:Hbest;
      try discriminate.
    pose proof (best_child_run _ _ _ _ _ Hbest) as [-> Hc].
    cbn [fst snd] in Hrun, Hc.
    destruct (dict_get (key a) _) as [a'|]; [|discriminate].
    destruct (shape_children _ Hs self nd c Hnd Hc) as (cd & Hcd & Hpar).
    pose proof (Hwf c cd self Hcd Hpar) as Hlt.
    assert (Hclt : (c < length (heap m))%nat) by (by eapply lookup_lt_Some).
    apply select_run in Hrun
      as (b & r & h1 & rg1 & evs & Hback & Hg & Hb & Hpath & _); [|done..].
    pose proof (grown_shape _ _ _ _ Hs Hg) as Hs1.
    assert (H1 : exists x1, h1 !! self = Some x1
                            /\ children x1 = kv0 :: ch).
    { destruct Hg as [[-> _]|(p & nd0 & a1 & Hp & Hfresh & -> & -> & _)].
      { by exists nd. }
      destruct (attach_old (heap m) p self nd0 nd a1 Hp Hfresh Hnd)
        as (x1 & Hx1 & _ & _ & _ & _ & Hch1).
      exists x1. split; [done|]. rewrite <- Hch.
      destruct Hch1 as [?|[-> _]]; [done|]. exfalso.
      unfold path_to_root in Hpath. rewrite attach_length in Hpath.
      simpl in Hpath.
      assert (Hp' : (p < length (heap m))%nat) by (by eapply lookup_lt_Some).
      rewrite attach_lookup in Hpath by done.
      destruct (decide (length (heap m) = p)); [lia|].
      destruct (decide (length (heap m) = length (heap m))); [|done].
      simpl in Hpath. apply elem_of_cons in Hpath as [?|Hpath]; [lia|].
      apply ancestors_le in Hpath; [lia|]. by apply shape_parents. }
    destruct H1 as (x1 & Hx1 & Hch1).
    destruct (backpropagate_ok b r
                (mkMachine h1 rg1 (evs ++ trace m)))
      as (h' & Hrun' & Hbump); [by apply shape_parents|done|].
    rewrite Hrun' in Hback. injection Hback as <-. cbn [heap] in *.
    destruct (bumped_fields_inv _ _ _ _ _ _ Hbump Hx1)
      as (x' & Hx' & _ & Hch' & _).
    exists x'. split; [done|]. left. congruence.
  - destruct (expand_run fuel self s (u :: us) nd m m' Hnd Hrun)
      as (a & s' & rg1 & Hin & Hback).
    rewrite <- Hun in Hin. apply list_elem_of_filter in Hin as [Hfresh Hact].
    destruct (attach_old (heap m) self self nd nd a Hnd Hfresh Hnd)
      as (x1 & Hx1 & _ & _ & _ & _ & Hch1).
    match type of Hback with
    | backpropagate ?b ?r ?m2 = _ =>
        destruct (backpropagate_ok b r m2) as (h' & Hrun' & Hbump)
    end.
    { cbn [heap]. exact (wf_attach _ _ nd a Hwf Hnd). }
    { cbn [heap]. rewrite attach_length. lia. }
    rewrite Hrun' in Hback. injection Hback as <-. cbn [heap] in *.
    destruct (bumped_fields_inv _ _ _ _ _ _ Hbump Hx1)
      as (x' & Hx' & _ & Hch' & _).
    exists x'. split; [done|]. rewrite Hch'.
    destruct Hch1 as [?|[_ ?]]; [by left|]. right. by exists a.
Qed.

(** When no copy of the real state allows an action the real state does
    not, the actions filed at the root are legal in the real state. *)
Lemma run_iterations_root (k fuel : nat) (t : node_id) (bs : State)
    (nd : TreeNode) (m m' : Machine) :
  (forall rg1 rg2 a,
     a ∈ get_actions
           (copy_undeterministic (copy_undeterministic bs rg1).1 rg2).1 ->
     a ∈ get_actions bs) ->
  tree_shape (heap m) -> heap m !! t = Some nd ->
  (forall kv, kv ∈ children nd -> kv.2.1 ∈ get_actions bs) ->
  run_iterations math_log k fuel t bs m = Ok (tt, m') ->
  exists nd',
    heap m' !! t = Some nd'
    /\ forall kv, kv ∈ children nd' -> kv.2.1 ∈ get_actions bs.
Proof.
  intros Hcopy. revert nd m.
  induction k as [|k IH]; intros nd m Hs Hnd Hall Hrun.
  { injection Hrun as <-. by exists nd. }
  assert (Ht : (t < length (heap m))%nat) by (by eapply lookup_lt_Some).
  simpl in Hrun. unfold bind at 1, clone at 1 in Hrun.
  destruct (copy_undeterministic bs (rng m)) as [s1 rg1] eqn:Hc1.
  unfold bind at 1 in Hrun.
  destruct (step math_log fuel t s1 _) as [[[] m1]| |] eqn:Hstep;
    try discriminate.
  pose proof (step_run fuel t s1
                (mkMachine (heap m) rg1 (EvClone :: trace m)) m1 Hs Ht Hstep)
    as (Hs1 & _).
  unfold step, bind, clone in Hstep. cbn [heap rng trace] in Hstep.
  destruct (copy_undeterministic s1 rg1) as [s2 rg2] eqn:Hc2.
  cbn [heap] in Hstep.
  apply select_children with (nd := nd) in Hstep as (nd1 & Hnd1 & Hch);
    [|done..].
  apply (IH nd1 m1); try done.
  intros kv Hkv. destruct Hch as [Hch|(a & Ha & Hch)]; rewrite Hch in Hkv.
  { by apply Hall. }
  apply elem_of_app in Hkv as [?|Hkv]; [by apply Hall|].
  apply list_elem_of_singleton in Hkv as ->. simpl.
  apply (Hcopy (rng m) rg1). rewrite Hc1. simpl. by rewrite Hc2.
Qed.

(** X10.  When no copy of the real state allows an action that the real
    state does not (as when copying only reshuffles what is hidden), the
    card [choose_card] returns is the committable form of an action that
    is legal in the real state. *)
Theorem choose_card_legal (self : MCTSAgent) (fuel : nat)
    (game_state : GameState) (battle_state : State) (card : Card)
    (m m' : Machine) :
  (forall rg1 rg2 a,
     a ∈ get_actions
           (copy_undeterministic
              (copy_undeterministic battle_state rg1).1 rg2).1 ->
     a ∈ get_actions battle_state) ->
  tree_shape (heap m) ->
  choose_card math_log self fuel game_state battle_state m
  = Ok (card, m') ->
  exists a, a ∈ get_actions battle_state /\ card = to_action a battle_state.
Proof.
  intros Hcopy Hs Hrun. unfold choose_card in Hrun.
  remember (get_actions battle_state) as acts eqn:Hacts in Hrun.
  destruct acts as [|a0 [|a1 l]];
    [| injection Hrun as <- _; exists a0; rewrite <- Hacts;
       split; [apply list_elem_of_here|done] |].
  all: unfold bind at 1, new_node in Hrun; unfold bind at 1 in Hrun.
  all: destruct (run_iterations _ _ _ _ _ _) as [[[] m1]| |] eqn:Hit;
    try discriminate.
  all: apply run_iterations_root
    with (nd := mkNode [] None None (agent_param self) 0 0%float)
    in Hit as (nd' & Hnd' & Hall);
    [|done|by apply shape_new_root
     |cbn [heap]; by rewrite lookup_app_r, Nat.sub_diag by lia
     |intros kv Hkv; inversion Hkv].
  all: unfold bind at 1 in Hrun.
  all: destruct (get_best _ _ m1) as [[o m3]| |] eqn:Hbest;
    try discriminate.
  all: destruct (get_best_some _ _ _ _ _ Hbest)
    as (a & nd2 & -> & Hnd2 & Hcase).
  all: rewrite Hnd' in Hnd2; injection Hnd2 as <-.
  all: assert (Ha : a ∈ get_actions battle_state)
    by (destruct Hcase as [(k & c & Hin)|[_ ?]];
        [apply (Hall (k, (a, c)) Hin)|done]).
  all: exists a; split; [done|].
  all: unfold bind, print_tree, emit, ret in Hrun.
  all: destruct (verbose self); by injection Hrun as <- _.
Qed.

(** ** The dictionary of legal actions *)

Lemma dict_get_set {V} (k k' : Key) (v : V) (d : list (Key * V)) :
  dict_get k (dict_set k' v d)
  = if decide (k = k') then Some v else dict_get k d.
Proof.
  induction d as [|[k0 v0] d IH]; simpl.
  { destruct (decide (k = k')); done. }
  destruct (decide (k' = k0)) as [->|Hne]; simpl.
  - destruct (decide (k = k0)); done.
  - destruct (decide (k = k0)) as [->|?].
    + destruct (decide (k0 = k')); [congruence|done].
    + exact IH.
Qed.

(** X11.  The action [select] plays on the way down is the one the
    dictionary [{a.key(): a for a in actions}] holds under the key of the
    best child: a legal action of the current state with that key, and,
    when several legal actions share the key, the last of them in
    [get_actions] (it need not be the action recorded in the child). *)
Theorem valid_actions_last (k : Key) (actions : list Action) (a : Action) :
  dict_get k (valid_actions_of actions) = Some a
  <-> exists l1 l2,
        actions = l1 ++ a :: l2 /\ key a = k /\ k ∉ key <$> l2.
Proof.
  revert a. induction actions as [|x l IH] using rev_ind; intros a.
  { split; [done|]. intros (l1 & l2 & Heq & _). by destruct l1. }
  unfold valid_actions_of in *. rewrite fold_left_app. simpl.
  rewrite dict_get_set. destruct (decide (k = key x)) as [->|Hne].
  - split.
    + intros [= ->]. exists l, []. repeat split; auto. inversion 1.
    + intros (l1 & l2 & Heq & Hk & Hnot).
      destruct l2 as [|y l2 _] using rev_ind.
      * apply app_inj_tail in Heq as [_ ->]. done.
      * exfalso. apply Hnot.
        replace (l1 ++ a :: l2 ++ [y]) with ((l1 ++ a :: l2) ++ [y]) in Heq
          by (by rewrite <- app_assoc).
        apply app_inj_tail in Heq as [_ ->].
        rewrite fmap_app. apply elem_of_app. right. apply list_elem_of_here.
  - rewrite IH. split.
    + intros (l1 & l2 & -> & Hk & Hnot). exists l1, (l2 ++ [x]).
      split; [by rewrite <- app_assoc|]. split; [done|].
      rewrite fmap_app. intros Hin.
      apply elem_of_app in Hin as [?|Hin]; [done|].
      apply list_elem_of_singleton in Hin. done.
    + intros (l1 & l2 & Heq & Hk & Hnot).
      destruct l2 as [|y l2 _] using rev_ind.
      * apply app_inj_tail in Heq as [_ ->]. congruence.
      * replace (l1 ++ a :: l2 ++ [y]) with ((l1 ++ a :: l2) ++ [y]) in Heq
          by (by rewrite <- app_assoc).
        apply app_inj_tail in Heq as [-> ->].
        exists l1, l2. split; [done|]. split; [done|].
        intros Hin. apply Hnot. rewrite fmap_app. apply elem_of_app.
        by left.
Qed.

(** ** A state without a legal action *)

Lemma run_iterations_actionless (k fuel : nat) (bs : State)
    (h0 : list TreeNode) (nd : TreeNode) (rg : list nat) (tr : list event) :
  (forall rg1 rg2,
     get_actions
       (copy_undeterministic (copy_undeterministic bs rg1).1 rg2).1 = []) ->
  children nd = [] -> parent nd = None ->
  exists nd' rg' tr',
    run_iterations math_log k fuel (length h0) bs
      (mkMachine (h0 ++ [nd]) rg tr)
    = Ok (tt, mkMachine (h0 ++ [nd']) rg' tr')
    /\ children nd' = [] /\ parent nd' = None.
Proof.
  intros Hcopy. revert nd rg tr.
  induction k as [|k IH]; intros nd rg tr Hch Hpar; simpl.
  { exists nd, rg, tr. done. }
  unfold bind at 1, clone at 1. simpl.
  pose proof (Hcopy rg) as H2.
  destruct (copy_undeterministic bs rg) as [s1 rg1]. simpl in H2.
  unfold bind at 1, step, bind at 1, clone at 1. simpl.
  specialize (H2 rg1).
  destruct (copy_undeterministic s1 rg1) as [s2 rg2]. simpl in H2.
  cbn [heap]. rewrite length_app, Nat.add_1_r. cbn [select]. rewrite H2.
  unfold leaf, bind, emit, backpropagate. cbn [heap rng trace].
  rewrite length_app, Nat.add_1_r. cbn [backpropagate_rec].
  unfold bind, get_node, set_node. cbn [heap rng trace].
  rewrite lookup_app_r by lia. rewrite Nat.sub_diag. simpl lookup.
  cbn beta iota. cbn [heap rng trace]. rewrite Hpar. unfold ret.
  replace (<[length h0 := record_result (score s2) nd]> (h0 ++ [nd]))
    with (h0 ++ [record_result (score s2) nd]).
  2:{ replace (length h0) with (length h0 + 0)%nat at 1 by lia.
      by rewrite insert_app_r. }
  apply IH; done.
Qed.

(** X12.  When the real state has no legal action and the copies made of
    it for the iterations have none either, [choose_card] raises
    [IndexError], whatever the budget and the random source: every
    iteration evaluates the root as a leaf, the root never gets a child,
    and [get_best] calls [random.choice] on the empty list.  The fallback
    behind the warning is not reached. *)
Theorem choose_card_no_legal_action (self : MCTSAgent) (fuel : nat)
    (game_state : GameState) (battle_state : State) (m : Machine) :
  get_actions battle_state = [] ->
  (forall rg1 rg2,
     get_actions
       (copy_undeterministic
          (copy_undeterministic battle_state rg1).1 rg2).1 = []) ->
  choose_card math_log self fuel game_state battle_state m
  = Raise IndexError.
Proof.
  intros Hbs Hcopy. unfold choose_card. rewrite Hbs.
  unfold bind at 1, new_node. simpl.
  destruct (run_iterations_actionless (Z.to_nat (iterations self)) fuel
              battle_state (heap m)
              (mkNode [] None None (agent_param self) 0 0%float) (rng m)
              (EvNewNode (length (heap m)) :: trace m) Hcopy eq_refl
              eq_refl) as (nd' & rg' & tr' & Hrun & Hch & Hpar).
  unfold bind at 1. rewrite Hrun.
  unfold bind at 1, get_best, bind at 1, get_node. simpl.
  rewrite lookup_app_r by lia. rewrite Nat.sub_diag. simpl.
  rewrite Hch, Hbs. done.
Qed.

(** ** Heaps to start from *)

Lemma empty_heap_shape : tree_shape (@nil TreeNode).
Proof.
  split.
  - intros i nd p Hi. by rewrite lookup_nil in Hi.
  - intros n nd c Hi. by rewrite lookup_nil in Hi.
  - intros c cd p Hi. by rewrite lookup_nil in Hi.
  - intros n nd Hi. by rewrite lookup_nil in Hi.
Qed.

Lemma empty_heap_keyed : keyed (@nil TreeNode).
Proof. intros n nd k a c Hn. by rewrite lookup_nil in Hn. Qed.

Lemma empty_heap_counted (K : Z) : counted K (@nil TreeNode).
Proof. intros n nd Hn. by rewrite lookup_nil in Hn. Qed.

Lemma fresh_root_searched (c : float) :
  searched c 0
    [mkNode (Action := Action) (Key := Key) [] None None c 0 0%float].
Proof.
  split.
  - apply fresh_root_shape.
  - intros [|n] nd k a c1 Hn Hin; simpl in Hn; [|inversion Hn].
    injection Hn as <-. inversion Hin.
  - intros [|n] nd Hn; simpl in Hn; [|inversion Hn]. by injection Hn as <-.
  - intros [|n] nd Hn; simpl in Hn; [|inversion Hn]. injection Hn as <-.
    simpl. split; [lia|done].
Qed.

Lemma fresh_root_conserved (c : float) :
  conserved
    [mkNode (Action := Action) (Key := Key) [] None None c 0 0%float] [].
Proof.
  intros [|n] nd Hn; simpl in Hn; [|inversion Hn]. by injection Hn as <-.
Qed.

(** ** Printing the tree *)

Lemma path_lookup (h : list TreeNode) (i x : node_id) :
  x ∈ path_to_root h i -> (i < length h)%nat.
Proof.
  unfold path_to_root. destruct (length h) as [|d] eqn:Hd; [inversion 1|].
  simpl. destruct (h !! i) as [nd|] eqn:Hi; [|inversion 1].
  intros _. rewrite <- Hd. by eapply lookup_lt_Some.
Qed.

Lemma path_first (h : list TreeNode) (r : node_id) :
  (r < length h)%nat -> path_to_root h r !! 0%nat = Some r.
Proof.
  intros Hr. unfold path_to_root.
  destruct (length h) as [|d] eqn:Hd; [lia|]. simpl.
  destruct (lookup_lt_is_Some_2 h r) as [nd ->]; [lia|]. done.
Qed.

(** The entry after a node on the path to the root is its parent. *)
Lemma ancestors_next (d : nat) (h : list TreeNode) (n k c p : node_id)
    (cd : TreeNode) :
  wf_parents h -> (n < d)%nat ->
  ancestors d h n !! k = Some c -> h !! c = Some cd -> parent cd = Some p ->
  ancestors d h n !! S k = Some p.
Proof.
  intros Hwf. revert n k.
  induction d as [|d IH]; intros n k Hd Hk Hc Hp; [lia|].
  simpl in Hk |- *. destruct (h !! n) as [nd|] eqn:Hn; [|done].
  destruct k as [|k]; simpl in Hk |- *.
  - injection Hk as ->. rewrite Hn in Hc. injection Hc as ->. rewrite Hp.
    pose proof (Hwf c cd p Hn Hp) as Hlt.
    assert (Hpl : (p < length h)%nat).
    { apply lookup_lt_Some in Hn. lia. }
    destruct d as [|d]; [lia|]. simpl.
    destruct (lookup_lt_is_Some_2 h p Hpl) as [pd ->]. done.
  - destruct (parent nd) as [q|] eqn:Hq; [|done].
    pose proof (Hwf n nd q Hn Hq) as Hlt.
    apply IH; [lia|done..].
Qed.

(** The lines for the children of one node. *)
Lemma each_line_subtrees (h : list TreeNode) (t : node_id) (ind : nat)
    (f : node_id -> result (list (nat * node_id))) (cs : list node_id) :
  wf_parents h -> NoDup cs ->
  (forall c, c ∈ cs -> exists cd, h !! c = Some cd /\ parent cd = Some t) ->
  (forall c, c ∈ cs ->
     exists l,
       f c = Ok l /\ NoDup l.*2
       /\ (forall i, i ∈ l.*2 <-> c ∈ path_to_root h i)
       /\ (forall dd i, (dd, i) ∈ l ->
             exists k, path_to_root h i !! k = Some c
                       /\ dd = (ind + 2 * k)%nat)) ->
  exists ls,
    each_line f cs = Ok ls /\ NoDup ls.*2
    /\ (forall i, i ∈ ls.*2 <-> exists c, c ∈ cs /\ c ∈ path_to_root h i)
    /\ (forall dd i, (dd, i) ∈ ls ->
          exists c k, c ∈ cs /\ path_to_root h i !! k = Some c
                      /\ dd = (ind + 2 * k)%nat).
Proof.
  intros Hwf. induction cs as [|c cs IH]; intros Hnd Hpar Hf.
  { exists []. simpl. split; [done|]. split; [constructor|]. split.
    - intros i. split; [inversion 1|]. intros (c & Hc & _). inversion Hc.
    - intros dd i Hin. inversion Hin. }
  apply NoDup_cons in Hnd as [Hc Hnd].
  destruct (Hf c) as (l & Hl & Hndl & Hmem & Hind); [apply list_elem_of_here|].
  destruct IH as (ls & Hls & Hndls & Hmems & Hinds); [done| | |].
  { intros c' Hc'. apply Hpar. by apply list_elem_of_further. }
  { intros c' Hc'. apply Hf. by apply list_elem_of_further. }
  exists (l ++ ls). simpl. rewrite Hl, Hls. simpl. split; [done|].
  rewrite fmap_app. split; [|split].
  - apply NoDup_app. split; [done|]. split; [|done].
    intros i Hi Hi'. apply Hmem in Hi. apply Hmems in Hi' as (c' & Hc' & Hi').
    destruct (Hpar c) as (cd & Hcd & Hp); [apply list_elem_of_here|].
    destruct (Hpar c') as (cd' & Hcd' & Hp');
      [by apply list_elem_of_further|].
    assert (c = c') as <-; [|done].
    by apply (path_child_unique (length h) h i t c c' cd cd').
  - intros i. rewrite elem_of_app, Hmem, Hmems. split.
    + intros [?|(c' & Hc' & ?)].
      * exists c. split; [apply list_elem_of_here|done].
      * exists c'. split; [by apply list_elem_of_further|done].
    + intros (c' & Hc' & Hi). apply elem_of_cons in Hc' as [->|Hc'].
      * by left.
      * right. by exists c'.
  - intros dd i Hin. apply elem_of_app in Hin as [Hin|Hin].
    + destruct (Hind dd i Hin) as (k & Hk & ->).
      exists c, k. split; [apply list_elem_of_here|done].
    + destruct (Hinds dd i Hin) as (c' & k & Hc' & Hk & ->).
      exists c', k. split; [by apply list_elem_of_further|done].
Qed.

Lemma print_tree_lines_spec (h : list TreeNode) :
  tree_shape h ->
  (forall i nd, h !! i = Some nd -> 0 <= visits nd < 2 ^ 63) ->
  forall (d : nat) (r : node_id) (indent : nat),
    (length h <= d + r)%nat -> (r < length h)%nat ->
    exists lines,
      print_tree_lines d h r indent = Ok lines
      /\ head lines = Some (indent, r)
      /\ NoDup lines.*2
      /\ (forall i, i ∈ lines.*2 <-> r ∈ path_to_root h i)
      /\ (forall dd i, (dd, i) ∈ lines ->
            exists k, path_to_root h i !! k = Some r
                      /\ dd = (indent + 2 * k)%nat).
Proof.
  intros Hs Hv. pose proof (shape_parents _ Hs) as Hwf.
  induction d as [|d IH]; intros r indent Hd Hr; [lia|].
  simpl. destruct (lookup_lt_is_Some_2 h r Hr) as [nd Hnd]. rewrite Hnd.
  destruct (average_score_ok nd) as [v Havg]; [by eapply Hv|].
  rewrite Havg. simpl. fold (child_ids nd).
  assert (Hkids : forall c, c ∈ child_ids nd ->
            exists cd, h !! c = Some cd /\ parent cd = Some r).
  { intros c Hc. by apply (shape_children _ Hs r nd c). }
  destruct (each_line_subtrees h r (indent + 2)
              (fun child => print_tree_lines d h child (indent + 2))
              (child_ids nd) Hwf)
    as (ls & Hls & Hndls & Hmems & Hinds).
  { by apply (shape_nodup _ Hs r nd). }
  { exact Hkids. }
  { intros c Hc. destruct (Hkids c Hc) as (cd & Hcd & Hp).
    pose proof (Hwf c cd r Hcd Hp) as Hlt.
    destruct (IH c (indent + 2)%nat) as (l & Hl & _ & Hrest);
      [lia|by eapply lookup_lt_Some|].
    by exists l. }
  rewrite Hls. simpl. eexists. split; [done|]. split; [done|].
  rewrite fmap_cons. simpl. split; [|split].
  - apply NoDup_cons. split; [|done]. intros Hin.
    apply Hmems in Hin as (c & Hc & Hin).
    destruct (Hkids c Hc) as (cd & Hcd & Hp).
    pose proof (Hwf c cd r Hcd Hp) as Hlt.
    apply ancestors_le in Hin; [lia|done].
  - intros i. rewrite elem_of_cons, Hmems. split.
    + intros [->|(c & Hc & Hin)]; [by apply path_head|].
      destruct (Hkids c Hc) as (cd & Hcd & Hp).
      pose proof (path_lookup _ _ _ Hin) as Hi.
      by apply (ancestors_parent (length h) h i c r cd).
    + intros Hin. destruct (decide (i = r)) as [->|Hne]; [by left|].
      right.
      destruct (path_child_exists (length h) h i r Hin Hne)
        as (c & cd & Hc & Hcd & Hp).
      exists c. split; [|done].
      destruct (shape_listed _ Hs c cd r Hcd Hp) as (nd' & Hnd' & Hc').
      rewrite Hnd in Hnd'. by injection Hnd' as <-.
  - intros dd i Hin. apply elem_of_cons in Hin as [[= -> ->]|Hin].
    + exists 0%nat. split; [by apply path_first|lia].
    + destruct (Hinds dd i Hin) as (c & k & Hc & Hk & ->).
      destruct (Hkids c Hc) as (cd & Hcd & Hp).
      exists (S k). split; [|lia].
      assert (Hi : (i < length h)%nat).
      { eapply path_lookup. by eapply list_elem_of_lookup_2. }
      by apply (ancestors_next (length h) h i k c r cd).
Qed.

(** X15.  On a well-formed tree whose visit counts fit a machine word,
    [print_tree] raises nothing and writes one line for the node it is
    called on, first, and one line for every node below it, each exactly
    once and no line for any other node; a line is indented by the
    indentation of the call plus two spaces for every step from the
    node of the line up to the node of the call. *)
Theorem print_tree_lists_subtree (h : list TreeNode) (r : node_id)
    (indent : nat) :
  tree_shape h ->
  (forall i nd, h !! i = Some nd -> 0 <= visits nd < 2 ^ 63) ->
  (r < length h)%nat ->
  exists lines,
    print_tree_lines (length h) h r indent = Ok lines
    /\ head lines = Some (indent, r)
    /\ NoDup lines.*2
    /\ (forall i, i ∈ lines.*2 <-> r ∈ path_to_root h i)
    /\ (forall dd i, (dd, i) ∈ lines ->
          exists k, path_to_root h i !! k = Some r
                    /\ dd = (indent + 2 * k)%nat).
Proof.
  intros Hs Hv Hr. apply print_tree_lines_spec; try done. lia.
Qed.

(** *** The tree printed after a search *)

(** The path from a node depends on the parents of the nodes that are not
    younger than it, and not on the bound when the bound is large
    enough. *)
Lemma ancestors_ext (d d' : nat) (h h' : list TreeNode) (n : node_id) :
  wf_parents h -> (n < d)%nat -> (n < d')%nat ->
  (forall j, (j <= n)%nat -> parent <$> h' !! j = parent <$> h !! j) ->
  ancestors d' h' n = ancestors d h n.
Proof.
  intros Hwf. revert d' n.
  induction d as [|d IH]; intros d' n Hd Hd' Hsame; [lia|].
  destruct d' as [|d']; [lia|]. simpl.
  pose proof (Hsame n (Nat.le_refl n)) as Hn.
  destruct (h !! n) as [nd|] eqn:Hnd, (h' !! n) as [nd'|] eqn:Hnd';
    try discriminate; [|done].
  injection Hn as Hn. rewrite Hn. f_equal.
  destruct (parent nd) as [q|] eqn:Hq; [|done].
  pose proof (Hwf n nd q Hnd Hq) as Hlt.
  apply IH; [lia..|]. intros j Hj. apply Hsame. lia.
Qed.

Lemma rooted_step (t : node_id) (h h1 h' : list TreeNode) (b : node_id)
    (evs : list event) (path : list node_id) (r : float) :
  tree_shape h -> rooted t h -> grown h h1 b evs -> bumped h1 h' path r ->
  rooted t h'.
Proof.
  intros Hs Hroot Hg Hbump.
  pose proof (grown_shape _ _ _ _ Hs Hg) as Hs1.
  pose proof (shape_parents _ Hs) as Hwf.
  pose proof (shape_parents _ Hs1) as Hwf1.
  assert (Hroot1 : rooted t h1).
  { destruct Hg as [[-> _]|(p & nd & a & Hp & Hfresh & -> & _)]; [done|].
    assert (Hpl : (p < length h)%nat) by (by eapply lookup_lt_Some).
    assert (Hold : forall i, (i < length h)%nat ->
              path_to_root (attach h p nd a) i = path_to_root h i).
    { intros i Hi. unfold path_to_root. rewrite attach_length.
      apply ancestors_ext; [done|lia..|]. intros j Hj.
      destruct (lookup_lt_is_Some_2 h j) as [x Hx]; [lia|].
      destruct (attach_old h p j nd x a Hp Hfresh Hx)
        as (x1 & Hx1 & Hpar & _).
      rewrite Hx1, Hx. simpl. by rewrite Hpar. }
    intros i Hi. rewrite attach_length in Hi.
    destruct (decide (i = length h)) as [->|Hne].
    - unfold path_to_root. rewrite attach_length. simpl.
      rewrite attach_lookup by done.
      destruct (decide (length h = p)); [lia|].
      destruct (decide (length h = length h)); [|done]. simpl.
      apply list_elem_of_further.
      specialize (Hold p Hpl). unfold path_to_root in Hold.
      rewrite attach_length in Hold.
      replace (ancestors (length h) (attach h p nd a) p)
        with (ancestors (S (length h)) (attach h p nd a) p).
      + rewrite Hold. by apply Hroot.
      + apply ancestors_ext; [done|lia..|done].
    - rewrite Hold by lia. apply Hroot. lia. }
  intros i Hi. destruct Hbump as [Hlen Hlook]. rewrite Hlen in Hi.
  unfold path_to_root. rewrite Hlen.
  replace (ancestors (length h1) h' i) with (ancestors (length h1) h1 i);
    [by apply Hroot1|].
  symmetry. apply ancestors_ext; [done|lia..|]. intros j _.
  rewrite Hlook. destruct (bool_decide _); [|done].
  by destruct (h1 !! j).
Qed.

(** X16.  After a search, [print_tree] writes the whole tree.  When the
    heap holds one well-formed tree, with root [t], and [k] iterations
    are run from [t], then [print_tree] called on [t] raises nothing and
    writes exactly one line for every node of the heap: as many lines as
    the heap has nodes, the root first. *)
Theorem print_tree_after_search (k fuel : nat) (t : node_id) (bs : State)
    (K : Z) (m m' : Machine) :
  tree_shape (heap m) -> counted K (heap m) -> rooted t (heap m) ->
  (t < length (heap m))%nat -> K + Z.of_nat k < 2 ^ 63 ->
  run_iterations math_log k fuel t bs m = Ok (tt, m') ->
  exists lines,
    print_tree_lines (length (heap m')) (heap m') t 0 = Ok lines
    /\ head lines = Some (0%nat, t)
    /\ length lines = length (heap m')
    /\ lines.*2 ≡ₚ seq 0 (length (heap m')).
Proof.
  intros Hs Hc Hroot Ht HK Hrun.
  assert (Hinv : tree_shape (heap m') /\ counted (K + Z.of_nat k) (heap m')
                 /\ rooted t (heap m') /\ (t < length (heap m'))%nat).
  { refine (run_iterations_invariant t
              (fun k h _ => tree_shape h /\ counted (K + Z.of_nat k) h
                            /\ rooted t h /\ (t < length h)%nat)
              _ k O fuel bs m m' Hs Ht _ Hrun).
    - intros k' h tr h1 h' b r evs Hs' Ht' (_ & Hc' & Hr' & _) Hg Hb _ Hbump.
      split; [|split; [|split]].
      + eapply shape_bumped; [|done]. by eapply grown_shape.
      + replace (K + Z.of_nat (S k')) with (K + Z.of_nat k' + 1) by lia.
        by apply (counted_step _ h h1 h' b evs r).
      + by apply (rooted_step t h h1 h' b evs (path_to_root h1 b) r).
      + destruct Hbump as [-> _].
        destruct (grown_length _ _ _ _ Hg) as [[-> _]|[-> _]]; lia.
    - rewrite Z.add_0_r. done. }
  destruct Hinv as (Hs' & Hc' & Hroot' & Ht').
  destruct (print_tree_lines_spec (heap m') Hs') with
    (d := length (heap m')) (r := t) (indent := 0%nat)
    as (lines & Hlines & Hhead & Hnd & Hmem & _); [|lia|done|].
  { intros i nd Hi. destruct (Hc' i nd Hi) as [? _]. lia. }
  assert (Hperm : lines.*2 ≡ₚ seq 0 (length (heap m'))).
  { apply NoDup_Permutation; [done|apply NoDup_seq|].
    intros i. rewrite Hmem, elem_of_seq. split.
    - intros Hin. apply path_lookup in Hin. lia.
    - intros [_ Hi]. apply Hroot'. lia. }
  exists lines. split; [done|]. split; [done|]. split; [|done].
  apply Permutation_length in Hperm.
  by rewrite length_fmap, length_seq in Hperm.
Qed.

Lemma fresh_root_rooted (c : float) :
  rooted 0
    [mkNode (Action := Action) (Key := Key) [] None None c 0 0%float].
Proof.
  intros i Hi. simpl in Hi. assert (i = 0%nat) as -> by lia.
  apply list_elem_of_here.
Qed.

End Proofs.

(** ** The claims on concrete inputs *)

Import Toy.

(** Witness of C4: the chain root -> A -> B and a rollout worth 5.0 that
    starts at B leave each of the three nodes with one visit and a total
    reward of 5.0. *)
Lemma backpropagate_updates_path_witness :
  exists m',
    backpropagate 2%nat 5%float chain = Ok (tt, m')
    /\ (visits <$> heap m') = [1; 1; 1]
    /\ (total_reward <$> heap m') = [5%float; 5%float; 5%float].
Proof.
  assert (Hwf : wf_parents (heap chain)).
  { intros [|[|[|i]]] nd p Hi Hp; simpl in Hi; inversion Hi; subst;
      simpl in Hp; inversion Hp; lia. }
  assert (Hn : (2 < length (heap chain))%nat) by (simpl; lia).
  destruct (backpropagate_updates_path 2%nat 5%float chain Hwf Hn)
    as (m' & Hrun & _).
  exists m'. split; [exact Hrun|].
  vm_compute in Hrun. injection Hrun as <-. split; reflexivity.
Defined.

(** Witness of C5: a hand of one card. *)
Lemma choose_card_single_action_witness :
  choose_card log_approx (agent 50) 10 tt (start [7]%nat [3; 4]%nat)
              (boot [1; 1]%nat)
  = Ok (7%nat, boot [1; 1]%nat).
Proof.
  exact (choose_card_single_action log_approx (agent 50) 10 tt
           (start [7]%nat [3; 4]%nat) 7%nat (boot [1; 1]%nat) eq_refl).
Defined.

(** Witness of C10: a search of four iterations returns a card and prints
    no warning. *)
Lemma get_best_never_none_witness :
  exists c m',
    choose_card log_approx (agent 4) 10 tt (start [1; 2]%nat [3; 4]%nat)
                (boot []) = Ok (c, m')
    /\ quiet (boot []) m'
    /\ exists a, c = to_action a (start [1; 2]%nat [3; 4]%nat).
Proof.
  assert (Hrun : exists c m',
    choose_card log_approx (agent 4) 10 tt (start [1; 2]%nat [3; 4]%nat)
                (boot []) = Ok (c, m')).
  { eexists _, _. vm_compute. reflexivity. }
  destruct Hrun as (c & m' & Hrun). exists c, m'. split; [exact Hrun|].
  exact (proj2 (proj2 (get_best_never_none log_approx (agent 4) 10 tt
                         (start [1; 2]%nat [3; 4]%nat) 0%nat (boot [])))
           c m' Hrun).
Defined.

(** C1, the input on which it fails.  The real state holds the cards 1
    and 2; the copy made for the first iteration redraws the hand as 3
    and 4.  After two iterations the root has the children 3 and 1, card
    3 has the higher average, and [choose_card] returns card 3, which is
    not legal in the real state. *)
Theorem choose_card_returns_illegal_action :
  exists m' root,
    choose_card log_approx (agent 2) 10 tt (start [1; 2]%nat [3; 4]%nat)
                (boot [2]%nat)
    = Ok (to_action 3%nat (start [1; 2]%nat [3; 4]%nat), m')
    /\ heap m' !! 0%nat = Some root
    /\ (children root).*1 = [3; 1]%nat
    /\ get_actions (start [1; 2]%nat [3; 4]%nat) = [1; 2]%nat
    /\ 3%nat ∉ get_actions (start [1; 2]%nat [3; 4]%nat).
Proof.
  eexists _, _. split; [vm_compute; reflexivity|].
  split; [reflexivity|]. split; [reflexivity|]. split; [reflexivity|].
  intros Hin. vm_compute in Hin.
  repeat (apply elem_of_cons in Hin as [Hin|Hin]; [discriminate|]).
  inversion Hin.
Qed.

(** C2, the input on which it fails.  The battle state has no legal
    action; every iteration evaluates the root as a leaf, the root gets no
    child, and [get_best] raises [IndexError] from [random.choice] of the
    empty list: [choose_card] throws and never reaches its warning. *)
Theorem choose_card_empty_raises :
  get_actions (start [] [3; 4]%nat) = []
  /\ choose_card log_approx (agent 2) 10 tt (start [] [3; 4]%nat)
                 (boot [1; 1]%nat)
     = Raise IndexError
  /\ choose_card log_approx (agent 0) 10 tt (start [] [3; 4]%nat)
                 (boot [1; 1]%nat)
     = Raise IndexError.
Proof. repeat split; vm_compute; reflexivity. Qed.

(** Witness of C3: a node visited 3 times with a total of 9, under a
    parent visited 4 times; and a parent whose second child was never
    visited, which [select] prefers to the first. *)
Lemma ucb_score_correct_witness :
  ucb_score log_approx visited 4 0.5
  = Ok (9 / 3 + 0.5 * PrimFloat.sqrt (log_approx 4 / 3))%float
  /\ exists a, best_child log_approx family_root [(1, 1); (2, 2)]%nat family
               = Ok ((a, 2%nat), family).
Proof.
  split.
  - apply (proj1 (ucb_score_correct log_approx visited 4 0.5%float)).
    + split; reflexivity.
    + reflexivity.
    + reflexivity.
  - assert (Hrun : exists best,
      best_child log_approx family_root [(1, 1); (2, 2)]%nat family
      = Ok (best, family)).
    { eexists. vm_compute. reflexivity. }
    destruct Hrun as ([a c] & Hrun).
    assert (Hkv : (2, (2, 2))%nat
                  ∈ candidates family_root [(1, 1); (2, 2)]%nat).
    { vm_compute. apply list_elem_of_further, list_elem_of_here. }
    destruct (proj2 (proj2 (ucb_score_correct log_approx unvisited 3
                              0.5%float))
                family_root [(1, 1); (2, 2)]%nat family family (a, c)
                (2, (2, 2))%nat eq_refl Hkv eq_refl Hrun)
      as (cb & u & _ & Hcb & _ & _ & Hzero).
    exists a. rewrite Hrun. do 2 f_equal.
    assert (Hv : visits cb = 0).
    { apply Hzero. intros kv' cn' u' Hin Hcn Hne Hu.
      vm_compute in Hin.
      apply elem_of_cons in Hin as [->|Hin].
      - simpl in Hcn. injection Hcn as <-. vm_compute in Hu.
        injection Hu as <-. reflexivity.
      - apply list_elem_of_singleton in Hin as ->.
        simpl in Hcn. injection Hcn as <-. done. }
    simpl in Hcb. destruct c as [|[|[|c]]]; simpl in Hcb; try done;
      injection Hcb as <-; done.
Defined.

(** C6, where it fails.  With the same score, the state of higher health
    does not get the greater evaluation: at score 0 both evaluations are
    0, at a negative score the order is reversed, and at score 1 a
    difference in health of one unit in the last place is absorbed by
    rounding. *)
Lemma score_not_greater_with_health :
  (state_score (scored 0 0.5) = state_score (scored 0 1)
   /\ (state_health (scored 0 0.5) <? state_health (scored 0 1))%float = true
   /\ (score (scored 0 0.5) <? score (scored 0 1))%float = false)
  /\ (state_score (scored (-2) 0.5) = state_score (scored (-2) 1)
      /\ (state_health (scored (-2) 0.5) <? state_health (scored (-2) 1))%float
         = true
      /\ (score (scored (-2) 1) <? score (scored (-2) 0.5))%float = true)
  /\ (state_score (scored 1 1) = state_score (scored 1 (1 + 0x1p-52))
      /\ (state_health (scored 1 1)
          <? state_health (scored 1 (1 + 0x1p-52)))%float = true
      /\ score (scored 1 1) = score (scored 1 (1 + 0x1p-52))).
Proof. repeat split; vm_compute; reflexivity. Qed.

(** Witness of C6: two states that share score 5 and health 0.5 and differ
    in hand, draw pile and turn. *)
Lemma score_pure_witness :
  score early = score late
  /\ score early = (state_score early * (0.5 + 0.5 * state_health early))%float.
Proof. exact (score_pure early late eq_refl eq_refl). Defined.

(** Witness of C9: in the card game every play is over after three turns,
    and a rollout from the start returns; in the game that never ends it
    does not. *)
Lemma rollout_terminates_witness :
  (exists acts m' mb,
     legal_play (start [1; 2]%nat [3; 4]%nat) acts /\ (length acts <= 3)%nat
     /\ (ended (play (start [1; 2]%nat [3; 4]%nat) acts) = true
         \/ get_actions (play (start [1; 2]%nat [3; 4]%nat) acts) = [])
     /\ rollout 10 0%nat (start [1; 2]%nat [3; 4]%nat) (lone [1; 0; 1]%nat)
        = Ok (tt, m')
     /\ backpropagate 0%nat
          (score (play (start [1; 2]%nat [3; 4]%nat) acts))
          (lone [1; 0; 1]%nat) = Ok (tt, mb)
     /\ heap m' = heap mb
     /\ rng m' = drop (length acts) (rng (lone [1; 0; 1]%nat))
     /\ trace m' = EvRollout 0%nat :: trace (lone [1; 0; 1]%nat))
  /\ rollout (API := Loop.api) 10 0%nat tt (lone [1; 0; 1]%nat) = Diverge.
Proof.
  split.
  - apply (proj1 (rollout_terminates 10 0%nat (start [1; 2]%nat [3; 4]%nat)
                    (lone [1; 0; 1]%nat)) 3%nat).
    + vm_compute. reflexivity.
    + lia.
    + intros [|i] nd p Hi Hp; simpl in Hi; inversion Hi; subst.
      simpl in Hp. discriminate.
    + simpl. lia.
  - apply (proj2 (proj2 (rollout_terminates (API := Loop.api) 10 0%nat tt
                           (lone [1; 0; 1]%nat)))).
    intros acts _. split; [reflexivity|discriminate].
Defined.

(** C8, where it fails.  The root has a child for card 5 only and the
    working state holds card 7 only: the map is not empty and none of its
    actions is legal.  [select] does not treat the root as a leaf: it
    builds a third node, for card 7, and starts a rollout from it. *)
Lemma select_stale_children_expands :
  (children <$> heap stale !! 0%nat) = Some [(5, (5, 1))]%nat
  /\ get_actions (start [7]%nat []) = [7]%nat
  /\ select log_approx 2 10 0%nat (start [7]%nat []) stale
     <> leaf 0%nat (start [7]%nat []) stale
  /\ exists m',
       select log_approx 2 10 0%nat (start [7]%nat []) stale = Ok (tt, m')
       /\ length (heap m') = 3%nat
       /\ (children <$> heap m' !! 0%nat)
          = Some [(5, (5, 1)); (7, (7, 2))]%nat
       /\ trace m' = [EvRollout 2; EvNewNode 2].
Proof.
  split; [reflexivity|]. split; [reflexivity|]. split.
  - vm_compute. discriminate.
  - eexists. split; [vm_compute; reflexivity|]. repeat split.
Qed.

(** Witness of C8: the same root with a state that has no action is a
    leaf; with card 7 it is expanded; with card 5 the recorded child is a
    candidate. *)
Lemma select_cases_witness :
  (exists m',
     select log_approx 2 10 0%nat (start [] []) stale = Ok (tt, m')
     /\ length (heap m') = 2%nat
     /\ trace m' = [EvLeaf 0])
  /\ select log_approx 2 10 0%nat (start [7]%nat []) stale
     = expand 10 0%nat (start [7]%nat []) [7]%nat stale
  /\ candidates (mkNode [(5, (5, 1))]%nat None None 0.5%float 1 15%float)
       (valid_actions_of (get_actions (start [5]%nat []))) <> [].
Proof.
  assert (Hwf : wf_parents (heap stale)).
  { intros [|[|i]] nd p Hi Hp; simpl in Hi; inversion Hi; subst;
      simpl in Hp; inversion Hp; lia. }
  split; [|split].
  - destruct (select_cases log_approx 1 10 0%nat (start [] []) _ stale
                eq_refl) as (Hleaf & _).
    destruct (Hleaf eq_refl) as (Heq & Hrun).
    destruct (Hrun Hwf) as (m' & mb & Hm & _ & _ & Hlen & _ & Htr).
    exists m'. rewrite Heq. done.
  - destruct (select_cases log_approx 1 10 0%nat (start [7]%nat []) _ stale
                eq_refl) as (_ & Hexp & _).
    apply Hexp; vm_compute; discriminate.
  - destruct (select_cases log_approx 1 10 0%nat (start [5]%nat []) _ stale
                eq_refl) as (_ & _ & _ & Hdead).
    apply Hdead; [vm_compute; discriminate|reflexivity].
Defined.

(** Witness of C7: four iterations on a hand of two cards over a draw
    pile of two unplayable ones.  The copies of the second and of the
    fourth iteration hold the unplayable cards only, so the root is
    evaluated as a leaf twice: the root has 4 visits, its children 2. *)
Lemma visit_conservation_witness :
  exists m',
    run_iterations log_approx 4 10 0%nat (start [1; 2]%nat [0; 0]%nat)
      (lone [0; 0; 0; 0; 0; 0; 2; 0; 0; 0; 0; 0; 1; 1; 0; 0]%nat)
    = Ok (tt, m')
    /\ visits_at (heap m') 0%nat = 4
    /\ children_visits (heap m') 0%nat
       = 4 - (leaf_count 0%nat (trace m') - 0)
    /\ leaf_count 0%nat (trace m') = 2.
Proof.
  assert (Hrun : exists m',
    run_iterations log_approx 4 10 0%nat (start [1; 2]%nat [0; 0]%nat)
      (lone [0; 0; 0; 0; 0; 0; 2; 0; 0; 0; 0; 0; 1; 1; 0; 0]%nat)
    = Ok (tt, m') /\ leaf_count 0%nat (trace m') = 2).
  { eexists. split; vm_compute; reflexivity. }
  destruct Hrun as (m' & Hrun & Hleaf). exists m'.
  destruct (visit_conservation log_approx 4 10 0.5%float
              (start [1; 2]%nat [0; 0]%nat)
              [0; 0; 0; 0; 0; 0; 2; 0; 0; 0; 0; 0; 1; 1; 0; 0]%nat [] m' Hrun)
    as (Hv & Hc & _).
  repeat split; assumption.
Defined.

(** ** The further properties on concrete inputs *)

(** In the card game a battle is over after [limit] turns. *)
Lemma toy_settles (n : nat) (s : state) :
  (limit <= turn s + n)%nat -> settles n s = true.
Proof.
  revert s. induction n as [|n IH]; intros s Hn.
  - assert (He : ended s = true).
    { apply Nat.leb_le. lia. }
    cbn [settles]. by rewrite He.
  - cbn [settles]. destruct (ended s); [done|]. cbn [orb].
    destruct (get_actions s) as [|a0 l0] eqn:Ha; [done|].
    apply forallb_forall. intros a _. apply IH. simpl. lia.
Qed.

Lemma log_approx_not_neg (p : Z) : (log_approx p <? 0)%float = false.
Proof. unfold log_approx. by apply mul_not_neg. Qed.

(** A copy keeps the turn, and with an empty draw pile it keeps the cards
    of the hand. *)
Lemma redraw_turn (s : state) (r : list nat) :
  turn (redraw s r).1 = turn s.
Proof. by destruct r. Qed.

Lemma redraw_no_deck (s : state) (r : list nat) :
  deck s = [] ->
  deck (redraw s r).1 = []
  /\ forall a, a ∈ hand (redraw s r).1 -> a ∈ hand s.
Proof.
  intros Hd. destruct r as [|d r]; [done|]. simpl. rewrite Hd, app_nil_r.
  split.
  - apply drop_ge. by rewrite length_rotate.
  - intros a Ha. apply elem_of_take in Ha as (i & Ha & _).
    apply list_elem_of_lookup_2 in Ha. by apply elem_of_rotate in Ha.
Qed.

Lemma legal_hand (s : state) (a : nat) :
  a ∈ legal s <-> (turn s < limit)%nat /\ a <> 0%nat /\ a ∈ hand s.
Proof.
  unfold legal. destruct (Nat.ltb_spec (turn s) limit).
  - rewrite list_elem_of_filter. tauto.
  - split; [inversion 1|lia].
Qed.

Lemma copies_no_new_action (s : state) (rg1 rg2 : list nat) (a : nat) :
  deck s = [] ->
  a ∈ get_actions
        (copy_undeterministic (copy_undeterministic s rg1).1 rg2).1 ->
  a ∈ get_actions s.
Proof.
  intros Hd Ha. simpl in *. apply legal_hand in Ha as (Ht & Hne & Hin).
  rewrite !redraw_turn in Ht.
  destruct (redraw_no_deck s rg1 Hd) as [Hd1 H1].
  destruct (redraw_no_deck (redraw s rg1).1 rg2 Hd1) as [_ H2].
  apply legal_hand. auto.
Qed.

(** Witness of X1: the parent of a child visited three times and of a
    child never visited; [max] picks a child that scores no less than the
    visited one. *)
Lemma best_child_maximal_witness :
  exists best k cn u u',
    best_child log_approx family_root [(1, 1); (2, 2)]%nat family
    = Ok (best, family)
    /\ (k, best) ∈ children family_root
    /\ heap family !! best.2 = Some cn
    /\ ucb_score log_approx cn 3 0.5 = Ok u
    /\ ucb_score log_approx visited 3 0.5 = Ok u'
    /\ (u <? u')%float = false.
Proof.
  assert (Hrun : exists best,
    best_child log_approx family_root [(1, 1); (2, 2)]%nat family
    = Ok (best, family)).
  { eexists. vm_compute. reflexivity. }
  destruct Hrun as [best Hrun].
  destruct (best_child_maximal log_approx family_root
              [(1, 1); (2, 2)]%nat best family family Hrun)
    as (_ & k & cn & u & Hin & _ & Hcn & Hu & Hmax).
  assert (Hu' : exists u', ucb_score log_approx visited 3 0.5 = Ok u').
  { eexists. vm_compute. reflexivity. }
  destruct Hu' as [u' Hu'].
  exists best, k, cn, u, u'. repeat split; try done.
  apply (Hmax (1, (1, 1))%nat visited u');
    [apply list_elem_of_here|reflexivity|reflexivity|exact Hu'].
Defined.

(** Witness of X2: a node visited three times, under a parent count of 4
    and under a parent count of 0. *)
Lemma ucb_score_errors_witness :
  (exists u, ucb_score log_approx visited 4 0.5 = Ok u)
  /\ ucb_score log_approx visited 0 0.5 = Raise ValueError.
Proof.
  assert (Hv : 0 <= visits visited < 2 ^ 63) by (simpl; lia).
  split.
  - apply (proj1 (ucb_score_errors log_approx visited 4 0.5%float Hv
                    (fun _ => log_approx_not_neg 4))).
    right. lia.
  - apply (proj2 (ucb_score_errors log_approx visited 0 0.5%float Hv
                    (fun _ => log_approx_not_neg 0))).
    + simpl. lia.
    + lia.
Defined.

(** Witness of X3: the first expansion of a root, on a hand of two
    cards. *)
Lemma expand_adds_child_witness :
  exists m' a acts nd',
    expand 10 0%nat (start [1; 2]%nat [3; 4]%nat) [1; 2]%nat
      (lone [1; 0; 1]%nat) = Ok (tt, m')
    /\ a ∈ [1; 2]%nat
    /\ legal_play (state_step (start [1; 2]%nat [3; 4]%nat) a) acts
    /\ length (heap m') = 2%nat
    /\ heap m' !! 0%nat = Some nd'
    /\ children nd' = [(key a, (a, 1%nat))]
    /\ visits nd' = 1.
Proof.
  assert (Hrun : exists m',
    expand 10 0%nat (start [1; 2]%nat [3; 4]%nat) [1; 2]%nat
      (lone [1; 0; 1]%nat) = Ok (tt, m')).
  { eexists. vm_compute. reflexivity. }
  destruct Hrun as [m' Hrun].
  assert (Hwf : wf_parents (heap (lone [1; 0; 1]%nat))).
  { apply fresh_root_shape. }
  destruct (expand_adds_child 10 0%nat (start [1; 2]%nat [3; 4]%nat)
              [1; 2]%nat _ (lone [1; 0; 1]%nat) m' Hwf eq_refl Hrun)
    as (a & acts & nd' & Ha & Hplay & _ & Hlen & _ & Hnd' & Hch & Hv & _).
  exists m', a, acts, nd'. repeat split; done.
Defined.

(** Witness of X4: a budget of zero on a hand of two cards; the random
    source says 1, the second card is returned. *)
Lemma choose_card_zero_budget_witness :
  choose_card log_approx (agent 0) 10 tt (start [1; 2]%nat [3; 4]%nat)
              (boot [1]%nat)
  = Ok (2%nat,
        mkMachine [mkNode [] None None 0.5%float 0 0%float] []
                  [EvNewNode 0]).
Proof.
  assert (H0 : iterations (agent 0) <= 0) by (simpl; lia).
  assert (Hmany : forall a, get_actions (start [1; 2]%nat [3; 4]%nat) <> [a]).
  { intros a Ha. vm_compute in Ha. discriminate. }
  rewrite (choose_card_zero_budget log_approx (agent 0) 10 tt
             (start [1; 2]%nat [3; 4]%nat) (boot [1]%nat) H0 Hmany).
  reflexivity.
Defined.

(** Witness of X5: four iterations from a fresh root. *)
Lemma search_keeps_tree_witness :
  exists m',
    run_iterations log_approx 4 10 0%nat (start [1; 2]%nat [3; 4]%nat)
      (lone [0; 1; 0; 0; 2; 0; 0; 0; 1; 1; 0; 0]%nat)
    = Ok (tt, m')
    /\ searched 0.5 4 (heap m').
Proof.
  assert (Hrun : exists m',
    run_iterations log_approx 4 10 0%nat (start [1; 2]%nat [3; 4]%nat)
      (lone [0; 1; 0; 0; 2; 0; 0; 0; 1; 1; 0; 0]%nat)
    = Ok (tt, m')).
  { eexists. vm_compute. reflexivity. }
  destruct Hrun as [m' Hrun]. exists m'. split; [exact Hrun|].
  apply (search_keeps_tree log_approx 4 10 0%nat
           (start [1; 2]%nat [3; 4]%nat) 0.5%float 0
           (lone [0; 1; 0; 0; 2; 0; 0; 0; 1; 1; 0; 0]%nat) m').
  - apply fresh_root_searched.
  - simpl. lia.
  - exact Hrun.
Defined.

(** Witness of X6: the same four iterations. *)
Lemma visits_conserved_everywhere_witness :
  exists m',
    run_iterations log_approx 4 10 0%nat (start [1; 2]%nat [3; 4]%nat)
      (lone [0; 1; 0; 0; 2; 0; 0; 0; 1; 1; 0; 0]%nat)
    = Ok (tt, m')
    /\ conserved (heap m') (trace m')
    /\ names_below (length (heap m')) (trace m').
Proof.
  assert (Hrun : exists m',
    run_iterations log_approx 4 10 0%nat (start [1; 2]%nat [3; 4]%nat)
      (lone [0; 1; 0; 0; 2; 0; 0; 0; 1; 1; 0; 0]%nat)
    = Ok (tt, m')).
  { eexists. vm_compute. reflexivity. }
  destruct Hrun as [m' Hrun]. exists m'. split; [exact Hrun|].
  apply (visits_conserved_everywhere log_approx 4 10 0%nat
           (start [1; 2]%nat [3; 4]%nat)
           (lone [0; 1; 0; 0; 2; 0; 0; 0; 1; 1; 0; 0]%nat) m').
  - apply fresh_root_shape.
  - simpl. lia.
  - apply fresh_root_conserved.
  - constructor.
  - exact Hrun.
Defined.

(** Witness of X7: four iterations make eight copies and four
    evaluations. *)
Lemma search_event_counts_witness :
  exists m',
    run_iterations log_approx 4 10 0%nat (start [1; 2]%nat [3; 4]%nat)
      (lone [0; 1; 0; 0; 2; 0; 0; 0; 1; 1; 0; 0]%nat)
    = Ok (tt, m')
    /\ count is_clone (trace m') = 8
    /\ count is_leaf (trace m') + count is_rollout (trace m') = 4
    /\ count is_rollout (trace m') = Z.of_nat (length (heap m')) - 1
    /\ count is_new_node (trace m') = Z.of_nat (length (heap m')) - 1.
Proof.
  assert (Hrun : exists m',
    run_iterations log_approx 4 10 0%nat (start [1; 2]%nat [3; 4]%nat)
      (lone [0; 1; 0; 0; 2; 0; 0; 0; 1; 1; 0; 0]%nat)
    = Ok (tt, m')).
  { eexists. vm_compute. reflexivity. }
  destruct Hrun as [m' Hrun]. exists m'. split; [exact Hrun|].
  destruct (search_event_counts log_approx 4 10 0%nat
              (start [1; 2]%nat [3; 4]%nat)
              (lone [0; 1; 0; 0; 2; 0; 0; 0; 1; 1; 0; 0]%nat) m')
    as (H1 & H2 & H3 & H4).
  - apply fresh_root_shape.
  - simpl. lia.
  - exact Hrun.
  - change (count is_clone (trace (lone _))) with 0 in H1.
    change (count is_leaf (trace (lone _))) with 0 in H2.
    change (count is_rollout (trace (lone _))) with 0 in H2, H3.
    change (count is_new_node (trace (lone _))) with 0 in H4.
    change (Z.of_nat (length (heap (lone _)))) with 1 in H3, H4.
    repeat split; lia.
Defined.

(** Witness of X8: the root after four iterations. *)
Lemma search_keeps_nodes_witness :
  exists m' x',
    run_iterations log_approx 4 10 0%nat (start [1; 2]%nat [3; 4]%nat)
      (lone [0; 1; 0; 0; 2; 0; 0; 0; 1; 1; 0; 0]%nat)
    = Ok (tt, m')
    /\ heap m' !! 0%nat = Some x'
    /\ parent x' = None /\ action x' = None /\ param x' = 0.5%float
    /\ 0 <= visits x' <= 4.
Proof.
  assert (Hrun : exists m',
    run_iterations log_approx 4 10 0%nat (start [1; 2]%nat [3; 4]%nat)
      (lone [0; 1; 0; 0; 2; 0; 0; 0; 1; 1; 0; 0]%nat)
    = Ok (tt, m')).
  { eexists. vm_compute. reflexivity. }
  destruct Hrun as [m' Hrun].
  destruct (search_keeps_nodes log_approx 4 10 0%nat
              (start [1; 2]%nat [3; 4]%nat)
              (lone [0; 1; 0; 0; 2; 0; 0; 0; 1; 1; 0; 0]%nat) m' 0%nat
              (mkNode [] None None 0.5%float 0 0%float))
    as (x' & Hx' & Hpar & Hact & Hprm & Hv & _).
  - apply fresh_root_shape.
  - simpl. lia.
  - exact Hrun.
  - reflexivity.
  - exists m', x'. simpl in Hv.
    split; [exact Hrun|]. split; [exact Hx'|]. split; [exact Hpar|].
    split; [exact Hact|]. split; [exact Hprm|]. lia.
Defined.

(** Witness of X9: the card game on an empty heap, with a budget of four
    iterations. *)
Lemma choose_card_returns_witness :
  exists card m',
    choose_card log_approx (agent 4) 10 tt (start [1; 2]%nat [3; 4]%nat)
                (boot [2; 0; 1]%nat)
    = Ok (card, m').
Proof.
  apply (choose_card_returns log_approx (agent 4) 3 10 0 tt
           (start [1; 2]%nat [3; 4]%nat) (boot [2; 0; 1]%nat)).
  - intros s. apply toy_settles. unfold limit. lia.
  - lia.
  - intros p _. apply log_approx_not_neg.
  - apply empty_heap_shape.
  - apply empty_heap_keyed.
  - apply empty_heap_counted.
  - lia.
  - simpl. lia.
  - discriminate.
Defined.

(** Witness of X10: a hand of two cards over an empty draw pile; every
    copy holds the same two cards. *)
Lemma choose_card_legal_witness :
  exists card m' a,
    choose_card log_approx (agent 4) 10 tt (start [1; 2]%nat [])
                (boot [1; 0; 1; 1; 0]%nat)
    = Ok (card, m')
    /\ a ∈ get_actions (start [1; 2]%nat [])
    /\ card = to_action a (start [1; 2]%nat []).
Proof.
  assert (Hrun : exists card m',
    choose_card log_approx (agent 4) 10 tt (start [1; 2]%nat [])
                (boot [1; 0; 1; 1; 0]%nat)
    = Ok (card, m')).
  { eexists _, _. vm_compute. reflexivity. }
  destruct Hrun as (card & m' & Hrun).
  destruct (choose_card_legal log_approx (agent 4) 10 tt
              (start [1; 2]%nat []) card (boot [1; 0; 1; 1; 0]%nat) m')
    as (a & Ha & Hc).
  - intros rg1 rg2 a. by apply copies_no_new_action.
  - apply empty_heap_shape.
  - exact Hrun.
  - exists card, m', a. split; [exact Hrun|]. split; [exact Ha|exact Hc].
Defined.

(** Witness of X12: a battle that is over, with cards in hand. *)
Lemma choose_card_no_legal_action_witness :
  choose_card log_approx (agent 50) 10 tt
    (mkState [1; 2]%nat [3]%nat 3 0 1%float) (boot [2; 0; 1]%nat)
  = Raise IndexError.
Proof.
  apply (choose_card_no_legal_action log_approx (agent 50) 10 tt
           (mkState [1; 2]%nat [3]%nat 3 0 1%float) (boot [2; 0; 1]%nat)).
  - reflexivity.
  - intros rg1 rg2. simpl. unfold legal. by rewrite !redraw_turn.
Defined.

(** Witness of X13: the child with the higher average is returned. *)
Lemma get_best_maximal_witness :
  exists a k c cn avg,
    get_best 0%nat (start [1; 2]%nat []) family = Ok (Some a, family)
    /\ (k, (a, c)) ∈ children family_root
    /\ heap family !! c = Some cn
    /\ average_score cn = Ok avg
    /\ (avg <? 0)%float = false.
Proof.
  assert (Hrun : exists a,
    get_best 0%nat (start [1; 2]%nat []) family = Ok (Some a, family)).
  { eexists. vm_compute. reflexivity. }
  destruct Hrun as [a Hrun].
  destruct (get_best_maximal 0%nat (start [1; 2]%nat []) family_root
              family family a eq_refl) as (_ & k & c & cn & avg & Hin
                                           & Hcn & Havg & Hmax);
    [discriminate|exact Hrun|].
  exists a, k, c, cn, avg. repeat split; try done.
  apply (Hmax 2%nat 2%nat 2%nat unvisited 0%float);
    [apply list_elem_of_further, list_elem_of_here|reflexivity|reflexivity].
Defined.

(** Witness of X14: the same choice for a hand of two cards and for no
    card at all. *)
Lemma get_best_ignores_state_witness :
  get_best 0%nat (start [1; 2]%nat []) family
  = get_best 0%nat (start [] []) family.
Proof.
  apply (get_best_ignores_state 0%nat (start [1; 2]%nat []) (start [] [])
           family_root family); [reflexivity|discriminate].
Defined.

Lemma family_shape : tree_shape (heap family).
Proof.
  split.
  - intros [|[|[|i]]] nd p Hi Hp; simpl in Hi; inversion Hi; subst;
      simpl in Hp; inversion Hp; lia.
  - intros [|[|[|n]]] nd c Hn Hc; simpl in Hn; inversion Hn; subst;
      try (by inversion Hc).
    change (child_ids family_root) with [1; 2]%nat in Hc.
    apply elem_of_cons in Hc as [->|Hc].
    { by exists visited. }
    apply list_elem_of_singleton in Hc as ->. by exists unvisited.
  - intros [|[|[|c]]] cd p Hc Hp; simpl in Hc; inversion Hc; subst;
      simpl in Hp; inversion Hp; subst; exists family_root;
      (split; [done|]); change (child_ids family_root) with [1; 2]%nat.
    + apply list_elem_of_here.
    + apply list_elem_of_further, list_elem_of_here.
  - intros [|[|[|n]]] nd Hn; simpl in Hn; inversion Hn; subst;
      try (by constructor).
    change (child_ids family_root) with [1; 2]%nat.
    apply NoDup_cons. split; [|apply NoDup_singleton].
    intros Hin. apply list_elem_of_singleton in Hin. discriminate.
Qed.

(** Witness of X15: the parent and its two children, printed from the
    parent. *)
Lemma print_tree_lists_subtree_witness :
  exists lines,
    print_tree_lines 3 (heap family) 0 0 = Ok lines
    /\ lines = [(0, 0); (2, 1); (2, 2)]%nat.
Proof.
  destruct (print_tree_lists_subtree (heap family) 0 0 family_shape)
    as (lines & Hrun & _).
  - intros [|[|[|i]]] nd Hi; simpl in Hi; inversion Hi; subst; simpl; lia.
  - simpl. lia.
  - exists lines. split; [exact Hrun|].
    vm_compute in Hrun. injection Hrun as <-. reflexivity.
Defined.

(** Witness of X16: the tree of four iterations from a fresh root. *)
Lemma print_tree_after_search_witness :
  exists m' lines,
    run_iterations log_approx 4 10 0%nat (start [1; 2]%nat [3; 4]%nat)
      (lone [0; 1; 0; 0; 2; 0; 0; 0; 1; 1; 0; 0]%nat)
    = Ok (tt, m')
    /\ print_tree_lines (length (heap m')) (heap m') 0 0 = Ok lines
    /\ head lines = Some (0, 0)%nat
    /\ length lines = length (heap m').
Proof.
  assert (Hrun : exists m',
    run_iterations log_approx 4 10 0%nat (start [1; 2]%nat [3; 4]%nat)
      (lone [0; 1; 0; 0; 2; 0; 0; 0; 1; 1; 0; 0]%nat)
    = Ok (tt, m')).
  { eexists. vm_compute. reflexivity. }
  destruct Hrun as [m' Hrun].
  destruct (print_tree_after_search log_approx 4 10 0%nat
              (start [1; 2]%nat [3; 4]%nat) 0
              (lone [0; 1; 0; 0; 2; 0; 0; 0; 1; 1; 0; 0]%nat) m')
    as (lines & Hlines & Hhead & Hlen & _).
  - apply fresh_root_shape.
  - apply (searched_counted _ _ _ (fresh_root_searched 0.5%float)).
  - apply fresh_root_rooted.
  - simpl. lia.
  - simpl. lia.
  - exact Hrun.
  - exists m', lines. split; [exact Hrun|]. split; [exact Hlines|].
    split; [exact Hhead|exact Hlen].
Defined.
